(** * Polygon_Intersection: relationship of two polygons

    A shallow embedding of [polygon.c] (procedural, module [C]) and of
    [polygon.cpp] (object oriented, module [Cpp]).  Both programs compute on
    [double]; the embedding is written once over an interface [Arith] of the
    operations the programs use, and is run on [binary64]: IEEE 754 binary64
    as the kernel's primitive floats, round to nearest even, the arithmetic
    the compiled programs perform.

    Statements about control flow are proved for every implementation of
    the interface.  Statements that depend on arithmetic are proved on
    [binary64]: a finite double has a rational value, each operation
    returns the correctly rounded value of its exact result, and the
    geometry of a polygon is that of the rational points its vertices
    stand for. *)

From Stdlib Require Import String List Bool Arith Lia ZArith Permutation.
From Stdlib Require Import QArith Qabs Lqa Qfield Qpower.
From Stdlib Require Import Floats.
Import ListNotations.
Close Scope Q_scope.
Open Scope nat_scope.

(** ** The arithmetic of [double] *)

Class Arith : Type := {
  dbl : Type;
  dzero : dbl;                    (* the literal 0 *)
  EPSILON : dbl;                  (* the literal 1e-6 *)
  dadd : dbl -> dbl -> dbl;
  dsub : dbl -> dbl -> dbl;
  dmul : dbl -> dbl -> dbl;
  ddiv : dbl -> dbl -> dbl;
  dltb : dbl -> dbl -> bool;      (* u < v *)
  dleb : dbl -> dbl -> bool;      (* u <= v *)
  fabs : dbl -> dbl;              (* fabs, std::abs *)
  fmin : dbl -> dbl -> dbl;       (* <math.h> *)
  fmax : dbl -> dbl -> dbl
}.

Declare Scope dbl_scope.
Delimit Scope dbl_scope with dbl.
Bind Scope dbl_scope with dbl.
Infix "+" := dadd : dbl_scope.
Infix "-" := dsub : dbl_scope.
Infix "*" := dmul : dbl_scope.
Infix "/" := ddiv : dbl_scope.
Infix "<?" := dltb : dbl_scope.
Infix "<=?" := dleb : dbl_scope.
Notation "u >? v" := (dltb v u) (at level 70) : dbl_scope.

(** ** Data: the structs of [polygon.c], the classes of [polygon.cpp] *)

Record Point {A : Arith} : Type := mkPoint { x : dbl; y : dbl }.
Arguments mkPoint {A} x y.

Record Line {A : Arith} : Type := mkLine { a : dbl; b : dbl; c : dbl }.
Arguments mkLine {A} a b c.

Record LineSegment {A : Arith} : Type := mkSegment { p1 : Point; p2 : Point }.
Arguments mkSegment {A} p1 p2.

(** [Polygon] is [{Point* vertices; int size}] in C and holds a
    [std::vector<Point>] in C++; [size] is the length of the vertex array. *)
Record Polygon {A : Arith} : Type := mkPolygon { vertices : list Point }.
Arguments mkPolygon {A} vertices.

Definition size {A : Arith} (poly : Polygon) : nat := List.length (vertices poly).

(** [vertices[i]]; every index the programs use is below [size]. *)
Definition vertex {A : Arith} (poly : Polygon) (i : nat) : Point :=
  nth i (vertices poly) (mkPoint dzero dzero).

(** ** Loops *)

(** [for (int i = 0; i < n; i++) body], threading the variables the body
    assigns. *)
Definition for_loop {S : Type} (n : nat) (body : nat -> S -> S) (s : S) : S :=
  fold_left (fun st i => body i st) (seq 0 n) s.

(** [for (const auto& e : l) body]. *)
Definition for_each {T S : Type} (l : list T) (body : T -> S -> S) (s : S) : S :=
  fold_left (fun st e => body e st) l s.

(** [for (const auto& e : l) { if (hit e) { flag = true; break; } }]. *)
Fixpoint for_each_break_set {T : Type} (l : list T) (hit : T -> bool) (flag : bool) : bool :=
  match l with
  | [] => flag
  | e :: rest => if hit e then true else for_each_break_set rest hit flag
  end.

(** [for ... { if (!ok e) { flag = false; break; } }]. *)
Fixpoint for_each_break_clear {T : Type} (l : list T) (ok : T -> bool) (flag : bool) : bool :=
  match l with
  | [] => flag
  | e :: rest => if ok e then for_each_break_clear rest ok flag else false
  end.

(** ** [polygon.c] *)

Module C.
Section Program.
Context {A : Arith}.
Local Open Scope dbl_scope.

Definition areEqual (u v : dbl) : bool := fabs (u - v) <? EPSILON.

Definition pointsEqual (q r : Point) : bool :=
  areEqual (x q) (x r) && areEqual (y q) (y r).

Definition createLine (q r : Point) : Line :=
  {| a := y r - y q;
     b := x q - x r;
     c := x r * y q - x q * y r |}.

Definition lineContains (line : Line) (p : Point) : bool :=
  areEqual (a line * x p + b line * y p + c line) dzero.

(** [bool lineIntersection(Line, Line, Point* result)]: [Some] is [true]
    with [*result] written, [None] is [false]. *)
Definition lineIntersection (line1 line2 : Line) : option Point :=
  let determinant := a line1 * b line2 - a line2 * b line1 in
  if areEqual determinant dzero then None
  else Some {| x := (b line1 * c line2 - b line2 * c line1) / determinant;
               y := (a line2 * c line1 - a line1 * c line2) / determinant |}.

Definition segmentContains (seg : LineSegment) (p : Point) : bool :=
  let line := createLine (p1 seg) (p2 seg) in
  if negb (lineContains line p) then false
  else (fmin (x (p1 seg)) (x (p2 seg)) <=? x p) && (x p <=? fmax (x (p1 seg)) (x (p2 seg)))
       && ((fmin (y (p1 seg)) (y (p2 seg)) <=? y p) && (y p <=? fmax (y (p1 seg)) (y (p2 seg)))).

Definition segmentIntersection (seg1 seg2 : LineSegment) : option Point :=
  let line1 := createLine (p1 seg1) (p2 seg1) in
  let line2 := createLine (p1 seg2) (p2 seg2) in
  match lineIntersection line1 line2 with
  | None => None
  | Some result =>
      if segmentContains seg1 result && segmentContains seg2 result
      then Some result else None
  end.

Definition getEdges (poly : Polygon) : list LineSegment :=
  map (fun i => {| p1 := vertex poly i; p2 := vertex poly ((i + 1) mod size poly) |})
      (seq 0 (size poly)).

Definition areCollinear (seg1 seg2 : LineSegment) : bool :=
  let line := createLine (p1 seg1) (p2 seg1) in
  lineContains line (p1 seg2) && lineContains line (p2 seg2).

Definition isBetween (u v w : dbl) : bool := (fmin u v <=? w) && (w <=? fmax u v).

Definition edgesOverlap (seg1 seg2 : LineSegment) : bool :=
  (isBetween (x (p1 seg1)) (x (p2 seg1)) (x (p1 seg2)) ||
   isBetween (x (p1 seg1)) (x (p2 seg1)) (x (p2 seg2)) ||
   isBetween (x (p1 seg2)) (x (p2 seg2)) (x (p1 seg1)) ||
   isBetween (x (p1 seg2)) (x (p2 seg2)) (x (p2 seg1))) &&
  (isBetween (y (p1 seg1)) (y (p2 seg1)) (y (p1 seg2)) ||
   isBetween (y (p1 seg1)) (y (p2 seg1)) (y (p2 seg2)) ||
   isBetween (y (p1 seg2)) (y (p2 seg2)) (y (p1 seg1)) ||
   isBetween (y (p1 seg2)) (y (p2 seg2)) (y (p2 seg1))).

(** [edges[i]] on the array [getEdges] returned. *)
Definition edge_at (edges : list LineSegment) (i : nat) : LineSegment :=
  nth i edges (mkSegment (mkPoint dzero dzero) (mkPoint dzero dzero)).

(** What one turn of the loop of [polygonContains] does. *)
Variant turn : Type :=
  | Return (r : bool)     (* return r; *)
  | Continue (hit : bool). (* go on, after count++ when [hit] *)

Definition polygonContains_body (poly : Polygon) (p : Point) (i : nat) : turn :=
  let v1 := vertex poly i in
  let v2 := vertex poly ((i + 1) mod size poly) in
  let edge := {| p1 := v1; p2 := v2 |} in
  if segmentContains edge p then Return true
  else if areEqual (y v1) (y v2) then Continue false
  else if (y p <? fmin (y v1) (y v2)) || (y p >? fmax (y v1) (y v2)) then Continue false
  else
    let xIntersect := (y p - y v1) * (x v2 - x v1) / (y v2 - y v1) + x v1 in
    if areEqual xIntersect (x p) then Return true
    else Continue (xIntersect >? x p).

Fixpoint polygonContains_loop (poly : Polygon) (p : Point) (idx : list nat) (count : nat) : bool :=
  match idx with
  | [] => (count mod 2 =? 1)%nat
  | i :: rest =>
      match polygonContains_body poly p i with
      | Return r => r
      | Continue hit =>
          polygonContains_loop poly p rest (if hit then S count else count)
      end
  end.

Definition polygonContains (poly : Polygon) (p : Point) : bool :=
  polygonContains_loop poly p (seq 0 (size poly)) 0.

(** The two flags of [classifyPolygons]. *)
Record flags : Type := mkFlags { isTouching : bool; isIntersecting : bool }.

Definition set_touching (cond : bool) (f : flags) : flags :=
  if cond then {| isTouching := true; isIntersecting := isIntersecting f |} else f.

Definition set_intersecting (cond : bool) (f : flags) : flags :=
  if cond then {| isTouching := isTouching f; isIntersecting := true |} else f.

(** The test under which the first loop sets [isIntersecting]. *)
Definition crossesInside (e1 e2 : LineSegment) : bool :=
  match segmentIntersection e1 e2 with
  | Some intersectionPoint =>
      negb (pointsEqual intersectionPoint (p1 e1)) &&
      negb (pointsEqual intersectionPoint (p2 e1)) &&
      negb (pointsEqual intersectionPoint (p1 e2)) &&
      negb (pointsEqual intersectionPoint (p2 e2))
  | None => false
  end.

Definition classify_first_loops (poly1 poly2 : Polygon) (f : flags) : flags :=
  let edges1 := getEdges poly1 in
  let edges2 := getEdges poly2 in
  for_loop (size poly1) (fun i =>
    for_loop (size poly2) (fun j f =>
      let f := set_touching (segmentContains (edge_at edges1 i) (vertex poly2 j)) f in
      let f := set_touching (areCollinear (edge_at edges1 i) (edge_at edges2 j)
                             && edgesOverlap (edge_at edges1 i) (edge_at edges2 j)) f in
      set_intersecting (crossesInside (edge_at edges1 i) (edge_at edges2 j)) f)) f.

Definition classify_second_loops (poly1 poly2 : Polygon) (f : flags) : flags :=
  let edges2 := getEdges poly2 in
  for_loop (size poly2) (fun i =>
    for_loop (size poly1) (fun j f =>
      set_touching (segmentContains (edge_at edges2 i) (vertex poly1 j)) f)) f.

Definition classifyPolygons (poly1 poly2 : Polygon) : string :=
  let f := {| isTouching := false; isIntersecting := false |} in
  let f := classify_first_loops poly1 poly2 f in
  let f := classify_second_loops poly1 poly2 f in
  if isIntersecting f then "Intersecting"%string
  else if isTouching f then "Touching"%string
  else
    let thisInsideOther :=
      for_each_break_clear (seq 0 (size poly1))
        (fun i => polygonContains poly2 (vertex poly1 i)) true in
    let otherInsideThis :=
      for_each_break_clear (seq 0 (size poly2))
        (fun i => polygonContains poly1 (vertex poly2 i)) true in
    if thisInsideOther || otherInsideThis then "Disjoint (Enclosed)"%string
    else "Disjoint (Outside)"%string.

End Program.
End C.

(** ** [polygon.cpp] *)

Module Cpp.
Section Program.
Context {A : Arith}.
Local Open Scope dbl_scope.

Definition areEqual (u v : dbl) : bool := fabs (u - v) <? EPSILON.

(** [std::min(u, v)] is [(v < u) ? v : u]; [std::max(u, v)] is
    [(u < v) ? v : u]. *)
Definition std_min (u v : dbl) : dbl := if v <? u then v else u.
Definition std_max (u v : dbl) : dbl := if u <? v then v else u.

(** [Point::operator==]. *)
Definition Point_eq (this other : Point) : bool :=
  areEqual (x this) (x other) && areEqual (y this) (y other).

(** [Line::Line(p1, p2)]. *)
Definition Line_new (q r : Point) : Line :=
  {| a := y r - y q;
     b := x q - x r;
     c := x r * y q - x q * y r |}.

Definition Line_contains (this : Line) (p : Point) : bool :=
  areEqual (a this * x p + b this * y p + c this) dzero.

Definition Line_intersection (this other : Line) : option Point :=
  let determinant := a this * b other - a other * b this in
  if areEqual determinant dzero then None
  else Some {| x := (b this * c other - b other * c this) / determinant;
               y := (a other * c this - a this * c other) / determinant |}.

Definition LineSegment_contains (this : LineSegment) (p : Point) : bool :=
  let line := Line_new (p1 this) (p2 this) in
  if negb (Line_contains line p) then false
  else (std_min (x (p1 this)) (x (p2 this)) <=? x p) && (x p <=? std_max (x (p1 this)) (x (p2 this)))
       && ((std_min (y (p1 this)) (y (p2 this)) <=? y p) && (y p <=? std_max (y (p1 this)) (y (p2 this)))).

Definition LineSegment_intersection (this other : LineSegment) : option Point :=
  let line1 := Line_new (p1 this) (p2 this) in
  let line2 := Line_new (p1 other) (p2 other) in
  match Line_intersection line1 line2 with
  | None => None
  | Some result =>
      if LineSegment_contains this result && LineSegment_contains other result
      then Some result else None
  end.

Definition getEdges (this : Polygon) : list LineSegment :=
  let n := size this in
  for_loop n (fun i edges =>
    edges ++ [ {| p1 := vertex this i; p2 := vertex this ((i + 1) mod n) |} ]) [].

Variant turn : Type :=
  | Return (r : bool)
  | Continue (hit : bool).

Definition contains_body (this : Polygon) (p : Point) (i : nat) : turn :=
  let n := size this in
  let v1 := vertex this i in
  let v2 := vertex this ((i + 1) mod n) in
  let edge := {| p1 := v1; p2 := v2 |} in
  if LineSegment_contains edge p then Return true
  else if areEqual (y v1) (y v2) then Continue false
  else if (y p <? std_min (y v1) (y v2)) || (y p >? std_max (y v1) (y v2)) then Continue false
  else
    let xIntersect := (y p - y v1) * (x v2 - x v1) / (y v2 - y v1) + x v1 in
    if areEqual xIntersect (x p) then Return true
    else Continue (xIntersect >? x p).

Fixpoint contains_loop (this : Polygon) (p : Point) (idx : list nat) (count : nat) : bool :=
  match idx with
  | [] => (count mod 2 =? 1)%nat
  | i :: rest =>
      match contains_body this p i with
      | Return r => r
      | Continue hit => contains_loop this p rest (if hit then S count else count)
      end
  end.

(** [Polygon::contains]. *)
Definition Polygon_contains (this : Polygon) (p : Point) : bool :=
  contains_loop this p (seq 0 (size this)) 0.

Definition areCollinear (seg1 seg2 : LineSegment) : bool :=
  let line1 := Line_new (p1 seg1) (p2 seg1) in
  Line_contains line1 (p1 seg2) && Line_contains line1 (p2 seg2).

Definition isBetween (u v w : dbl) : bool := (std_min u v <=? w) && (w <=? std_max u v).

Definition edgesOverlap (seg1 seg2 : LineSegment) : bool :=
  (isBetween (x (p1 seg1)) (x (p2 seg1)) (x (p1 seg2)) ||
   isBetween (x (p1 seg1)) (x (p2 seg1)) (x (p2 seg2)) ||
   isBetween (x (p1 seg2)) (x (p2 seg2)) (x (p1 seg1)) ||
   isBetween (x (p1 seg2)) (x (p2 seg2)) (x (p2 seg1))) &&
  (isBetween (y (p1 seg1)) (y (p2 seg1)) (y (p1 seg2)) ||
   isBetween (y (p1 seg1)) (y (p2 seg1)) (y (p2 seg2)) ||
   isBetween (y (p1 seg2)) (y (p2 seg2)) (y (p1 seg1)) ||
   isBetween (y (p1 seg2)) (y (p2 seg2)) (y (p2 seg1))).

(** The test under which the last pair of loops sets [isIntersecting]. *)
Definition crossesInside (edge1 edge2 : LineSegment) : bool :=
  match LineSegment_intersection edge1 edge2 with
  | Some intersectionPoint =>
      negb (Point_eq (p1 edge1) intersectionPoint) &&
      negb (Point_eq (p2 edge1) intersectionPoint) &&
      negb (Point_eq (p1 edge2) intersectionPoint) &&
      negb (Point_eq (p2 edge2) intersectionPoint)
  | None => false
  end.

(** [Polygon::classify]. *)
Definition Polygon_classify (this other : Polygon) : string :=
  let edges1 := getEdges this in
  let edges2 := getEdges other in
  let isTouching := false in
  let isTouching :=
    for_each edges1 (fun edge1 =>
      for_each_break_set (vertices other) (fun vertex => LineSegment_contains edge1 vertex))
      isTouching in
  let isTouching :=
    for_each edges2 (fun edge2 =>
      for_each_break_set (vertices this) (fun vertex => LineSegment_contains edge2 vertex))
      isTouching in
  let isTouching :=
    for_each edges1 (fun edge1 =>
      for_each_break_set edges2 (fun edge2 => areCollinear edge1 edge2 && edgesOverlap edge1 edge2))
      isTouching in
  let isIntersecting := false in
  let isIntersecting :=
    for_each edges1 (fun edge1 =>
      for_each_break_set edges2 (fun edge2 => crossesInside edge1 edge2))
      isIntersecting in
  if isIntersecting then "Intersecting"%string
  else if isTouching then "Touching"%string
  else
    let thisInsideOther :=
      for_each_break_clear (vertices this) (fun vertex => Polygon_contains other vertex) true in
    let otherInsideThis :=
      for_each_break_clear (vertices other) (fun vertex => Polygon_contains this vertex) true in
    if thisInsideOther || otherInsideThis then "Disjoint (Enclosed)"%string
    else "Disjoint (Outside)"%string.

End Program.
End Cpp.

(** ** The arithmetic of the compiled programs *)

(** [fmin] and [fmax] of C99 (Annex F.10.9): a NaN argument is missing
    data, the other argument is returned. *)
Definition c_fmin (u v : float) : float :=
  if is_nan u then v else if is_nan v then u
  else if PrimFloat.ltb u v then u else v.

Definition c_fmax (u v : float) : float :=
  if is_nan u then v else if is_nan v then u
  else if PrimFloat.ltb u v then v else u.

(** IEEE 754 binary64, round to nearest even.  [EPSILON] is the double
    nearest to 1e-6, which is what the literal denotes in both programs. *)
#[export] Instance binary64 : Arith := {|
  dbl := float;
  dzero := 0%float;
  EPSILON := 0x1.0c6f7a0b5ed8dp-20%float;
  dadd := PrimFloat.add;
  dsub := PrimFloat.sub;
  dmul := PrimFloat.mul;
  ddiv := PrimFloat.div;
  dltb := PrimFloat.ltb;
  dleb := PrimFloat.leb;
  fabs := PrimFloat.abs;
  fmin := c_fmin;
  fmax := c_fmax
|}.

(** ** What the loops compute *)

Lemma for_each_break_set_spec {T : Type} (l : list T) (hit : T -> bool) (flag : bool) :
  for_each_break_set l hit flag = flag || existsb hit l.
Proof.
  induction l as [|e rest IH]; simpl.
  - now rewrite orb_false_r.
  - destruct (hit e); simpl.
    + now rewrite orb_true_r.
    + exact IH.
Qed.

Lemma for_each_break_clear_spec {T : Type} (l : list T) (ok : T -> bool) (flag : bool) :
  for_each_break_clear l ok flag = forallb ok l && flag.
Proof.
  induction l as [|e rest IH]; simpl; [reflexivity|].
  destruct (ok e); simpl; [exact IH | reflexivity].
Qed.

Section Loops.
Variables T U : Type.

Lemma for_each_nested_set (l : list T) (inner : list U) (hit : T -> U -> bool) (flag : bool) :
  for_each l (fun e => for_each_break_set inner (hit e)) flag
  = flag || existsb (fun e => existsb (hit e) inner) l.
Proof.
  unfold for_each. revert flag.
  induction l as [|e rest IH]; intros flag; cbn [fold_left existsb].
  - now rewrite orb_false_r.
  - rewrite IH, for_each_break_set_spec. now rewrite orb_assoc.
Qed.

Lemma existsb_ext_in (f g : T -> bool) (l : list T) :
  (forall e, In e l -> f e = g e) -> existsb f l = existsb g l.
Proof.
  induction l as [|e rest IH]; intros E; simpl; [reflexivity|].
  rewrite (E e) by now left.
  rewrite IH; [reflexivity|]. intros; apply E; now right.
Qed.

Lemma forallb_ext_in (f g : T -> bool) (l : list T) :
  (forall e, In e l -> f e = g e) -> forallb f l = forallb g l.
Proof.
  induction l as [|e rest IH]; intros E; simpl; [reflexivity|].
  rewrite (E e) by now left.
  rewrite IH; [reflexivity|]. intros; apply E; now right.
Qed.

Lemma existsb_map_comp (f : U -> bool) (g : T -> U) (l : list T) :
  existsb f (map g l) = existsb (fun e => f (g e)) l.
Proof. induction l as [|e rest IH]; simpl; [reflexivity | now rewrite IH]. Qed.

Lemma forallb_map_comp (f : U -> bool) (g : T -> U) (l : list T) :
  forallb f (map g l) = forallb (fun e => f (g e)) l.
Proof. induction l as [|e rest IH]; simpl; [reflexivity | now rewrite IH]. Qed.

Lemma existsb_swap (f : T -> U -> bool) (l : list T) (m : list U) :
  existsb (fun e => existsb (fun d => f e d) m) l
  = existsb (fun d => existsb (fun e => f e d) l) m.
Proof.
  apply eq_true_iff_eq. rewrite !existsb_exists. split.
  - intros (e & He & H). apply existsb_exists in H as (d & Hd & H).
    exists d. split; [exact Hd|]. apply existsb_exists. now exists e.
  - intros (d & Hd & H). apply existsb_exists in H as (e & He & H).
    exists e. split; [exact He|]. apply existsb_exists. now exists d.
Qed.

Lemma append_loop (f : nat -> T) (l : list nat) (acc : list T) :
  fold_left (fun st i => st ++ [f i]) l acc = acc ++ map f l.
Proof.
  revert acc. induction l as [|i rest IH]; intros acc; simpl.
  - now rewrite app_nil_r.
  - rewrite IH. now rewrite <- app_assoc.
Qed.

Lemma nth_map_seq (f : nat -> T) (d : T) (n i : nat) :
  i < n -> nth i (map f (seq 0 n)) d = f i.
Proof.
  intros Hi.
  rewrite (nth_indep _ d (f 0)) by now rewrite length_map, length_seq.
  rewrite map_nth, seq_nth by exact Hi. reflexivity.
Qed.

Lemma map_nth_seq (l : list T) (d : T) :
  map (fun i => nth i l d) (seq 0 (List.length l)) = l.
Proof.
  induction l as [|e rest IH]; simpl; [reflexivity|].
  f_equal. rewrite <- seq_shift, map_map. exact IH.
Qed.

End Loops.

Arguments existsb_ext_in {T} f g l _.
Arguments forallb_ext_in {T} f g l _.
Arguments existsb_map_comp {T U} f g l.
Arguments forallb_map_comp {T U} f g l.
Arguments existsb_swap {T U} f l m.
Arguments append_loop {T} f l acc.
Arguments nth_map_seq {T} f d n i _.
Arguments map_nth_seq {T} l d.

Section Flags.
Context {A : Arith}.

Lemma flags_inner_first (t1 t2 cr : nat -> bool) (js : list nat) (f : C.flags) :
  fold_left (fun st j =>
      C.set_intersecting (cr j) (C.set_touching (t2 j) (C.set_touching (t1 j) st))) js f
  = {| C.isTouching := C.isTouching f || existsb (fun j => t1 j || t2 j) js;
       C.isIntersecting := C.isIntersecting f || existsb cr js |}.
Proof.
  revert f. induction js as [|j rest IH]; intros [t i]; simpl.
  - now rewrite !orb_false_r.
  - rewrite IH. destruct (t1 j), (t2 j), (cr j); simpl;
      rewrite ?orb_true_r, ?orb_false_r; reflexivity.
Qed.

Lemma flags_outer (inner : nat -> C.flags -> C.flags) (tch crs : nat -> bool)
      (idx : list nat) (f : C.flags) :
  (forall i st, inner i st =
     {| C.isTouching := C.isTouching st || tch i;
        C.isIntersecting := C.isIntersecting st || crs i |}) ->
  fold_left (fun st i => inner i st) idx f
  = {| C.isTouching := C.isTouching f || existsb tch idx;
       C.isIntersecting := C.isIntersecting f || existsb crs idx |}.
Proof.
  intros E. revert f. induction idx as [|i rest IH]; intros [t k]; simpl.
  - now rewrite !orb_false_r.
  - rewrite IH, E. simpl. now rewrite !orb_assoc.
Qed.

Lemma flags_inner_second (t1 : nat -> bool) (js : list nat) (f : C.flags) :
  fold_left (fun st j => C.set_touching (t1 j) st) js f
  = {| C.isTouching := C.isTouching f || existsb t1 js;
       C.isIntersecting := C.isIntersecting f || false |}.
Proof.
  revert f. induction js as [|j rest IH]; intros [t i]; simpl.
  - now rewrite !orb_false_r.
  - rewrite IH. destruct (t1 j); simpl; rewrite ?orb_true_r, ?orb_false_r; reflexivity.
Qed.

End Flags.

(** ** The decision procedure, read off the loops *)

Section Decision.
Context {A : Arith}.

(** Edge [i] joins vertex [i] to vertex [(i + 1) mod n]. *)
Definition edge_of (poly : Polygon) (i : nat) : LineSegment :=
  {| p1 := vertex poly i; p2 := vertex poly ((i + 1) mod size poly) |}.

Definition indices (poly : Polygon) : list nat := seq 0 (size poly).

(** Some edge of [P] passes [on_edge] with some vertex of [Q]. *)
Definition some_vertex_on_edge (on_edge : LineSegment -> Point -> bool) (P Q : Polygon) : bool :=
  existsb (fun i => existsb (fun j => on_edge (edge_of P i) (vertex Q j)) (indices Q)) (indices P).

(** Some edge of [P] passes [test] with some edge of [Q]. *)
Definition some_edge_pair (test : LineSegment -> LineSegment -> bool) (P Q : Polygon) : bool :=
  existsb (fun i => existsb (fun j => test (edge_of P i) (edge_of Q j)) (indices Q)) (indices P).

(** Every vertex of [P] passes [inside Q]. *)
Definition all_vertices_inside (inside : Polygon -> Point -> bool) (P Q : Polygon) : bool :=
  forallb (fun i => inside Q (vertex P i)) (indices P).

Definition label (intersecting touching enclosed : bool) : string :=
  if intersecting then "Intersecting"%string
  else if touching then "Touching"%string
  else if enclosed then "Disjoint (Enclosed)"%string
  else "Disjoint (Outside)"%string.

Lemma C_getEdges_eq (poly : Polygon) :
  C.getEdges poly = map (edge_of poly) (indices poly).
Proof. reflexivity. Qed.

Lemma Cpp_getEdges_eq (poly : Polygon) :
  Cpp.getEdges poly = map (edge_of poly) (indices poly).
Proof.
  unfold Cpp.getEdges, for_loop.
  rewrite append_loop. reflexivity.
Qed.

Lemma vertices_eq (poly : Polygon) :
  vertices poly = map (vertex poly) (indices poly).
Proof. unfold vertex, indices, size. now rewrite map_nth_seq. Qed.

Lemma edge_at_getEdges (poly : Polygon) (i : nat) :
  In i (indices poly) -> C.edge_at (C.getEdges poly) i = edge_of poly i.
Proof.
  intros Hi. apply in_seq in Hi.
  unfold C.edge_at. rewrite C_getEdges_eq. apply nth_map_seq. lia.
Qed.

Definition C_intersecting (P Q : Polygon) : bool :=
  some_edge_pair C.crossesInside P Q.

Definition C_touching (P Q : Polygon) : bool :=
  some_vertex_on_edge C.segmentContains P Q
  || some_edge_pair (fun e1 e2 => C.areCollinear e1 e2 && C.edgesOverlap e1 e2) P Q
  || some_vertex_on_edge C.segmentContains Q P.

Definition C_enclosed (P Q : Polygon) : bool :=
  all_vertices_inside C.polygonContains P Q || all_vertices_inside C.polygonContains Q P.

Lemma C_first_loops (P Q : Polygon) (f : C.flags) :
  C.classify_first_loops P Q f =
  {| C.isTouching := C.isTouching f
       || existsb (fun i => existsb (fun j =>
            C.segmentContains (edge_of P i) (vertex Q j)
            || C.areCollinear (edge_of P i) (edge_of Q j)
               && C.edgesOverlap (edge_of P i) (edge_of Q j)) (indices Q)) (indices P);
     C.isIntersecting := C.isIntersecting f || C_intersecting P Q |}.
Proof.
  unfold C.classify_first_loops, for_loop, C_intersecting, some_edge_pair.
  fold (indices P). fold (indices Q).
  rewrite (flags_outer _
    (fun i => existsb (fun j =>
       C.segmentContains (C.edge_at (C.getEdges P) i) (vertex Q j)
       || C.areCollinear (C.edge_at (C.getEdges P) i) (C.edge_at (C.getEdges Q) j)
          && C.edgesOverlap (C.edge_at (C.getEdges P) i) (C.edge_at (C.getEdges Q) j))
       (indices Q))
    (fun i => existsb (fun j =>
       C.crossesInside (C.edge_at (C.getEdges P) i) (C.edge_at (C.getEdges Q) j))
       (indices Q))).
  - f_equal; f_equal; apply existsb_ext_in; intros i Hi;
      apply existsb_ext_in; intros j Hj;
      now rewrite !edge_at_getEdges by assumption.
  - intros i st.
    exact (flags_inner_first
      (fun j => C.segmentContains (C.edge_at (C.getEdges P) i) (vertex Q j))
      (fun j => C.areCollinear (C.edge_at (C.getEdges P) i) (C.edge_at (C.getEdges Q) j)
                && C.edgesOverlap (C.edge_at (C.getEdges P) i) (C.edge_at (C.getEdges Q) j))
      (fun j => C.crossesInside (C.edge_at (C.getEdges P) i) (C.edge_at (C.getEdges Q) j))
      (indices Q) st).
Qed.

Lemma C_second_loops (P Q : Polygon) (f : C.flags) :
  C.classify_second_loops P Q f =
  {| C.isTouching := C.isTouching f || some_vertex_on_edge C.segmentContains Q P;
     C.isIntersecting := C.isIntersecting f |}.
Proof.
  unfold C.classify_second_loops, for_loop, some_vertex_on_edge.
  fold (indices P). fold (indices Q).
  rewrite (flags_outer _
    (fun i => existsb (fun j =>
       C.segmentContains (C.edge_at (C.getEdges Q) i) (vertex P j)) (indices P))
    (fun _ => false)).
  - f_equal.
    + f_equal. apply existsb_ext_in; intros i Hi.
      apply existsb_ext_in; intros j Hj.
      now rewrite edge_at_getEdges by assumption.
    + induction (indices Q) as [|i rest IH]; simpl; [apply orb_false_r | exact IH].
  - intros i st.
    exact (flags_inner_second
      (fun j => C.segmentContains (C.edge_at (C.getEdges Q) i) (vertex P j))
      (indices P) st).
Qed.

Lemma existsb_orb {T : Type} (f g : T -> bool) (l : list T) :
  existsb (fun e => f e || g e) l = existsb f l || existsb g l.
Proof.
  induction l as [|e rest IH]; simpl; [reflexivity|].
  rewrite IH. destruct (f e), (g e), (existsb f rest); reflexivity.
Qed.

(** [classifyPolygons] is the four-way decision on three detectors. *)
Lemma C_classify_eq (P Q : Polygon) :
  C.classifyPolygons P Q = label (C_intersecting P Q) (C_touching P Q) (C_enclosed P Q).
Proof.
  unfold C.classifyPolygons.
  rewrite C_second_loops, C_first_loops. cbn [C.isTouching C.isIntersecting orb].
  rewrite !for_each_break_clear_spec, !andb_true_r.
  unfold label, C_touching, C_enclosed, all_vertices_inside, some_vertex_on_edge, some_edge_pair.
  fold (indices P). fold (indices Q).
  replace (existsb (fun i => existsb (fun j =>
            C.segmentContains (edge_of P i) (vertex Q j)
            || C.areCollinear (edge_of P i) (edge_of Q j)
               && C.edgesOverlap (edge_of P i) (edge_of Q j)) (indices Q)) (indices P))
    with (existsb (fun i => existsb (fun j =>
            C.segmentContains (edge_of P i) (vertex Q j)) (indices Q)) (indices P)
          || existsb (fun i => existsb (fun j =>
               C.areCollinear (edge_of P i) (edge_of Q j)
               && C.edgesOverlap (edge_of P i) (edge_of Q j)) (indices Q)) (indices P)).
  - reflexivity.
  - rewrite <- existsb_orb. apply existsb_ext_in; intros i _.
    now rewrite <- existsb_orb.
Qed.

Lemma existsb_vertices (f : Point -> bool) (poly : Polygon) :
  existsb f (vertices poly) = existsb (fun j => f (vertex poly j)) (indices poly).
Proof.
  transitivity (existsb f (map (vertex poly) (indices poly)));
    [f_equal; apply vertices_eq | apply existsb_map_comp].
Qed.

Lemma forallb_vertices (f : Point -> bool) (poly : Polygon) :
  forallb f (vertices poly) = forallb (fun j => f (vertex poly j)) (indices poly).
Proof.
  transitivity (forallb f (map (vertex poly) (indices poly)));
    [f_equal; apply vertices_eq | apply forallb_map_comp].
Qed.

Definition Cpp_intersecting (P Q : Polygon) : bool :=
  some_edge_pair Cpp.crossesInside P Q.

Definition Cpp_touching (P Q : Polygon) : bool :=
  some_vertex_on_edge Cpp.LineSegment_contains P Q
  || some_vertex_on_edge Cpp.LineSegment_contains Q P
  || some_edge_pair (fun e1 e2 => Cpp.areCollinear e1 e2 && Cpp.edgesOverlap e1 e2) P Q.

Definition Cpp_enclosed (P Q : Polygon) : bool :=
  all_vertices_inside Cpp.Polygon_contains P Q || all_vertices_inside Cpp.Polygon_contains Q P.

(** [Polygon::classify] is the same four-way decision on its own detectors. *)
Lemma Cpp_classify_eq (P Q : Polygon) :
  Cpp.Polygon_classify P Q = label (Cpp_intersecting P Q) (Cpp_touching P Q) (Cpp_enclosed P Q).
Proof.
  unfold Cpp.Polygon_classify.
  rewrite !for_each_nested_set, !for_each_break_clear_spec, !andb_true_r.
  cbn [orb].
  rewrite !Cpp_getEdges_eq, !existsb_map_comp, !forallb_vertices.
  match goal with
  | |- (if ?i then _ else if ?t then _ else if ?e then _ else _) = _ =>
      change (label i t e
              = label (Cpp_intersecting P Q) (Cpp_touching P Q) (Cpp_enclosed P Q))
  end.
  f_equal.
  - apply existsb_ext_in; intros; apply existsb_map_comp.
  - unfold Cpp_touching. f_equal; [f_equal|].
    + apply existsb_ext_in; intros; apply existsb_vertices.
    + apply existsb_ext_in; intros; apply existsb_vertices.
    + apply existsb_ext_in; intros.
      exact (existsb_map_comp
               (fun edge2 => Cpp.areCollinear (edge_of P e) edge2
                             && Cpp.edgesOverlap (edge_of P e) edge2) _ _).
Qed.

End Decision.

(** ** binary64: facts about the arithmetic

    Proved on the specification [SpecFloat] of the primitive floats and
    carried over by the specification of each operator. *)

Section SpecFloats.

Definition sf_nan (u : spec_float) : bool := match u with S754_nan => true | _ => false end.

Lemma SFsub_zero_r (u : spec_float) : SF64sub u (S754_zero false) = u.
Proof. destruct u as [[]| | |]; reflexivity. Qed.

Lemma binary_round_aux_abs (s : bool) (m e : Z) (l : location) :
  SFabs (binary_round_aux prec emax s m e l) = SFabs (binary_round_aux prec emax false m e l).
Proof.
  unfold binary_round_aux.
  destruct (shr_fexp prec emax m e l) as [mrs' e'].
  destruct (shr_fexp prec emax _ e' loc_Exact) as [mrs'' e''].
  destruct (shr_m mrs''); try reflexivity.
  destruct (Z.leb e'' (Z.sub emax prec)); reflexivity.
Qed.

Lemma binary_normalize_abs_opp (m e : Z) :
  SFabs (binary_normalize prec emax (- m) e false) = SFabs (binary_normalize prec emax m e false).
Proof.
  destruct m as [|p|p]; simpl; try reflexivity; unfold binary_round;
  destruct (shl_align p e _) as [mz ez];
  rewrite (binary_round_aux_abs true); reflexivity.
Qed.

Lemma SFsub_abs_sym (u v : spec_float) :
  SFabs (SF64sub u v) = SFabs (SF64sub v u).
Proof.
  destruct u as [[]|[]| |su mu eu], v as [[]|[]| |sv mv ev]; try reflexivity.
  unfold SF64sub, SFsub.
  rewrite (Z.min_comm ev eu).
  rewrite <- binary_normalize_abs_opp. f_equal. f_equal. lia.
Qed.
End SpecFloats.

Section Comparison.

Lemma SFcompare_refl (u : spec_float) : sf_nan u = false -> SFcompare u u = Some Eq.
Proof.
  destruct u as [s|s| |s m e]; simpl; try discriminate; intros _.
  - reflexivity.
  - now destruct s.
  - change (Pos.compare_cont Eq m m) with (Pos.compare m m).
    rewrite Z.compare_refl, Pos.compare_refl. now destruct s.
Qed.

Lemma SFcompare_antisym (u v : spec_float) :
  SFcompare v u = option_map CompOpp (SFcompare u v).
Proof.
  destruct u as [s|s| |s m e], v as [s'|s'| |s' m' e']; simpl; try reflexivity;
    try (now destruct s); try (now destruct s'); try (now destruct s, s').
  change (Pos.compare_cont Eq m' m) with (Pos.compare m' m).
  change (Pos.compare_cont Eq m m') with (Pos.compare m m').
  rewrite (Z.compare_antisym e e'), (Pos.compare_antisym m m').
  destruct s, s'; simpl; try reflexivity;
    destruct (Z.compare e e'); simpl; try reflexivity;
    now rewrite ?CompOpp_involutive.
Qed.

Lemma SFcompare_Eq_cases (u v : spec_float) :
  SFcompare u v = Some Eq ->
  u = v \/ (exists s s', u = S754_zero s /\ v = S754_zero s').
Proof.
  destruct u as [s|s| |s m e], v as [s'|s'| |s' m' e']; simpl; try discriminate;
    try (now destruct s); try (now destruct s').
  - intros _. right. now exists s, s'.
  - destruct s, s'; try discriminate; now left.
  - change (Pos.compare_cont Eq m m') with (Pos.compare m m').
    destruct s, s'; try discriminate;
      destruct (Z.compare_spec e e') as [He|He|He]; try discriminate;
      destruct (Pos.compare_spec m m') as [Hm|Hm|Hm]; try discriminate;
      intros _; left; now subst.
Qed.

Lemma SFcompare_Eq_l (u v w : spec_float) :
  SFcompare u v = Some Eq -> SFcompare u w = SFcompare v w.
Proof.
  intros H. destruct (SFcompare_Eq_cases _ _ H) as [->|(s & s' & -> & ->)];
    [reflexivity|].
  now destruct w.
Qed.

Lemma SFcompare_Eq_r (u v w : spec_float) :
  SFcompare u v = Some Eq -> SFcompare w u = SFcompare w v.
Proof.
  intros H. rewrite (SFcompare_antisym u w), (SFcompare_antisym v w).
  now rewrite (SFcompare_Eq_l _ _ w H).
Qed.

Lemma SFcompare_None (u v : spec_float) :
  SFcompare u v = None <-> sf_nan u || sf_nan v = true.
Proof.
  destruct u as [s|s| |s m e], v as [s'|s'| |s' m' e']; simpl; split;
    try discriminate; try reflexivity.
Qed.

End Comparison.

Section NotANumber.

Lemma SFadd_nan (u v : spec_float) :
  sf_nan u || sf_nan v = true -> sf_nan (SF64add u v) = true.
Proof. destruct u as [[]|[]| |? ? ?], v as [[]|[]| |? ? ?]; simpl; try discriminate; reflexivity. Qed.

Lemma SFsub_nan (u v : spec_float) :
  sf_nan u || sf_nan v = true -> sf_nan (SF64sub u v) = true.
Proof. destruct u as [[]|[]| |? ? ?], v as [[]|[]| |? ? ?]; simpl; try discriminate; reflexivity. Qed.

Lemma SFmul_nan (u v : spec_float) :
  sf_nan u || sf_nan v = true -> sf_nan (SF64mul u v) = true.
Proof. destruct u as [[]|[]| |? ? ?], v as [[]|[]| |? ? ?]; simpl; try discriminate; reflexivity. Qed.

Lemma SFdiv_nan (u v : spec_float) :
  sf_nan u || sf_nan v = true -> sf_nan (SF64div u v) = true.
Proof. destruct u as [[]|[]| |? ? ?], v as [[]|[]| |? ? ?]; simpl; try discriminate; reflexivity. Qed.

Lemma SFabs_nan (u : spec_float) : sf_nan (SFabs u) = sf_nan u.
Proof. now destruct u. Qed.

End NotANumber.

Section PrimFloats.
Local Open Scope float_scope.

Lemma is_nan_spec (u : float) : is_nan u = sf_nan (Prim2SF u).
Proof.
  unfold is_nan. rewrite eqb_spec. unfold SFeqb.
  destruct (sf_nan (Prim2SF u)) eqn:E.
  - destruct (Prim2SF u); try discriminate. reflexivity.
  - now rewrite (SFcompare_refl _ E).
Qed.

Lemma sub_zero_r (u : float) : u - 0 = u.
Proof.
  apply Prim2SF_inj. rewrite sub_spec.
  change (Prim2SF 0) with (S754_zero false). apply SFsub_zero_r.
Qed.

Lemma abs_sub_sym (u v : float) : abs (u - v) = abs (v - u).
Proof.
  apply Prim2SF_inj. rewrite !abs_spec, !sub_spec. apply SFsub_abs_sym.
Qed.

Lemma add_nan (u v : float) : is_nan u || is_nan v = true -> is_nan (u + v) = true.
Proof. rewrite !is_nan_spec, add_spec. apply SFadd_nan. Qed.
Lemma sub_nan (u v : float) : is_nan u || is_nan v = true -> is_nan (u - v) = true.
Proof. rewrite !is_nan_spec, sub_spec. apply SFsub_nan. Qed.
Lemma mul_nan (u v : float) : is_nan u || is_nan v = true -> is_nan (u * v) = true.
Proof. rewrite !is_nan_spec, mul_spec. apply SFmul_nan. Qed.
Lemma div_nan (u v : float) : is_nan u || is_nan v = true -> is_nan (u / v) = true.
Proof. rewrite !is_nan_spec, div_spec. apply SFdiv_nan. Qed.
Lemma abs_nan (u : float) : is_nan (abs u) = is_nan u.
Proof. rewrite !is_nan_spec, abs_spec. apply SFabs_nan. Qed.

Lemma ltb_nan (u v : float) : is_nan u || is_nan v = true -> (u <? v) = false.
Proof.
  rewrite !is_nan_spec, ltb_spec. intros H. apply SFcompare_None in H.
  unfold SFltb. now rewrite H.
Qed.

Lemma leb_nan (u v : float) : is_nan u || is_nan v = true -> (u <=? v) = false.
Proof.
  rewrite !is_nan_spec, leb_spec. intros H. apply SFcompare_None in H.
  unfold SFleb. now rewrite H.
Qed.

(** On numbers, exactly one of [u < v], [u == v], [v < u]. *)
Lemma ltb_false_leb (u v : float) :
  is_nan u = false -> is_nan v = false -> (u <? v) = false -> (v <=? u) = true.
Proof.
  rewrite !is_nan_spec, ltb_spec, leb_spec. unfold SFltb, SFleb.
  intros Hu Hv. rewrite (SFcompare_antisym (Prim2SF u) (Prim2SF v)).
  destruct (SFcompare (Prim2SF u) (Prim2SF v)) as [[]|] eqn:E; simpl; try easy.
  intros _. apply SFcompare_None in E. rewrite Hu, Hv in E. discriminate.
Qed.

End PrimFloats.

(** ** binary64: [polygon.c] and [polygon.cpp] compute the same

    The two texts differ in [fmin]/[fmax] against [std::min]/[std::max],
    which disagree on NaN, and in the order of the arguments of the point
    comparison.  Neither difference reaches a result. *)

Section Equivalence.
Local Open Scope float_scope.
Let Pt := @Point binary64.
Let Seg := @LineSegment binary64.
Let Poly := @Polygon binary64.

(** Two floats that compare equal: the same number, or two zeros. *)
Definition feq (u v : float) : Prop := SFcompare (Prim2SF u) (Prim2SF v) = Some Eq.

Lemma feq_refl (u : float) : is_nan u = false -> feq u u.
Proof. rewrite is_nan_spec. apply SFcompare_refl. Qed.

Lemma feq_leb_l (u v w : float) : feq u v -> (u <=? w) = (v <=? w).
Proof. intros H. rewrite !leb_spec. unfold SFleb. now rewrite (SFcompare_Eq_l _ _ _ H). Qed.

Lemma feq_leb_r (u v w : float) : feq u v -> (w <=? u) = (w <=? v).
Proof. intros H. rewrite !leb_spec. unfold SFleb. now rewrite (SFcompare_Eq_r _ _ _ H). Qed.

Lemma feq_ltb_l (u v w : float) : feq u v -> (u <? w) = (v <? w).
Proof. intros H. rewrite !ltb_spec. unfold SFltb. now rewrite (SFcompare_Eq_l _ _ _ H). Qed.

Lemma feq_ltb_r (u v w : float) : feq u v -> (w <? u) = (w <? v).
Proof. intros H. rewrite !ltb_spec. unfold SFltb. now rewrite (SFcompare_Eq_r _ _ _ H). Qed.

Lemma fmin_std_min (u v : float) :
  is_nan u = false -> is_nan v = false -> feq (c_fmin u v) (@Cpp.std_min binary64 u v).
Proof.
  intros Hu Hv. unfold c_fmin, Cpp.std_min. simpl. rewrite Hu, Hv.
  rewrite !ltb_spec. unfold SFltb, feq.
  rewrite (SFcompare_antisym (Prim2SF u) (Prim2SF v)).
  destruct (SFcompare (Prim2SF u) (Prim2SF v)) as [[]|] eqn:E; simpl.
  - rewrite (SFcompare_antisym (Prim2SF u) (Prim2SF v)), E. reflexivity.
  - now apply feq_refl.
  - now apply feq_refl.
  - apply SFcompare_None in E. rewrite <- !is_nan_spec, Hu, Hv in E. discriminate.
Qed.

Lemma fmax_std_max (u v : float) :
  is_nan u = false -> is_nan v = false -> feq (c_fmax u v) (@Cpp.std_max binary64 u v).
Proof.
  intros Hu Hv. unfold c_fmax, Cpp.std_max. simpl. rewrite Hu, Hv.
  destruct (u <? v); now apply feq_refl.
Qed.

Lemma areEqual_sym (u v : float) :
  @C.areEqual binary64 u v = @C.areEqual binary64 v u.
Proof. unfold C.areEqual. simpl. now rewrite abs_sub_sym. Qed.

Lemma pointsEqual_Point_eq (q r : Pt) : C.pointsEqual q r = Cpp.Point_eq r q.
Proof.
  unfold C.pointsEqual, Cpp.Point_eq.
  now rewrite (areEqual_sym (x q)), (areEqual_sym (y q)).
Qed.

Lemma areEqual_true_nonan (u v : float) :
  @C.areEqual binary64 u v = true -> is_nan u = false /\ is_nan v = false.
Proof.
  unfold C.areEqual. simpl. intros H.
  destruct (is_nan u) eqn:Hu, (is_nan v) eqn:Hv; auto;
    rewrite ltb_nan in H; try discriminate;
    rewrite abs_nan, sub_nan; try reflexivity; rewrite Hu, Hv; reflexivity.
Qed.

Lemma add_nonan (u v : float) :
  is_nan (u + v) = false -> is_nan u = false /\ is_nan v = false.
Proof.
  intros H. destruct (is_nan u) eqn:Hu, (is_nan v) eqn:Hv; auto;
    rewrite add_nan in H; try discriminate; rewrite Hu, Hv; reflexivity.
Qed.

Lemma sub_nonan (u v : float) :
  is_nan (u - v) = false -> is_nan u = false /\ is_nan v = false.
Proof.
  intros H. destruct (is_nan u) eqn:Hu, (is_nan v) eqn:Hv; auto;
    rewrite sub_nan in H; try discriminate; rewrite Hu, Hv; reflexivity.
Qed.

Lemma mul_nonan (u v : float) :
  is_nan (u * v) = false -> is_nan u = false /\ is_nan v = false.
Proof.
  intros H. destruct (is_nan u) eqn:Hu, (is_nan v) eqn:Hv; auto;
    rewrite mul_nan in H; try discriminate; rewrite Hu, Hv; reflexivity.
Qed.

Definition point_nonan (q : Pt) : Prop := is_nan (x q) = false /\ is_nan (y q) = false.

(** A point passes [lineContains] only when no coordinate in sight is NaN. *)
Lemma lineContains_nonan (q r p : Pt) :
  C.lineContains (C.createLine q r) p = true ->
  point_nonan q /\ point_nonan r /\ point_nonan p.
Proof.
  unfold C.lineContains, C.createLine. cbn [a b c]. intros H.
  apply areEqual_true_nonan in H as [H _]. simpl in H.
  apply add_nonan in H as [H Hc].
  apply add_nonan in H as [Ha Hb].
  apply sub_nonan in Hc as [Hc1 Hc2].
  apply mul_nonan in Hc1 as [? ?], Hc2 as [? ?], Ha as [_ ?], Hb as [_ ?].
  unfold point_nonan. auto.
Qed.

Lemma segmentContains_eq (seg : Seg) (p : Pt) :
  C.segmentContains seg p = Cpp.LineSegment_contains seg p.
Proof.
  unfold C.segmentContains, Cpp.LineSegment_contains.
  change (Cpp.Line_contains (Cpp.Line_new (p1 seg) (p2 seg)) p)
    with (C.lineContains (C.createLine (p1 seg) (p2 seg)) p).
  destruct (C.lineContains (C.createLine (p1 seg) (p2 seg)) p) eqn:E; [|reflexivity].
  apply lineContains_nonan in E as ((Hx1 & Hy1) & (Hx2 & Hy2) & _).
  cbn [negb]. simpl.
  rewrite (feq_leb_l _ _ _ (fmin_std_min _ _ Hx1 Hx2)).
  rewrite (feq_leb_l _ _ _ (fmin_std_min _ _ Hy1 Hy2)).
  rewrite (feq_leb_r _ _ _ (fmax_std_max _ _ Hx1 Hx2)).
  rewrite (feq_leb_r _ _ _ (fmax_std_max _ _ Hy1 Hy2)).
  reflexivity.
Qed.

Lemma isBetween_eq (u v w : float) :
  is_nan u = false -> is_nan v = false ->
  @C.isBetween binary64 u v w = @Cpp.isBetween binary64 u v w.
Proof.
  intros Hu Hv. unfold C.isBetween, Cpp.isBetween. simpl.
  rewrite (feq_leb_l _ _ _ (fmin_std_min _ _ Hu Hv)).
  rewrite (feq_leb_r _ _ _ (fmax_std_max _ _ Hu Hv)).
  reflexivity.
Qed.

Lemma collinear_overlap_eq (seg1 seg2 : Seg) :
  C.areCollinear seg1 seg2 && C.edgesOverlap seg1 seg2
  = Cpp.areCollinear seg1 seg2 && Cpp.edgesOverlap seg1 seg2.
Proof.
  change (Cpp.areCollinear seg1 seg2) with (C.areCollinear seg1 seg2).
  destruct (C.areCollinear seg1 seg2) eqn:E; [|reflexivity].
  unfold C.areCollinear in E. apply andb_true_iff in E as [E1 E2].
  apply lineContains_nonan in E1 as ((Hx1 & Hy1) & (Hx2 & Hy2) & (Hx3 & Hy3)).
  apply lineContains_nonan in E2 as (_ & _ & (Hx4 & Hy4)).
  cbn [andb]. unfold C.edgesOverlap, Cpp.edgesOverlap.
  now rewrite !isBetween_eq by assumption.
Qed.

Lemma segmentIntersection_eq (seg1 seg2 : Seg) :
  C.segmentIntersection seg1 seg2 = Cpp.LineSegment_intersection seg1 seg2.
Proof.
  unfold C.segmentIntersection, Cpp.LineSegment_intersection.
  change (Cpp.Line_intersection (Cpp.Line_new (p1 seg1) (p2 seg1)) (Cpp.Line_new (p1 seg2) (p2 seg2)))
    with (C.lineIntersection (C.createLine (p1 seg1) (p2 seg1)) (C.createLine (p1 seg2) (p2 seg2))).
  destruct (C.lineIntersection _ _) as [r|]; [|reflexivity].
  now rewrite !segmentContains_eq.
Qed.

Lemma crossesInside_eq (e1 e2 : Seg) :
  C.crossesInside e1 e2 = Cpp.crossesInside e1 e2.
Proof.
  unfold C.crossesInside, Cpp.crossesInside. rewrite segmentIntersection_eq.
  destruct (Cpp.LineSegment_intersection e1 e2) as [r|]; [|reflexivity].
  rewrite (pointsEqual_Point_eq r (p1 e1)), (pointsEqual_Point_eq r (p2 e1)),
    (pointsEqual_Point_eq r (p1 e2)), (pointsEqual_Point_eq r (p2 e2)).
  reflexivity.
Qed.

Lemma areEqual_nan_l (u v : float) : is_nan u = true -> @C.areEqual binary64 u v = false.
Proof.
  intros H. destruct (@C.areEqual binary64 u v) eqn:E; [|reflexivity].
  apply areEqual_true_nonan in E as [E _]. congruence.
Qed.

(** The abscissa the ray cast computes is NaN as soon as one of the two
    ordinates of the edge is. *)
Lemma xIntersect_nan (py u1 v1 u2 v2 : float) :
  is_nan v1 || is_nan v2 = true ->
  is_nan ((py - v1) * (u2 - u1) / (v2 - v1) + u1) = true.
Proof.
  intros H. apply add_nan. apply orb_true_iff. left.
  apply div_nan. apply orb_true_iff.
  destruct (is_nan v1) eqn:H1.
  - left. apply mul_nan. apply orb_true_iff. left.
    apply sub_nan. rewrite H1. apply orb_true_r.
  - right. apply sub_nan. simpl in H. now rewrite H.
Qed.

Definition same_turn (t : C.turn) (t' : Cpp.turn) : Prop :=
  match t, t' with
  | C.Return r, Cpp.Return r' => r = r'
  | C.Continue h, Cpp.Continue h' => h = h'
  | _, _ => False
  end.

Lemma contains_body_eq (poly : Poly) (p : Pt) (i : nat) :
  same_turn (C.polygonContains_body poly p i) (Cpp.contains_body poly p i).
Proof.
  unfold C.polygonContains_body, Cpp.contains_body.
  rewrite <- segmentContains_eq.
  set (v1 := vertex poly i). set (v2 := vertex poly ((i + 1) mod size poly)).
  destruct (C.segmentContains _ p); [exact eq_refl|].
  change (Cpp.areEqual (y v1) (y v2)) with (C.areEqual (y v1) (y v2)).
  destruct (C.areEqual (y v1) (y v2)); [exact eq_refl|].
  cbv zeta.
  change (@Cpp.areEqual binary64) with (@C.areEqual binary64).
  set (X := dadd (ddiv (dmul (dsub (y p) (y v1)) (dsub (x v2) (x v1))) (dsub (y v2) (y v1))) (x v1)).
  destruct (is_nan (y v1) || is_nan (y v2)) eqn:N.
  - assert (HX : is_nan X = true)
      by exact (xIntersect_nan (y p) (x v1) (y v1) (x v2) (y v2) N).
    assert (E1 : @C.areEqual binary64 X (x p) = false)
      by (apply areEqual_nan_l; exact HX).
    assert (E2 : @dltb binary64 (x p) X = false)
      by (apply ltb_nan; rewrite HX; apply orb_true_r).
    rewrite E1, E2.
    repeat match goal with
           | |- context [if ?cond then _ else _] => destruct cond
           end; exact eq_refl.
  - apply orb_false_iff in N as [N1 N2].
    assert (E1 : @dltb binary64 (y p) (fmin (y v1) (y v2))
                 = @dltb binary64 (y p) (Cpp.std_min (y v1) (y v2)))
      by exact (feq_ltb_r _ _ _ (fmin_std_min _ _ N1 N2)).
    assert (E2 : @dltb binary64 (fmax (y v1) (y v2)) (y p)
                 = @dltb binary64 (Cpp.std_max (y v1) (y v2)) (y p))
      by exact (feq_ltb_l _ _ _ (fmax_std_max _ _ N1 N2)).
    rewrite E1, E2.
    repeat match goal with
           | |- context [if ?cond then _ else _] => destruct cond
           end; exact eq_refl.
Qed.

Lemma contains_loop_eq (poly : Poly) (p : Pt) (idx : list nat) (count : nat) :
  C.polygonContains_loop poly p idx count = Cpp.contains_loop poly p idx count.
Proof.
  revert count. induction idx as [|i rest IH]; intros count; simpl; [reflexivity|].
  pose proof (contains_body_eq poly p i) as H.
  destruct (C.polygonContains_body poly p i), (Cpp.contains_body poly p i);
    simpl in H; try contradiction; subst; [reflexivity | apply IH].
Qed.

Lemma polygonContains_eq (poly : Poly) (p : Pt) :
  C.polygonContains poly p = Cpp.Polygon_contains poly p.
Proof. apply contains_loop_eq. Qed.

Lemma classify_eq (P Q : Poly) : C.classifyPolygons P Q = Cpp.Polygon_classify P Q.
Proof.
  rewrite C_classify_eq, Cpp_classify_eq. f_equal.
  - unfold C_intersecting, Cpp_intersecting, some_edge_pair.
    apply existsb_ext_in; intros i _. apply existsb_ext_in; intros j _.
    apply crossesInside_eq.
  - unfold C_touching, Cpp_touching.
    rewrite <- orb_assoc, (orb_comm (some_edge_pair _ P Q)), orb_assoc.
    f_equal; [f_equal|]; unfold some_vertex_on_edge, some_edge_pair;
      apply existsb_ext_in; intros i _; apply existsb_ext_in; intros j _;
      (apply segmentContains_eq || apply collinear_overlap_eq).
  - unfold C_enclosed, Cpp_enclosed, all_vertices_inside.
    f_equal; apply forallb_ext_in; intros i _; apply polygonContains_eq.
Qed.

End Equivalence.

(** ** What the classifier detects, as propositions *)

Section Detected.
Context {A : Arith}.

(** The segments [e1] and [e2] meet in a point that is none of their four
    endpoints within [EPSILON]. *)
Definition C_crosses_inside (e1 e2 : LineSegment) : Prop :=
  exists r, C.segmentIntersection e1 e2 = Some r
    /\ C.pointsEqual r (p1 e1) = false /\ C.pointsEqual r (p2 e1) = false
    /\ C.pointsEqual r (p1 e2) = false /\ C.pointsEqual r (p2 e2) = false.

Definition Cpp_crosses_inside (e1 e2 : LineSegment) : Prop :=
  exists r, Cpp.LineSegment_intersection e1 e2 = Some r
    /\ Cpp.Point_eq (p1 e1) r = false /\ Cpp.Point_eq (p2 e1) r = false
    /\ Cpp.Point_eq (p1 e2) r = false /\ Cpp.Point_eq (p2 e2) r = false.

(** Some edge of [P] and some edge of [Q] are related by [R]. *)
Definition edges_related (R : LineSegment -> LineSegment -> Prop) (P Q : Polygon) : Prop :=
  exists i j, i < size P /\ j < size Q /\ R (edge_of P i) (edge_of Q j).

(** Some vertex of [Q] lies on some edge of [P]. *)
Definition vertex_on_edge (on_edge : LineSegment -> Point -> bool) (P Q : Polygon) : Prop :=
  exists i j, i < size P /\ j < size Q /\ on_edge (edge_of P i) (vertex Q j) = true.

(** The bounding intervals of [e1] and [e2] along one axis overlap: an end
    of one lies between the ends of the other. *)
Definition C_axis_overlap (coord : Point -> dbl) (e1 e2 : LineSegment) : bool :=
  C.isBetween (coord (p1 e1)) (coord (p2 e1)) (coord (p1 e2)) ||
  C.isBetween (coord (p1 e1)) (coord (p2 e1)) (coord (p2 e2)) ||
  C.isBetween (coord (p1 e2)) (coord (p2 e2)) (coord (p1 e1)) ||
  C.isBetween (coord (p1 e2)) (coord (p2 e2)) (coord (p2 e1)).

Definition Cpp_axis_overlap (coord : Point -> dbl) (e1 e2 : LineSegment) : bool :=
  Cpp.isBetween (coord (p1 e1)) (coord (p2 e1)) (coord (p1 e2)) ||
  Cpp.isBetween (coord (p1 e1)) (coord (p2 e1)) (coord (p2 e2)) ||
  Cpp.isBetween (coord (p1 e2)) (coord (p2 e2)) (coord (p1 e1)) ||
  Cpp.isBetween (coord (p1 e2)) (coord (p2 e2)) (coord (p2 e1)).

(** Both ends of [e2] are within [EPSILON] on the line through [e1], and
    the two segments overlap on each axis. *)
Definition C_collinear_overlap (e1 e2 : LineSegment) : Prop :=
  C.lineContains (C.createLine (p1 e1) (p2 e1)) (p1 e2) = true
  /\ C.lineContains (C.createLine (p1 e1) (p2 e1)) (p2 e2) = true
  /\ C_axis_overlap x e1 e2 = true /\ C_axis_overlap y e1 e2 = true.

Definition Cpp_collinear_overlap (e1 e2 : LineSegment) : Prop :=
  Cpp.Line_contains (Cpp.Line_new (p1 e1) (p2 e1)) (p1 e2) = true
  /\ Cpp.Line_contains (Cpp.Line_new (p1 e1) (p2 e1)) (p2 e2) = true
  /\ Cpp_axis_overlap x e1 e2 = true /\ Cpp_axis_overlap y e1 e2 = true.

(** Boundary contact of [P] and [Q], as the classifier looks for it. *)
Definition C_contact (P Q : Polygon) : Prop :=
  vertex_on_edge C.segmentContains P Q
  \/ vertex_on_edge C.segmentContains Q P
  \/ edges_related C_collinear_overlap P Q.

Definition Cpp_contact (P Q : Polygon) : Prop :=
  vertex_on_edge Cpp.LineSegment_contains P Q
  \/ vertex_on_edge Cpp.LineSegment_contains Q P
  \/ edges_related Cpp_collinear_overlap P Q.

(** Every vertex of [P] passes the point-in-polygon test of [Q]. *)
Definition vertices_inside (inside : Polygon -> Point -> bool) (P Q : Polygon) : Prop :=
  forall i, i < size P -> inside Q (vertex P i) = true.

Lemma some_edge_pair_iff (test : LineSegment -> LineSegment -> bool) (P Q : Polygon) :
  some_edge_pair test P Q = true
  <-> edges_related (fun e1 e2 => test e1 e2 = true) P Q.
Proof.
  unfold some_edge_pair, edges_related, indices. rewrite existsb_exists. split.
  - intros (i & Hi & H). apply existsb_exists in H as (j & Hj & H).
    apply in_seq in Hi, Hj. exists i, j. repeat split; [lia | lia | exact H].
  - intros (i & j & Hi & Hj & H). exists i. split; [apply in_seq; lia|].
    apply existsb_exists. exists j. split; [apply in_seq; lia | exact H].
Qed.

Lemma some_vertex_on_edge_iff (on_edge : LineSegment -> Point -> bool) (P Q : Polygon) :
  some_vertex_on_edge on_edge P Q = true <-> vertex_on_edge on_edge P Q.
Proof.
  unfold some_vertex_on_edge, vertex_on_edge, indices. rewrite existsb_exists. split.
  - intros (i & Hi & H). apply existsb_exists in H as (j & Hj & H).
    apply in_seq in Hi, Hj. exists i, j. repeat split; [lia | lia | exact H].
  - intros (i & j & Hi & Hj & H). exists i. split; [apply in_seq; lia|].
    apply existsb_exists. exists j. split; [apply in_seq; lia | exact H].
Qed.

Lemma all_vertices_inside_iff (inside : Polygon -> Point -> bool) (P Q : Polygon) :
  all_vertices_inside inside P Q = true <-> vertices_inside inside P Q.
Proof.
  unfold all_vertices_inside, vertices_inside, indices. rewrite forallb_forall. split.
  - intros H i Hi. apply H, in_seq. lia.
  - intros H i Hi. apply H. apply in_seq in Hi. lia.
Qed.

Lemma edges_related_ext (R R' : LineSegment -> LineSegment -> Prop) (P Q : Polygon) :
  (forall e1 e2, R e1 e2 <-> R' e1 e2) -> edges_related R P Q <-> edges_related R' P Q.
Proof.
  intros E. unfold edges_related.
  split; intros (i & j & Hi & Hj & H); exists i, j; repeat split; try assumption;
    now apply E.
Qed.

Lemma C_crossesInside_iff (e1 e2 : LineSegment) :
  C.crossesInside e1 e2 = true <-> C_crosses_inside e1 e2.
Proof.
  unfold C.crossesInside, C_crosses_inside. split.
  - destruct (C.segmentIntersection e1 e2) as [r|]; [|discriminate].
    rewrite !andb_true_iff, !negb_true_iff. intros [[[H1 H2] H3] H4].
    exists r. auto.
  - intros (r & -> & H1 & H2 & H3 & H4). now rewrite H1, H2, H3, H4.
Qed.

Lemma Cpp_crossesInside_iff (e1 e2 : LineSegment) :
  Cpp.crossesInside e1 e2 = true <-> Cpp_crosses_inside e1 e2.
Proof.
  unfold Cpp.crossesInside, Cpp_crosses_inside. split.
  - destruct (Cpp.LineSegment_intersection e1 e2) as [r|]; [|discriminate].
    rewrite !andb_true_iff, !negb_true_iff. intros [[[H1 H2] H3] H4].
    exists r. auto.
  - intros (r & -> & H1 & H2 & H3 & H4). now rewrite H1, H2, H3, H4.
Qed.

Lemma C_collinear_overlap_iff (e1 e2 : LineSegment) :
  C.areCollinear e1 e2 && C.edgesOverlap e1 e2 = true <-> C_collinear_overlap e1 e2.
Proof.
  unfold C.areCollinear, C.edgesOverlap, C_collinear_overlap, C_axis_overlap.
  rewrite !andb_true_iff. tauto.
Qed.

Lemma Cpp_collinear_overlap_iff (e1 e2 : LineSegment) :
  Cpp.areCollinear e1 e2 && Cpp.edgesOverlap e1 e2 = true <-> Cpp_collinear_overlap e1 e2.
Proof.
  unfold Cpp.areCollinear, Cpp.edgesOverlap, Cpp_collinear_overlap, Cpp_axis_overlap.
  rewrite !andb_true_iff. tauto.
Qed.

Lemma C_intersecting_iff (P Q : Polygon) :
  C_intersecting P Q = true <-> edges_related C_crosses_inside P Q.
Proof.
  unfold C_intersecting. rewrite some_edge_pair_iff.
  apply edges_related_ext. intros; apply C_crossesInside_iff.
Qed.

Lemma Cpp_intersecting_iff (P Q : Polygon) :
  Cpp_intersecting P Q = true <-> edges_related Cpp_crosses_inside P Q.
Proof.
  unfold Cpp_intersecting. rewrite some_edge_pair_iff.
  apply edges_related_ext. intros; apply Cpp_crossesInside_iff.
Qed.

Lemma C_touching_iff (P Q : Polygon) : C_touching P Q = true <-> C_contact P Q.
Proof.
  unfold C_touching, C_contact.
  rewrite !orb_true_iff, !some_vertex_on_edge_iff, some_edge_pair_iff.
  rewrite (edges_related_ext _ C_collinear_overlap P Q C_collinear_overlap_iff).
  tauto.
Qed.

Lemma Cpp_touching_iff (P Q : Polygon) : Cpp_touching P Q = true <-> Cpp_contact P Q.
Proof.
  unfold Cpp_touching, Cpp_contact.
  rewrite !orb_true_iff, !some_vertex_on_edge_iff, some_edge_pair_iff.
  rewrite (edges_related_ext _ Cpp_collinear_overlap P Q Cpp_collinear_overlap_iff).
  tauto.
Qed.

Lemma C_enclosed_iff (P Q : Polygon) :
  C_enclosed P Q = true
  <-> vertices_inside C.polygonContains P Q \/ vertices_inside C.polygonContains Q P.
Proof. unfold C_enclosed. now rewrite orb_true_iff, !all_vertices_inside_iff. Qed.

Lemma Cpp_enclosed_iff (P Q : Polygon) :
  Cpp_enclosed P Q = true
  <-> vertices_inside Cpp.Polygon_contains P Q \/ vertices_inside Cpp.Polygon_contains Q P.
Proof. unfold Cpp_enclosed. now rewrite orb_true_iff, !all_vertices_inside_iff. Qed.

(** The four labels, told apart. *)
Lemma label_cases (i t e : bool) :
  (label i t e = "Intersecting"%string <-> i = true)
  /\ (label i t e = "Touching"%string <-> i = false /\ t = true)
  /\ (label i t e = "Disjoint (Enclosed)"%string <-> i = false /\ t = false /\ e = true)
  /\ (label i t e = "Disjoint (Outside)"%string <-> i = false /\ t = false /\ e = false).
Proof.
  destruct i, t, e; cbn [label]; repeat split; intros; try discriminate;
    repeat match goal with H : _ /\ _ |- _ => destruct H end;
    try discriminate; reflexivity.
Qed.

Lemma not_true_iff (v : bool) (R : Prop) : (v = true <-> R) -> (v = false <-> ~ R).
Proof.
  intros [H1 H2]. destruct v; split; intros H.
  - discriminate.
  - exfalso. apply H. now apply H1.
  - intros HR. specialize (H2 HR). discriminate.
  - reflexivity.
Qed.

End Detected.

Arguments not_true_iff {v R} _.

(** ** Example polygons, on binary64 *)

Definition point (u v : float) : @Point binary64 := mkPoint u v.

Definition polygon_of (l : list (float * float)) : @Polygon binary64 :=
  mkPolygon (map (fun q => @mkPoint binary64 (fst q) (snd q)) l).

(** The square of [main] in both programs. *)
Definition square8 : @Polygon binary64 :=
  polygon_of [(4, 4); (4, -4); (-4, -4); (-4, 4)]%float.

Definition square2 : @Polygon binary64 :=
  polygon_of [(1, 1); (1, -1); (-1, -1); (-1, 1)]%float.

Definition square_far : @Polygon binary64 :=
  polygon_of [(11, 1); (11, -1); (9, -1); (9, 1)]%float.

(** ** The classifier's four answers *)

Section Classification.
Context {A : Arith}.

(** C1. [classify] answers Intersecting exactly when some edge of the first
    polygon and some edge of the second have a segment intersection point
    that equals none of the four endpoints within EPSILON; no other label
    is considered before this one.  Both programs. *)
Theorem classify_intersecting_iff (P Q : Polygon) :
  (C.classifyPolygons P Q = "Intersecting"%string
     <-> edges_related C_crosses_inside P Q)
  /\ (Cpp.Polygon_classify P Q = "Intersecting"%string
     <-> edges_related Cpp_crosses_inside P Q).
Proof.
  split.
  - rewrite C_classify_eq, <- C_intersecting_iff. apply label_cases.
  - rewrite Cpp_classify_eq, <- Cpp_intersecting_iff. apply label_cases.
Qed.

(** C2, as the programs have it.  [classify] answers Touching exactly
    when no edge pair crosses inside, and a vertex of one polygon passes
    [segmentContains] on an edge of the other, or an edge of the second
    polygon has both ends within EPSILON on the line of an edge of the
    first while the two edges overlap on the x axis and on the y axis.  The
    line is always that of the first polygon's edge; ends of an edge of
    the first on the line of an edge of the second do not count.  Both
    programs. *)
Theorem classify_touching_iff (P Q : Polygon) :
  (C.classifyPolygons P Q = "Touching"%string
     <-> ~ edges_related C_crosses_inside P Q /\ C_contact P Q)
  /\ (Cpp.Polygon_classify P Q = "Touching"%string
     <-> ~ edges_related Cpp_crosses_inside P Q /\ Cpp_contact P Q).
Proof.
  split.
  - rewrite C_classify_eq, <- C_touching_iff.
    rewrite <- (not_true_iff (C_intersecting_iff P Q)). apply label_cases.
  - rewrite Cpp_classify_eq, <- Cpp_touching_iff.
    rewrite <- (not_true_iff (Cpp_intersecting_iff P Q)). apply label_cases.
Qed.

(** C3. When [classify] detects neither a crossing inside two edges nor
    boundary contact, it answers Disjoint (Enclosed) if every vertex of one
    polygon passes the point-in-polygon test of the other, and Disjoint
    (Outside) otherwise.  Both programs. *)
Theorem classify_disjoint (P Q : Polygon) :
  (~ edges_related C_crosses_inside P Q -> ~ C_contact P Q ->
     let enclosed := vertices_inside C.polygonContains P Q
                     \/ vertices_inside C.polygonContains Q P in
     (enclosed -> C.classifyPolygons P Q = "Disjoint (Enclosed)"%string)
     /\ (~ enclosed -> C.classifyPolygons P Q = "Disjoint (Outside)"%string))
  /\ (~ edges_related Cpp_crosses_inside P Q -> ~ Cpp_contact P Q ->
     let enclosed := vertices_inside Cpp.Polygon_contains P Q
                     \/ vertices_inside Cpp.Polygon_contains Q P in
     (enclosed -> Cpp.Polygon_classify P Q = "Disjoint (Enclosed)"%string)
     /\ (~ enclosed -> Cpp.Polygon_classify P Q = "Disjoint (Outside)"%string)).
Proof.
  split; intros Hi Ht enclosed; subst enclosed.
  - apply (not_true_iff (C_intersecting_iff P Q)) in Hi.
    apply (not_true_iff (C_touching_iff P Q)) in Ht.
    rewrite C_classify_eq, Hi, Ht. split; intros He.
    + apply C_enclosed_iff in He. now rewrite He.
    + apply (not_true_iff (C_enclosed_iff P Q)) in He. now rewrite He.
  - apply (not_true_iff (Cpp_intersecting_iff P Q)) in Hi.
    apply (not_true_iff (Cpp_touching_iff P Q)) in Ht.
    rewrite Cpp_classify_eq, Hi, Ht. split; intros He.
    + apply Cpp_enclosed_iff in He. now rewrite He.
    + apply (not_true_iff (Cpp_enclosed_iff P Q)) in He. now rewrite He.
Qed.

End Classification.

Lemma classify_disjoint_witness :
  C.classifyPolygons square8 square2 = "Disjoint (Enclosed)"%string
  /\ C.classifyPolygons square8 square_far = "Disjoint (Outside)"%string
  /\ Cpp.Polygon_classify square8 square2 = "Disjoint (Enclosed)"%string
  /\ Cpp.Polygon_classify square8 square_far = "Disjoint (Outside)"%string.
Proof.
  split; [|split; [|split]].
  - apply (proj1 (classify_disjoint square8 square2)).
    + apply (not_true_iff (C_intersecting_iff _ _)). vm_compute. reflexivity.
    + apply (not_true_iff (C_touching_iff _ _)). vm_compute. reflexivity.
    + apply C_enclosed_iff. vm_compute. reflexivity.
  - apply (proj1 (classify_disjoint square8 square_far)).
    + apply (not_true_iff (C_intersecting_iff _ _)). vm_compute. reflexivity.
    + apply (not_true_iff (C_touching_iff _ _)). vm_compute. reflexivity.
    + apply (not_true_iff (C_enclosed_iff _ _)). vm_compute. reflexivity.
  - apply (proj2 (classify_disjoint square8 square2)).
    + apply (not_true_iff (Cpp_intersecting_iff _ _)). vm_compute. reflexivity.
    + apply (not_true_iff (Cpp_touching_iff _ _)). vm_compute. reflexivity.
    + apply Cpp_enclosed_iff. vm_compute. reflexivity.
  - apply (proj2 (classify_disjoint square8 square_far)).
    + apply (not_true_iff (Cpp_intersecting_iff _ _)). vm_compute. reflexivity.
    + apply (not_true_iff (Cpp_touching_iff _ _)). vm_compute. reflexivity.
    + apply (not_true_iff (Cpp_enclosed_iff _ _)). vm_compute. reflexivity.
Defined.

(** ** The point-in-polygon test *)

Section Containment.
Context {A : Arith}.

(** The loop never answers [false] from inside: both [return]s are
    [return true]. *)
Lemma C_body_returns_true (P : Polygon) (p : Point) (i : nat) (r : bool) :
  C.polygonContains_body P p i = C.Return r -> r = true.
Proof.
  unfold C.polygonContains_body.
  repeat match goal with
         | |- context [if ?cond then _ else _] => destruct cond
         end; intros H; inversion H; reflexivity.
Qed.

Lemma Cpp_body_returns_true (P : Polygon) (p : Point) (i : nat) (r : bool) :
  Cpp.contains_body P p i = Cpp.Return r -> r = true.
Proof.
  unfold Cpp.contains_body.
  repeat match goal with
         | |- context [if ?cond then _ else _] => destruct cond
         end; intros H; inversion H; reflexivity.
Qed.

Lemma C_loop_on_edge (P : Polygon) (p : Point) (idx : list nat) (count i : nat) :
  In i idx -> C.segmentContains (edge_of P i) p = true ->
  C.polygonContains_loop P p idx count = true.
Proof.
  intros Hi Hp. revert count.
  induction idx as [|j rest IH]; intros count; [contradiction|].
  cbn [C.polygonContains_loop].
  destruct (C.polygonContains_body P p j) as [r|hit] eqn:E.
  - eapply C_body_returns_true; exact E.
  - destruct Hi as [->|Hi]; [|now apply IH].
    unfold C.polygonContains_body in E. fold (edge_of P i) in E.
    rewrite Hp in E. discriminate.
Qed.

Lemma Cpp_loop_on_edge (P : Polygon) (p : Point) (idx : list nat) (count i : nat) :
  In i idx -> Cpp.LineSegment_contains (edge_of P i) p = true ->
  Cpp.contains_loop P p idx count = true.
Proof.
  intros Hi Hp. revert count.
  induction idx as [|j rest IH]; intros count; [contradiction|].
  cbn [Cpp.contains_loop].
  destruct (Cpp.contains_body P p j) as [r|hit] eqn:E.
  - eapply Cpp_body_returns_true; exact E.
  - destruct Hi as [->|Hi]; [|now apply IH].
    unfold Cpp.contains_body in E. fold (edge_of P i) in E.
    rewrite Hp in E. discriminate.
Qed.

(** C5, as the programs have it.  A point that passes [segmentContains]
    on some edge of [P], the programs' test for lying on it, passes the
    point-in-polygon test of [P], whatever the edges before that one did to
    the crossing count.  Both programs. *)
Theorem polygon_contains_boundary (P : Polygon) (p : Point) (i : nat) :
  i < size P ->
  (C.segmentContains (edge_of P i) p = true -> C.polygonContains P p = true)
  /\ (Cpp.LineSegment_contains (edge_of P i) p = true -> Cpp.Polygon_contains P p = true).
Proof.
  intros Hi.
  assert (In i (seq 0 (size P))) by (apply in_seq; lia).
  split; intros Hp.
  - unfold C.polygonContains. now apply C_loop_on_edge with i.
  - unfold Cpp.Polygon_contains. now apply Cpp_loop_on_edge with i.
Qed.

End Containment.

Lemma polygon_contains_boundary_witness :
  C.polygonContains square8 (point (-4) 0) = true
  /\ Cpp.Polygon_contains square8 (point (-4) 0) = true.
Proof.
  assert (Hi : 2 < size square8) by (vm_compute; lia).
  destruct (polygon_contains_boundary square8 (point (-4) 0) 2 Hi) as [H1 H2].
  split; [apply H1 | apply H2]; vm_compute; reflexivity.
Defined.

(** ** Line intersection *)

Section Lines.
Local Open Scope float_scope.

(** C6. With determinant = a1*b2 - a2*b1: when the determinant is within
    EPSILON of zero, [lineIntersection] reports no point (a negative result,
    nothing is raised); otherwise it returns exactly the point
    ((b1*c2 - b2*c1) / determinant, (a2*c1 - a1*c2) / determinant).  Both
    programs, on binary64. *)
Theorem line_intersection_cases (line1 line2 : @Line binary64) :
  let determinant := a line1 * b line2 - a line2 * b line1 in
  let solved := {| x := (b line1 * c line2 - b line2 * c line1) / determinant;
                   y := (a line2 * c line1 - a line1 * c line2) / determinant |} in
  C.lineIntersection line1 line2
    = (if abs determinant <? EPSILON then None else Some solved)
  /\ Cpp.Line_intersection line1 line2
    = (if abs determinant <? EPSILON then None else Some solved).
Proof.
  intros determinant solved.
  unfold C.lineIntersection, Cpp.Line_intersection, C.areEqual, Cpp.areEqual.
  cbn [dsub dmul ddiv dltb fabs dzero binary64].
  fold determinant. rewrite (sub_zero_r determinant).
  split; reflexivity.
Qed.

End Lines.

(** ** The division sites of [polygon.c]

    [lineIntersection] and [polygonContains] once more, each returning, with
    its result, the denominators of the divisions it performed, in order. *)

Section Divisions.
Context {A : Arith}.
Local Open Scope dbl_scope.

Definition traced (T : Type) : Type := (T * list dbl)%type.

Definition div_traced (u v : dbl) : traced dbl := (u / v, [v]).

Definition lineIntersection_traced (line1 line2 : Line) : traced (option Point) :=
  let determinant := a line1 * b line2 - a line2 * b line1 in
  if C.areEqual determinant dzero then (None, [])
  else
    let (rx, dx) := div_traced (b line1 * c line2 - b line2 * c line1) determinant in
    let (ry, dy) := div_traced (a line2 * c line1 - a line1 * c line2) determinant in
    (Some {| x := rx; y := ry |}, dx ++ dy).

Definition polygonContains_body_traced (poly : Polygon) (p : Point) (i : nat) : traced C.turn :=
  let v1 := vertex poly i in
  let v2 := vertex poly ((i + 1) mod size poly) in
  let edge := {| p1 := v1; p2 := v2 |} in
  if C.segmentContains edge p then (C.Return true, [])
  else if C.areEqual (y v1) (y v2) then (C.Continue false, [])
  else if (y p <? fmin (y v1) (y v2)) || (y p >? fmax (y v1) (y v2)) then (C.Continue false, [])
  else
    let (q, d) := div_traced ((y p - y v1) * (x v2 - x v1)) (y v2 - y v1) in
    let xIntersect := q + x v1 in
    (if C.areEqual xIntersect (x p) then C.Return true
     else C.Continue (xIntersect >? x p), d).

Fixpoint polygonContains_loop_traced (poly : Polygon) (p : Point) (idx : list nat)
    (count : nat) : traced bool :=
  match idx with
  | [] => ((count mod 2 =? 1)%nat, [])
  | i :: rest =>
      let (t, d) := polygonContains_body_traced poly p i in
      match t with
      | C.Return r => (r, d)
      | C.Continue hit =>
          let (r, ds) := polygonContains_loop_traced poly p rest (if hit then S count else count) in
          (r, d ++ ds)
      end
  end.

Definition polygonContains_traced (poly : Polygon) (p : Point) : traced bool :=
  polygonContains_loop_traced poly p (seq 0 (size poly)) 0.

(** The traced functions compute what the plain ones do. *)
Lemma lineIntersection_traced_fst (line1 line2 : Line) :
  fst (lineIntersection_traced line1 line2) = C.lineIntersection line1 line2.
Proof.
  unfold lineIntersection_traced, C.lineIntersection, div_traced.
  now destruct (C.areEqual _ dzero).
Qed.

Lemma polygonContains_body_traced_fst (poly : Polygon) (p : Point) (i : nat) :
  fst (polygonContains_body_traced poly p i) = C.polygonContains_body poly p i.
Proof.
  unfold polygonContains_body_traced, C.polygonContains_body, div_traced.
  repeat match goal with
         | |- context [if ?cond then _ else _] => destruct cond
         end; reflexivity.
Qed.

Lemma polygonContains_loop_traced_fst (poly : Polygon) (p : Point) (idx : list nat)
    (count : nat) :
  fst (polygonContains_loop_traced poly p idx count) = C.polygonContains_loop poly p idx count.
Proof.
  revert count. induction idx as [|i rest IH]; intros count.
  - reflexivity.
  - cbn [polygonContains_loop_traced C.polygonContains_loop].
    rewrite <- polygonContains_body_traced_fst.
    destruct (polygonContains_body_traced poly p i) as [[r|hit] d]; cbn [fst].
    + reflexivity.
    + rewrite <- IH.
      now destruct (polygonContains_loop_traced poly p rest _).
Qed.

Lemma polygonContains_traced_fst (poly : Polygon) (p : Point) :
  fst (polygonContains_traced poly p) = C.polygonContains poly p.
Proof. apply polygonContains_loop_traced_fst. Qed.

(** Every denominator of a division was let through by a test. *)
Lemma lineIntersection_denominators (line1 line2 : Line) :
  Forall (fun d => C.areEqual d dzero = false) (snd (lineIntersection_traced line1 line2)).
Proof.
  unfold lineIntersection_traced, div_traced.
  destruct (C.areEqual _ dzero) eqn:E; cbn [snd app]; auto.
Qed.

Lemma polygonContains_loop_denominators (poly : Polygon) (p : Point) (idx : list nat)
    (count : nat) :
  Forall (fun d => exists v1 v2, d = v2 - v1 /\ C.areEqual v1 v2 = false)
         (snd (polygonContains_loop_traced poly p idx count)).
Proof.
  revert count. induction idx as [|i rest IH]; intros count.
  - constructor.
  - cbn [polygonContains_loop_traced].
    assert (Hb : Forall (fun d => exists v1 v2, d = v2 - v1 /\ C.areEqual v1 v2 = false)
                        (snd (polygonContains_body_traced poly p i))).
    { unfold polygonContains_body_traced, div_traced.
      destruct (C.segmentContains _ p); [constructor|].
      destruct (C.areEqual (y (vertex poly i)) _) eqn:E; [constructor|].
      destruct (_ || _); [constructor|].
      cbn [snd]. constructor; [|constructor]. eauto. }
    destruct (polygonContains_body_traced poly p i) as [[r|hit] d]; cbn [snd] in *.
    + exact Hb.
    + specialize (IH (if hit then S count else count)).
      destruct (polygonContains_loop_traced poly p rest _) as [r ds]. cbn [snd] in *.
      apply Forall_app. now split.
Qed.

Lemma polygonContains_denominators (poly : Polygon) (p : Point) :
  Forall (fun d => exists v1 v2, d = v2 - v1 /\ C.areEqual v1 v2 = false)
         (snd (polygonContains_traced poly p)).
Proof. apply polygonContains_loop_denominators. Qed.

End Divisions.

Section DivisionsBinary64.
Local Open Scope float_scope.

(** What the tests of [polygon.c] establish about a denominator [d]: it is
    not within EPSILON of zero, and unless it is NaN its magnitude is at
    least EPSILON. *)
Definition guarded (d : float) : Prop :=
  (abs d <? EPSILON) = false /\ (is_nan d = false -> (EPSILON <=? abs d) = true).

Lemma not_near_zero_guarded (d : float) : (abs d <? EPSILON) = false -> guarded d.
Proof.
  intros H. split; [exact H|]. intros N.
  apply ltb_false_leb; [now rewrite abs_nan | reflexivity | exact H].
Qed.

(** C7, as the programs have it.  Each division of [polygon.c] comes after
    its test: [lineIntersection] divides by the determinant only after
    [areEqual(determinant, 0)] failed, the ray cast divides by
    [v2.y - v1.y] only after [areEqual(v1.y, v2.y)] failed.  So no
    denominator is within EPSILON of zero, and every denominator that is a
    number has magnitude at least EPSILON. *)
Theorem divisions_guarded :
  (forall line1 line2 : @Line binary64,
     Forall guarded (snd (lineIntersection_traced line1 line2)))
  /\ (forall (poly : @Polygon binary64) (p : Point),
     Forall guarded (snd (polygonContains_traced poly p))).
Proof.
  split.
  - intros line1 line2.
    pose proof (lineIntersection_denominators line1 line2) as D.
    revert D. apply Forall_impl.
    intros d H. apply not_near_zero_guarded.
    unfold C.areEqual in H. cbn [dsub dltb fabs dzero binary64] in H.
    now rewrite sub_zero_r in H.
  - intros poly p.
    pose proof (polygonContains_denominators poly p) as D.
    revert D. apply Forall_impl.
    intros d (v1 & v2 & -> & H). apply not_near_zero_guarded.
    unfold C.areEqual in H. cbn [dsub dltb fabs binary64] in H |- *.
    now rewrite abs_sub_sym.
Qed.

(** Two edges out of the origin, with finite ends. *)
Definition steep1 : @Line binary64 :=
  C.createLine (point 0 0) (point (-0x1p+600) 0x1p+600).
Definition steep2 : @Line binary64 :=
  C.createLine (point 0 0) (point (-0x1p+601) 0x1p+600).

(** C7 as stated fails: the two products of the determinant overflow, the
    determinant is NaN, the test lets NaN through, both divisions divide by
    NaN and the point returned is (NaN, NaN). *)
Lemma divisions_nan_counterexample :
  lineIntersection_traced steep1 steep2 = (Some (point nan nan), [nan; nan])
  /\ (EPSILON <=? abs nan) = false
  /\ C.lineIntersection steep1 steep2 = Some (point nan nan).
Proof. split; [|split]; vm_compute; reflexivity. Qed.

End DivisionsBinary64.

(** ** binary64: swapping the two segments of an intersection *)

Section SignedZero.

Definition sf_zero (u : spec_float) : bool :=
  match u with S754_zero _ => true | _ => false end.

(** The same value, but for the sign of a zero. *)
Definition zrel (s t : spec_float) : Prop :=
  s = t \/ (sf_zero s = true /\ sf_zero t = true).

(** Opposite values; the difference of equal numbers is +0 both ways. *)
Definition oprel (s t : spec_float) : Prop :=
  t = SFopp s \/ (s = S754_zero false /\ t = S754_zero false).

Lemma zrel_refl (s : spec_float) : zrel s s.
Proof. now left. Qed.

Lemma SFopp_involutive (s : spec_float) : SFopp (SFopp s) = s.
Proof. destruct s as [[]|[]| |[] m e]; reflexivity. Qed.

Lemma binary_round_aux_opp (s : bool) (m e : Z) (l : location) :
  binary_round_aux prec emax (negb s) m e l = SFopp (binary_round_aux prec emax s m e l).
Proof.
  unfold binary_round_aux.
  destruct (shr_fexp prec emax m e l) as [mrs' e'].
  destruct (shr_fexp prec emax _ e' loc_Exact) as [mrs'' e''].
  destruct (shr_m mrs''); try reflexivity.
  destruct (Z.leb e'' (Z.sub emax prec)); reflexivity.
Qed.

Lemma binary_normalize_opp (m e : Z) :
  m <> 0%Z ->
  binary_normalize prec emax (- m) e false = SFopp (binary_normalize prec emax m e false).
Proof.
  destruct m as [|p|p]; [congruence| |]; intros _; simpl; unfold binary_round;
    destruct (shl_align p e _) as [mz ez].
  - apply (binary_round_aux_opp false).
  - change true with (negb false).
    now rewrite (binary_round_aux_opp false), SFopp_involutive.
Qed.

Lemma SFsub_swap (u v : spec_float) : oprel (SF64sub u v) (SF64sub v u).
Proof.
  destruct u as [[]|[]| |su mu eu], v as [[]|[]| |sv mv ev];
    try (left; reflexivity); try (right; split; reflexivity);
    try (destruct sv; left; reflexivity).
  unfold SF64sub, SFsub. rewrite (Z.min_comm ev eu).
  set (X := cond_Zopp su (Zpos (fst (shl_align mu eu (Z.min eu ev))))).
  set (Y := cond_Zopp sv (Zpos (fst (shl_align mv ev (Z.min eu ev))))).
  destruct (Z.eq_dec (X - Y) 0) as [E|E].
  - right. replace (Y - X)%Z with 0%Z by lia. rewrite E. split; reflexivity.
  - left. replace (Y - X)%Z with (- (X - Y))%Z by lia.
    now apply binary_normalize_opp.
Qed.

Lemma SFdiv_opp_opp (n d : spec_float) :
  SF64div (SFopp n) (SFopp d) = SF64div n d.
Proof.
  destruct n as [[]|[]| |[] mn en], d as [[]|[]| |[] md ed]; reflexivity.
Qed.

Lemma SFdiv_zero_opp (d : spec_float) :
  zrel (SF64div (S754_zero false) d) (SF64div (S754_zero false) (SFopp d)).
Proof.
  destruct d as [[]|[]| |[] md ed]; simpl;
    try (left; reflexivity); right; split; reflexivity.
Qed.

Ltac zrel_cases :=
  simpl; try (left; reflexivity); try (right; split; reflexivity).

Lemma SFmul_zrel (u v v' : spec_float) :
  zrel v v' -> zrel (SF64mul u v) (SF64mul u v').
Proof.
  intros [->|[Z Z']]; [apply zrel_refl|].
  destruct v as [sv| | |]; try discriminate. destruct v' as [sv'| | |]; try discriminate.
  destruct u as [[]|[]| |[] mu eu], sv, sv'; zrel_cases.
Qed.

Lemma SFadd_zrel (u u' v v' : spec_float) :
  zrel u u' -> zrel v v' -> zrel (SF64add u v) (SF64add u' v').
Proof.
  intros [->|[Zu Zu']] [->|[Zv Zv']]; [apply zrel_refl| | |].
  - destruct v as [sv| | |]; try discriminate. destruct v' as [sv'| | |]; try discriminate.
    destruct u' as [[]|[]| |[] mu eu], sv, sv'; zrel_cases.
  - destruct u as [su| | |]; try discriminate. destruct u' as [su'| | |]; try discriminate.
    destruct v' as [[]|[]| |[] mv ev], su, su'; zrel_cases.
  - destruct u as [su| | |]; try discriminate. destruct u' as [su'| | |]; try discriminate.
    destruct v as [sv| | |]; try discriminate. destruct v' as [sv'| | |]; try discriminate.
    destruct su, su', sv, sv'; zrel_cases.
Qed.

Lemma SFsub_zrel_l (u u' v : spec_float) :
  zrel u u' -> zrel (SF64sub u v) (SF64sub u' v).
Proof.
  intros [->|[Zu Zu']]; [apply zrel_refl|].
  destruct u as [su| | |]; try discriminate. destruct u' as [su'| | |]; try discriminate.
  destruct v as [[]|[]| |[] mv ev], su, su'; zrel_cases.
Qed.

Lemma SFabs_zrel (u u' : spec_float) : zrel u u' -> SFabs u = SFabs u'.
Proof.
  intros [->|[Zu Zu']]; [reflexivity|].
  destruct u; try discriminate. destruct u'; try discriminate. reflexivity.
Qed.

Lemma SFcompare_zrel_l (u u' w : spec_float) :
  zrel u u' -> SFcompare u w = SFcompare u' w.
Proof.
  intros [->|[Zu Zu']]; [reflexivity|].
  destruct u; try discriminate. destruct u'; try discriminate. now destruct w.
Qed.

Lemma SFcompare_zrel_r (u u' w : spec_float) :
  zrel u u' -> SFcompare w u = SFcompare w u'.
Proof.
  intros [->|[Zu Zu']]; [reflexivity|].
  destruct u; try discriminate. destruct u'; try discriminate. now destruct w.
Qed.

End SignedZero.

Section Swap.
Local Open Scope float_scope.

Definition fz (u v : float) : Prop := zrel (Prim2SF u) (Prim2SF v).

Lemma fz_refl (u : float) : fz u u.
Proof. apply zrel_refl. Qed.

Lemma mul_fz (u v v' : float) : fz v v' -> fz (u * v) (u * v').
Proof. unfold fz. rewrite !mul_spec. apply SFmul_zrel. Qed.

Lemma add_fz (u u' v v' : float) : fz u u' -> fz v v' -> fz (u + v) (u' + v').
Proof. unfold fz. rewrite !add_spec. apply SFadd_zrel. Qed.

Lemma sub_fz_l (u u' v : float) : fz u u' -> fz (u - v) (u' - v).
Proof. unfold fz. rewrite !sub_spec. apply SFsub_zrel_l. Qed.

Lemma abs_fz (u u' : float) : fz u u' -> abs u = abs u'.
Proof. intros H. apply Prim2SF_inj. rewrite !abs_spec. now apply SFabs_zrel. Qed.

Lemma leb_fz_l (u u' w : float) : fz u u' -> (u <=? w) = (u' <=? w).
Proof. intros H. rewrite !leb_spec. unfold SFleb. now rewrite (SFcompare_zrel_l _ _ _ H). Qed.

Lemma leb_fz_r (u u' w : float) : fz u u' -> (w <=? u) = (w <=? u').
Proof. intros H. rewrite !leb_spec. unfold SFleb. now rewrite (SFcompare_zrel_r _ _ _ H). Qed.

(** Dividing the swapped differences: the same quotient, but for the sign
    of a zero. *)
Lemma div_swap (p q m n : float) :
  (abs (m - n) <? EPSILON) = false ->
  fz ((p - q) / (m - n)) ((q - p) / (n - m)).
Proof.
  intros G. unfold fz. rewrite !div_spec, !sub_spec.
  destruct (SFsub_swap (Prim2SF m) (Prim2SF n)) as [->|[D D']].
  - destruct (SFsub_swap (Prim2SF p) (Prim2SF q)) as [->|[-> ->]].
    + left. now rewrite SFdiv_opp_opp.
    + apply SFdiv_zero_opp.
  - exfalso. rewrite ltb_spec, abs_spec, sub_spec, D in G. discriminate.
Qed.

Definition point_fz (r r' : @Point binary64) : Prop :=
  fz (x r) (x r') /\ fz (y r) (y r').

Lemma areEqual_fz_l (u u' v : float) :
  fz u u' -> @C.areEqual binary64 u v = @C.areEqual binary64 u' v.
Proof.
  intros H. unfold C.areEqual. cbn [dsub dltb fabs binary64].
  now rewrite (abs_fz _ _ (sub_fz_l _ _ v H)).
Qed.

Lemma lineContains_fz (line : @Line binary64) (r r' : Point) :
  point_fz r r' -> C.lineContains line r = C.lineContains line r'.
Proof.
  intros [Hx Hy]. unfold C.lineContains. apply areEqual_fz_l.
  cbn [dadd dmul binary64].
  apply add_fz; [apply add_fz; now apply mul_fz | apply fz_refl].
Qed.

Lemma segmentContains_fz (seg : @LineSegment binary64) (r r' : Point) :
  point_fz r r' -> C.segmentContains seg r = C.segmentContains seg r'.
Proof.
  intros H. unfold C.segmentContains. rewrite (lineContains_fz _ _ _ H).
  destruct H as [Hx Hy]. cbn [dleb binary64].
  rewrite (leb_fz_r _ _ _ Hx), (leb_fz_l _ _ _ Hx), (leb_fz_r _ _ _ Hy), (leb_fz_l _ _ _ Hy).
  reflexivity.
Qed.

Lemma pointsEqual_fz (r r' q : @Point binary64) :
  point_fz r r' -> C.pointsEqual r q = C.pointsEqual r' q.
Proof.
  intros [Hx Hy]. unfold C.pointsEqual.
  now rewrite (areEqual_fz_l _ _ _ Hx), (areEqual_fz_l _ _ _ Hy).
Qed.

Definition same_answer (o o' : option (@Point binary64)) : Prop :=
  match o, o' with
  | Some r, Some r' => point_fz r r'
  | None, None => True
  | _, _ => False
  end.

Lemma lineIntersection_swap (line1 line2 : @Line binary64) :
  same_answer (C.lineIntersection line1 line2) (C.lineIntersection line2 line1).
Proof.
  unfold C.lineIntersection, C.areEqual. cbn [dsub dmul ddiv dltb fabs dzero binary64].
  rewrite !sub_zero_r, (abs_sub_sym (a line2 * b line1)).
  destruct (abs (a line1 * b line2 - a line2 * b line1) <? @EPSILON binary64) eqn:G.
  - exact I.
  - split; cbn [x y]; now apply div_swap.
Qed.

Lemma segmentIntersection_swap (seg1 seg2 : @LineSegment binary64) :
  same_answer (C.segmentIntersection seg1 seg2) (C.segmentIntersection seg2 seg1).
Proof.
  unfold C.segmentIntersection.
  pose proof (lineIntersection_swap (C.createLine (p1 seg1) (p2 seg1))
                                    (C.createLine (p1 seg2) (p2 seg2))) as H.
  destruct (C.lineIntersection (C.createLine (p1 seg1) (p2 seg1)) _) as [r|],
           (C.lineIntersection (C.createLine (p1 seg2) (p2 seg2)) _) as [r'|];
    try contradiction; [|exact I].
  cbn [same_answer] in H.
  rewrite (segmentContains_fz seg1 _ _ H), (segmentContains_fz seg2 _ _ H).
  rewrite (andb_comm (C.segmentContains seg1 r')).
  destruct (_ && _); [exact H | exact I].
Qed.

Lemma crossesInside_swap (e1 e2 : @LineSegment binary64) :
  C.crossesInside e1 e2 = C.crossesInside e2 e1.
Proof.
  unfold C.crossesInside.
  pose proof (segmentIntersection_swap e1 e2) as H.
  destruct (C.segmentIntersection e1 e2) as [r|], (C.segmentIntersection e2 e1) as [r'|];
    try contradiction; [|reflexivity].
  cbn [same_answer] in H.
  rewrite (pointsEqual_fz _ _ (p1 e1) H), (pointsEqual_fz _ _ (p2 e1) H),
    (pointsEqual_fz _ _ (p1 e2) H), (pointsEqual_fz _ _ (p2 e2) H).
  destruct (C.pointsEqual r' (p1 e1)), (C.pointsEqual r' (p2 e1)),
           (C.pointsEqual r' (p1 e2)), (C.pointsEqual r' (p2 e2)); reflexivity.
Qed.

(** The collinear-overlap detector alone: line of an edge of [P], ends of
    an edge of [Q]. *)
Definition C_collinear_touch (P Q : @Polygon binary64) : bool :=
  some_edge_pair (fun e1 e2 => C.areCollinear e1 e2 && C.edgesOverlap e1 e2) P Q.

Lemma C_intersecting_swap (P Q : @Polygon binary64) :
  C_intersecting P Q = C_intersecting Q P.
Proof.
  unfold C_intersecting, some_edge_pair. rewrite existsb_swap.
  apply existsb_ext_in; intros j _. apply existsb_ext_in; intros i _.
  apply crossesInside_swap.
Qed.

Lemma classify_swap (P Q : @Polygon binary64) :
  C_collinear_touch P Q = C_collinear_touch Q P ->
  C.classifyPolygons P Q = C.classifyPolygons Q P.
Proof.
  intros H. rewrite !C_classify_eq. f_equal.
  - apply C_intersecting_swap.
  - unfold C_touching. fold (C_collinear_touch P Q). fold (C_collinear_touch Q P).
    rewrite H.
    destruct (some_vertex_on_edge C.segmentContains P Q),
             (some_vertex_on_edge C.segmentContains Q P),
             (C_collinear_touch Q P); reflexivity.
  - unfold C_enclosed. apply orb_comm.
Qed.

End Swap.

(** ** binary64: the value of a double

    A finite double is a rational number; the operations of the programs
    return the correctly rounded value of their exact result.  This is
    derived here from the specification of the primitive floats
    ([SpecFloat]): the result of an operation whose exact value is [v] is
    within [2^-52 * |v| + 2^-1074] of [v] when [|v| < 2^1024], and is [v]
    itself when [v] is a double. *)

Section Digits.
Local Open Scope Z_scope.

Lemma fexp_eq (e : Z) : fexp prec emax e = Z.max (e - 53) (-1074).
Proof. reflexivity. Qed.

Lemma digits2_pos_log2 (p : positive) : Z.pos (digits2_pos p) = Z.log2 (Z.pos p) + 1.
Proof.
  induction p as [p IH|p IH|]; cbn [digits2_pos]; try reflexivity;
    rewrite Pos2Z.inj_succ, IH.
  - change (Z.pos p~1) with (2 * Z.pos p + 1). rewrite Z.log2_succ_double by lia. lia.
  - change (Z.pos p~0) with (2 * Z.pos p). rewrite Z.log2_double by lia. lia.
Qed.

Lemma Zdigits2_log2 (m : Z) : 0 < m -> Zdigits2 m = Z.log2 m + 1.
Proof. destruct m; try lia. intros _. apply digits2_pos_log2. Qed.

Lemma Zdigits2_nonneg (m : Z) : 0 <= Zdigits2 m.
Proof. destruct m; simpl; lia. Qed.

Lemma Zdigits2_bounds (m : Z) :
  0 < m -> 2 ^ (Zdigits2 m - 1) <= m < 2 ^ Zdigits2 m.
Proof.
  intros H. rewrite Zdigits2_log2 by exact H.
  replace (Z.log2 m + 1 - 1) with (Z.log2 m) by lia.
  pose proof (Z.log2_spec m H). replace (Z.log2 m + 1) with (Z.succ (Z.log2 m)) by lia.
  exact H0.
Qed.

Lemma Zdigits2_upper (m : Z) : 0 <= m -> m < 2 ^ Zdigits2 m.
Proof.
  intros H. destruct (Z.eq_dec m 0) as [->|N]; [reflexivity|].
  apply Zdigits2_bounds. lia.
Qed.

Lemma Zdigits2_unique (m d : Z) : 2 ^ (d - 1) <= m < 2 ^ d -> 0 < m -> Zdigits2 m = d.
Proof.
  intros H Hm. rewrite Zdigits2_log2 by exact Hm.
  assert (0 < d).
  { destruct (Z_lt_le_dec 0 d); [assumption|].
    destruct (Z.eq_dec d 0) as [->|]; [simpl in H; lia|].
    rewrite (Z.pow_neg_r 2 d) in H by lia. lia. }
  rewrite (Z.log2_unique m (d - 1)); [lia | lia |].
  replace (Z.succ (d - 1)) with d by lia. exact H.
Qed.

End Digits.

Section Shifts.
Local Open Scope Z_scope.

Lemma iter_pos_nat {T : Type} (f : T -> T) (p : positive) (u : T) :
  iter_pos f p u = Nat.iter (Pos.to_nat p) f u.
Proof.
  revert u. induction p as [p IH|p IH|]; intros u; cbn [iter_pos].
  - rewrite !IH, Pos2Nat.inj_xI.
    replace (S (2 * Pos.to_nat p))%nat with (Pos.to_nat p + (Pos.to_nat p + 1))%nat by lia.
    rewrite !Nat.iter_add. reflexivity.
  - rewrite !IH, Pos2Nat.inj_xO.
    replace (2 * Pos.to_nat p)%nat with (Pos.to_nat p + Pos.to_nat p)%nat by lia.
    rewrite Nat.iter_add. reflexivity.
  - reflexivity.
Qed.

Lemma shr_1_m (mrs : shr_record) : 0 <= shr_m mrs -> shr_m (shr_1 mrs) = shr_m mrs / 2.
Proof.
  destruct mrs as [m r s]. cbn [shr_m]. intros H.
  destruct m as [|[p|p|]|p]; try lia; cbn [shr_1 shr_m].
  - reflexivity.
  - change (Z.pos p~1) with (2 * Z.pos p + 1). apply Z.div_unique with 1; lia.
  - change (Z.pos p~0) with (2 * Z.pos p). apply Z.div_unique with 0; lia.
  - reflexivity.
Qed.

Definition exact_record (mrs : shr_record) : Prop := shr_r mrs = false /\ shr_s mrs = false.

Lemma shr_1_exact (mrs : shr_record) :
  0 <= shr_m mrs -> exact_record mrs -> shr_m mrs mod 2 = 0 -> exact_record (shr_1 mrs).
Proof.
  destruct mrs as [m r s]. unfold exact_record. cbn [shr_m shr_r shr_s].
  intros H [-> ->] E.
  destruct m as [|[p|p|]|p]; try lia; cbn [shr_1 shr_r shr_s orb]; auto.
  - exfalso. change (Z.pos p~1) with (2 * Z.pos p + 1) in E.
    rewrite Z.add_comm, Z.mul_comm, Z.mod_add in E by lia. discriminate.
  - exfalso. discriminate.
Qed.

Lemma iter_shr_1 (n : nat) (mrs : shr_record) :
  0 <= shr_m mrs ->
  shr_m (Nat.iter n shr_1 mrs) = shr_m mrs / 2 ^ Z.of_nat n
  /\ (exact_record mrs -> shr_m mrs mod 2 ^ Z.of_nat n = 0 -> exact_record (Nat.iter n shr_1 mrs)).
Proof.
  intros H. induction n as [|n [IH1 IH2]].
  - change (Nat.iter 0 shr_1 mrs) with mrs.
    change (2 ^ Z.of_nat 0) with 1. rewrite Z.div_1_r, Z.mod_1_r. auto.
  - rewrite Nat.iter_succ. rewrite Nat2Z.inj_succ, Z.pow_succ_r by lia.
    assert (P : 0 < 2 ^ Z.of_nat n) by (apply Z.pow_pos_nonneg; lia).
    assert (N : 0 <= shr_m (Nat.iter n shr_1 mrs)).
    { rewrite IH1. apply Z.div_pos; lia. }
    split.
    + rewrite shr_1_m by exact N. rewrite IH1, Z.div_div by lia.
      f_equal. lia.
    + intros E D.
      assert (D' : shr_m mrs mod 2 ^ Z.of_nat n = 0).
      { apply Z.mod_divide in D; [|lia]. apply Z.mod_divide; [lia|].
        destruct D as [k D]. exists (k * 2). lia. }
      apply shr_1_exact; [exact N | now apply IH2 |].
      rewrite IH1.
      apply Z.mod_divide in D; [|lia]. destruct D as [k D].
      rewrite D. replace (k * (2 * 2 ^ Z.of_nat n)) with (k * 2 * 2 ^ Z.of_nat n) by lia.
      rewrite Z.div_mul by lia. apply Z.mod_mul. lia.
Qed.

Lemma shr_spec (mrs : shr_record) (e n : Z) :
  0 <= n -> 0 <= shr_m mrs ->
  snd (shr mrs e n) = e + n
  /\ shr_m (fst (shr mrs e n)) = shr_m mrs / 2 ^ n
  /\ (exact_record mrs -> shr_m mrs mod 2 ^ n = 0 -> exact_record (fst (shr mrs e n))).
Proof.
  intros Hn H. destruct n as [|p|p]; try lia; cbn [shr fst snd].
  - rewrite Z.add_0_r. change (2 ^ 0) with 1. rewrite Z.div_1_r. auto.
  - rewrite iter_pos_nat.
    destruct (iter_shr_1 (Pos.to_nat p) mrs H) as [H1 H2].
    rewrite positive_nat_Z in H1, H2. auto.
Qed.

Lemma shr_nonpos (mrs : shr_record) (e n : Z) : n <= 0 -> shr mrs e n = (mrs, e).
Proof. destruct n; try reflexivity. lia. Qed.

Lemma round_nearest_even_cases (mrs : shr_record) :
  exists k, (k = 0 \/ k = 1)
    /\ (exact_record mrs -> k = 0)
    /\ round_nearest_even (shr_m mrs) (loc_of_shr_record mrs) = shr_m mrs + k.
Proof.
  destruct mrs as [m [] []]; unfold exact_record; cbn [shr_m shr_r shr_s loc_of_shr_record round_nearest_even].
  - exists 1. repeat split; auto. intros [? _]. discriminate.
  - destruct (Z.even m).
    + exists 0. repeat split; auto. lia.
    + exists 1. repeat split; auto. intros [? _]. discriminate.
  - exists 0. repeat split; auto. lia.
  - exists 0. repeat split; auto. lia.
Qed.

Lemma shr_record_of_loc_m (m : Z) (l : location) : shr_m (shr_record_of_loc m l) = m.
Proof. destruct l as [|[]]; reflexivity. Qed.

Lemma shr_record_of_loc_exact (m : Z) : exact_record (shr_record_of_loc m loc_Exact).
Proof. split; reflexivity. Qed.

End Shifts.

Section RoundAux.
Local Open Scope Z_scope.

(** The float with sign [s] and magnitude [M * 2^e], for [0 <= M <= 2^53]. *)
Definition mkfloat (s : bool) (M e : Z) : spec_float :=
  match M with
  | Z0 => S754_zero s
  | Zpos p => if M =? 2 ^ 53 then S754_finite s 4503599627370496 (e + 1) else S754_finite s p e
  | Zneg _ => S754_nan
  end.

Lemma binary_round_aux_spec (s : bool) (mx ex : Z) (lx : location) :
  0 <= mx ->
  ex <= fexp prec emax (Zdigits2 mx + ex) ->
  Zdigits2 mx + ex <= 1023 ->
  exists k, (k = 0 \/ k = 1)
    /\ (lx = loc_Exact -> mx mod 2 ^ (fexp prec emax (Zdigits2 mx + ex) - ex) = 0 -> k = 0)
    /\ binary_round_aux prec emax s mx ex lx
       = mkfloat s (mx / 2 ^ (fexp prec emax (Zdigits2 mx + ex) - ex) + k)
                 (fexp prec emax (Zdigits2 mx + ex)).
Proof.
  intros Hm Hn Ho.
  pose proof (fexp_eq (Zdigits2 mx + ex)) as Fe.
  set (e' := fexp prec emax (Zdigits2 mx + ex)) in *.
  set (n := e' - ex).
  unfold binary_round_aux, shr_fexp. fold e'. fold n.
  destruct (shr_spec (shr_record_of_loc mx lx) ex n) as (S1 & S2 & S3);
    [lia | rewrite shr_record_of_loc_m; lia|].
  destruct (shr (shr_record_of_loc mx lx) ex n) as [mrs' e1]. cbn [fst snd] in *.
  rewrite shr_record_of_loc_m in S2, S3.
  destruct (round_nearest_even_cases mrs') as (k & Hk & Hk0 & R).
  rewrite R, S2. subst e1. replace (ex + n) with e' by (unfold n; lia).
  exists k. split; [exact Hk|]. split.
  { intros -> D. apply Hk0. apply S3; [apply shr_record_of_loc_exact | exact D]. }
  assert (Pn : 0 < 2 ^ n) by (apply Z.pow_pos_nonneg; lia).
  assert (Hq : 0 <= mx / 2 ^ n < 2 ^ 53).
  { split; [apply Z.div_pos; lia|].
    apply Z.div_lt_upper_bound; [exact Pn|].
    rewrite <- Z.pow_add_r by lia.
    apply Z.lt_le_trans with (2 ^ Zdigits2 mx); [now apply Zdigits2_upper|].
    apply Z.pow_le_mono_r; [lia|]. unfold n. lia. }
  set (M := mx / 2 ^ n + k) in *.
  assert (HM : 0 <= M <= 2 ^ 53) by (unfold M; lia).
  assert (He' : -1074 <= e' <= 970) by lia.
  rewrite fexp_eq. change (Z.sub emax prec) with 971.
  destruct (Z.eq_dec M 0) as [E0|N0]; [|destruct (Z.eq_dec M (2 ^ 53)) as [E1|N1]].
  - rewrite E0. cbn [Zdigits2]. rewrite shr_nonpos by lia. reflexivity.
  - rewrite E1.
    change (Zdigits2 (2 ^ 53)) with 54.
    replace (Z.max (54 + e' - 53) (-1074) - e') with 1 by lia.
    cbn [shr iter_pos shr_record_of_loc shr_1 shr_m fst snd Z.pow Z.pow_pos Pos.iter Z.mul Pos.mul].
    cbn [mkfloat Z.eqb Pos.eqb].
    replace (e' + 1 <=? 971) with true by (symmetry; apply Z.leb_le; lia).
    reflexivity.
  - assert (D : Zdigits2 M <= 53).
    { rewrite Zdigits2_log2 by lia.
      assert (Z.log2 M < 53) by (apply Z.log2_lt_pow2; lia). lia. }
    rewrite shr_nonpos by lia. cbn [shr_record_of_loc shr_m].
    destruct M as [|p|p]; try lia. cbn [mkfloat].
    replace (Z.pos p =? 2 ^ 53) with false by (symmetry; apply Z.eqb_neq; lia).
    replace (e' <=? 971) with true by (symmetry; apply Z.leb_le; lia).
    reflexivity.
Qed.

End RoundAux.

Section Powers.
Local Open Scope Q_scope.

Definition pow2 (e : Z) : Q := 2 ^ e.

Lemma pow2_pos (e : Z) : 0 < pow2 e.
Proof. apply Qpower_0_lt. reflexivity. Qed.

Lemma pow2_add (u v : Z) : pow2 (u + v) == pow2 u * pow2 v.
Proof. apply Qpower_plus. discriminate. Qed.

Lemma pow2_Z (k : Z) : (0 <= k)%Z -> pow2 k == inject_Z (2 ^ k).
Proof. intros H. unfold pow2. now rewrite Zpower_Qpower. Qed.

Lemma pow2_ge_1 (k : Z) : (0 <= k)%Z -> 1 <= pow2 k.
Proof.
  intros H. rewrite pow2_Z by exact H.
  change 1 with (inject_Z 1). rewrite <- Zle_Qle.
  assert (0 < 2 ^ k)%Z by (apply Z.pow_pos_nonneg; lia). lia.
Qed.

Lemma pow2_le (u v : Z) : (u <= v)%Z -> pow2 u <= pow2 v.
Proof.
  intros H. replace v with (u + (v - u))%Z by lia. rewrite pow2_add.
  pose proof (pow2_pos u). pose proof (pow2_ge_1 (v - u) ltac:(lia)). nra.
Qed.

Lemma pow2_lt (u v : Z) : (u < v)%Z -> pow2 u < pow2 v.
Proof.
  intros H. replace v with (u + 1 + (v - u - 1))%Z by lia. rewrite !pow2_add.
  pose proof (pow2_pos u). pose proof (pow2_ge_1 (v - u - 1) ltac:(lia)).
  change (pow2 1) with 2. nra.
Qed.

Lemma pow2_lt_inv (u v : Z) : pow2 u < pow2 v -> (u < v)%Z.
Proof.
  intros H. destruct (Z_lt_le_dec u v) as [L|L]; [exact L|].
  apply pow2_le in L. lra.
Qed.

Lemma pow2_le_inv (u v : Z) : pow2 u <= pow2 v -> (u <= v)%Z.
Proof.
  intros H. destruct (Z_lt_le_dec v u) as [L|L]; [|exact L].
  apply pow2_lt in L. lra.
Qed.

End Powers.

Global Opaque pow2.

Section Values.
Local Open Scope Q_scope.

Definition sgn (s : bool) : Q := if s then - (1) else 1.

(** The number a finite float stands for; 0 for the others. *)
Definition SF2Q (f : spec_float) : Q :=
  match f with
  | S754_finite s m e => sgn s * (inject_Z (Z.pos m) * pow2 e)
  | _ => 0
  end.

Definition SFfinite (f : spec_float) : bool :=
  match f with
  | S754_zero _ | S754_finite _ _ _ => true
  | _ => false
  end.

Lemma sgn_xorb (s t : bool) : sgn (xorb s t) == sgn s * sgn t.
Proof. destruct s, t; reflexivity. Qed.

Lemma sgn_sq (s : bool) : sgn s * sgn s == 1.
Proof. destruct s; reflexivity. Qed.

Lemma Qabs_sgn (s : bool) (v : Q) : 0 <= v -> Qabs (sgn s * v) == v.
Proof.
  intros H. destruct s; unfold sgn.
  - rewrite Qabs_neg by lra. ring.
  - rewrite Qabs_pos by lra. ring.
Qed.

Lemma SF2Q_mkfloat (s : bool) (M e : Z) :
  (0 <= M)%Z -> SF2Q (mkfloat s M e) == sgn s * (inject_Z M * pow2 e).
Proof.
  intros H. destruct M as [|p|p]; try lia; cbn [mkfloat SF2Q].
  - change (inject_Z 0) with 0. ring.
  - destruct (Z.eqb_spec (Z.pos p) (2 ^ 53)) as [E|E]; cbn [SF2Q]; [|reflexivity].
    rewrite E, pow2_add. change (pow2 1) with 2.
    change (inject_Z 4503599627370496) with (inject_Z (2 ^ 52)).
    change (inject_Z (2 ^ 53)) with (2 * inject_Z (2 ^ 52)). ring.
Qed.

Lemma SFfinite_mkfloat (s : bool) (M e : Z) : (0 <= M)%Z -> SFfinite (mkfloat s M e) = true.
Proof.
  intros H. destruct M as [|p|p]; try lia; cbn [mkfloat]; [reflexivity|].
  now destruct (Z.pos p =? 2 ^ 53)%Z.
Qed.

Lemma inject_Z_pos_bounds (m : Z) :
  (0 < m)%Z -> pow2 (Zdigits2 m - 1) <= inject_Z m /\ inject_Z m < pow2 (Zdigits2 m).
Proof.
  intros H. pose proof (Zdigits2_bounds m H) as [L U].
  pose proof (Zdigits2_nonneg m).
  assert (1 <= Zdigits2 m)%Z.
  { destruct (Z_lt_le_dec (Zdigits2 m) 1); [|assumption].
    replace (Zdigits2 m) with 0%Z in U by lia. simpl in U. lia. }
  rewrite !pow2_Z by lia. rewrite <- Zle_Qle, <- Zlt_Qlt. auto.
Qed.

(** The same number in two notations has the same magnitude. *)
Lemma same_value_same_magnitude (m1 e1 m2 e2 : Z) :
  (0 < m1)%Z -> (0 < m2)%Z ->
  inject_Z m1 * pow2 e1 == inject_Z m2 * pow2 e2 ->
  (Zdigits2 m1 + e1 = Zdigits2 m2 + e2)%Z.
Proof.
  intros H1 H2 E.
  pose proof (inject_Z_pos_bounds m1 H1) as [L1 U1].
  pose proof (inject_Z_pos_bounds m2 H2) as [L2 U2].
  pose proof (pow2_pos e1) as P1. pose proof (pow2_pos e2) as P2.
  assert (A : pow2 (Zdigits2 m1 - 1 + e1) < pow2 (Zdigits2 m2 + e2)).
  { rewrite !pow2_add. nra. }
  assert (B : pow2 (Zdigits2 m2 - 1 + e2) < pow2 (Zdigits2 m1 + e1)).
  { rewrite !pow2_add. nra. }
  apply pow2_lt_inv in A, B. lia.
Qed.

(** What [binary_round_aux] returns for a magnitude [v] known to lie in
    [mx * 2^ex, (mx + 1) * 2^ex): a finite float of the sign asked for,
    whose magnitude is off by at most 2^-52 of [v], or by the least
    subnormal.  When [v] is [mx * 2^ex] and is the magnitude of a float,
    that float's value is returned. *)
Lemma binary_round_aux_model (s : bool) (mx ex : Z) (lx : location) (v : Q) :
  (0 <= mx)%Z ->
  (ex <= fexp prec emax (Zdigits2 mx + ex))%Z ->
  inject_Z mx * pow2 ex <= v -> v < inject_Z (mx + 1) * pow2 ex ->
  v < pow2 1023 ->
  let r := binary_round_aux prec emax s mx ex lx in
  SFfinite r = true
  /\ Qabs (SF2Q r - sgn s * v) <= pow2 (-52) * v + pow2 (-1074)
  /\ (lx = loc_Exact -> v == inject_Z mx * pow2 ex ->
      forall mg eg, valid_binary (S754_finite false mg eg) = true ->
        v == inject_Z (Z.pos mg) * pow2 eg -> SF2Q r == sgn s * v).
Proof.
  intros Hm Hn Lv Uv Ov r.
  assert (Ho : (Zdigits2 mx + ex <= 1023)%Z).
  { destruct (Z.eq_dec mx 0) as [->|N].
    - cbn [Zdigits2] in *. rewrite fexp_eq in Hn. lia.
    - pose proof (inject_Z_pos_bounds mx ltac:(lia)) as [L _].
      pose proof (pow2_pos ex).
      assert (pow2 (Zdigits2 mx - 1 + ex) < pow2 1023) by (rewrite pow2_add; nra).
      apply pow2_lt_inv in H0. lia. }
  destruct (binary_round_aux_spec s mx ex lx Hm Hn Ho) as (k & Hk & Hk0 & R).
  fold r in R.
  pose proof (fexp_eq (Zdigits2 mx + ex)) as Fe.
  set (e' := fexp prec emax (Zdigits2 mx + ex)) in *.
  set (n := (e' - ex)%Z) in *.
  set (m' := (mx / 2 ^ n)%Z) in *.
  assert (Pn : (0 < 2 ^ n)%Z) by (apply Z.pow_pos_nonneg; lia).
  assert (Hm' : (0 <= m')%Z) by (apply Z.div_pos; lia).
  assert (Dm : (mx = 2 ^ n * m' + mx mod 2 ^ n)%Z) by (apply Z.div_mod; lia).
  pose proof (Z.mod_pos_bound mx (2 ^ n) Pn) as Rm.
  assert (Pe : pow2 e' == inject_Z (2 ^ n) * pow2 ex).
  { replace e' with (n + ex)%Z by (unfold n; lia). rewrite pow2_add, pow2_Z by lia. reflexivity. }
  pose proof (pow2_pos ex) as Pex. pose proof (pow2_pos e') as Pe'.
  assert (B1 : inject_Z m' * pow2 e' <= v).
  { rewrite Pe. apply Qle_trans with (inject_Z mx * pow2 ex); [|exact Lv].
    rewrite Qmult_assoc, <- inject_Z_mult.
    apply Qmult_le_compat_r; [|lra]. rewrite <- Zle_Qle. lia. }
  assert (B2 : v < inject_Z (m' + 1) * pow2 e').
  { rewrite Pe. apply Qlt_le_trans with (inject_Z (mx + 1) * pow2 ex); [exact Uv|].
    rewrite Qmult_assoc, <- inject_Z_mult.
    apply Qmult_le_compat_r; [|lra]. rewrite <- Zle_Qle. lia. }
  assert (V : SF2Q r == sgn s * (inject_Z (m' + k) * pow2 e')).
  { rewrite R. apply SF2Q_mkfloat. lia. }
  assert (Small : pow2 e' <= pow2 (-52) * v + pow2 (-1074)).
  { pose proof (pow2_pos (-52)). pose proof (pow2_pos (-1074)).
    assert (0 <= v).
    { apply Qle_trans with (inject_Z mx * pow2 ex); [|exact Lv].
      apply Qmult_le_0_compat; [|lra]. change 0 with (inject_Z 0). rewrite <- Zle_Qle. lia. }
    destruct (Z.eq_dec e' (-1074)) as [E|E].
    - rewrite E. nra.
    - assert (E' : e' = (Zdigits2 mx + ex - 53)%Z) by lia.
      assert (mx <> 0%Z).
      { intros E0. rewrite E0 in E'. cbn [Zdigits2] in E'. lia. }
      pose proof (inject_Z_pos_bounds mx ltac:(lia)) as [L _].
      assert (Ep : pow2 e' == pow2 (-52) * (pow2 (Zdigits2 mx - 1) * pow2 ex)).
      { rewrite E', <- !pow2_add. f_equiv. lia. }
      rewrite Ep.
      assert (pow2 (Zdigits2 mx - 1) * pow2 ex <= v).
      { apply Qle_trans with (inject_Z mx * pow2 ex); [|exact Lv].
        apply Qmult_le_compat_r; lra. }
      assert (pow2 (-52) * (pow2 (Zdigits2 mx - 1) * pow2 ex) <= pow2 (-52) * v)
        by (apply Qmult_le_l; lra).
      lra. }
  split; [|split].
  - rewrite R. apply SFfinite_mkfloat. lia.
  - rewrite V.
    setoid_replace (sgn s * (inject_Z (m' + k) * pow2 e') - sgn s * v)
      with (sgn s * (inject_Z (m' + k) * pow2 e' - v)) by ring.
    rewrite Qabs_Qmult.
    assert (As : Qabs (sgn s) == 1) by (destruct s; reflexivity).
    rewrite As, Qmult_1_l.
    apply Qle_trans with (pow2 e'); [|exact Small].
    rewrite inject_Z_plus in B2 |- *. change (inject_Z 1) with 1 in B2.
    apply Qabs_Qle_condition.
    destruct Hk as [-> | ->]; [change (inject_Z 0) with 0 | change (inject_Z 1) with 1]; split; lra.
  - intros -> Ev mg eg Vg Eg.
    assert (D : (mx mod 2 ^ n = 0)%Z).
    { assert (Hmx : (0 < mx)%Z).
      { destruct (Z.eq_dec mx 0) as [E0|]; [|lia].
        rewrite Ev, E0 in Eg. pose proof (pow2_pos eg).
        assert (0 < inject_Z (Z.pos mg)) by (change 0 with (inject_Z 0); rewrite <- Zlt_Qlt; lia).
        change (inject_Z 0) with 0 in Eg. nra. }
      rewrite Ev in Eg.
      pose proof (same_value_same_magnitude mx ex (Z.pos mg) eg Hmx ltac:(lia) Eg) as Mg.
      unfold valid_binary, bounded, canonical_mantissa in Vg.
      apply andb_true_iff in Vg as [Vg _]. apply Z.eqb_eq in Vg.
      change (Z.pos (digits2_pos mg)) with (Zdigits2 (Z.pos mg)) in Vg.
      rewrite <- Mg in Vg. fold e' in Vg. subst eg.
      rewrite Pe, Qmult_assoc, <- inject_Z_mult in Eg.
      apply Qmult_inj_r in Eg; [|lra].
      apply (proj1 (inject_Z_injective _ _)) in Eg. rewrite Eg.
      apply Z.mod_mul. lia. }
    assert (k = 0%Z) as -> by (apply Hk0; [reflexivity | exact D]).
    assert (Em : inject_Z mx == inject_Z m' * inject_Z (2 ^ n)).
    { rewrite <- inject_Z_mult. apply inject_Z_injective. lia. }
    rewrite V, Ev, Z.add_0_r, Pe, Em. ring.
Qed.

End Values.

Section Operations.
Local Open Scope Q_scope.

(** [r] is a finite float within rounding distance of the number [v]. *)
Definition rounds_to (r : spec_float) (v : Q) : Prop :=
  SFfinite r = true /\ Qabs (SF2Q r - v) <= pow2 (-52) * Qabs v + pow2 (-1074).

(** [v] is the value of a float. *)
Definition representable (v : Q) : Prop :=
  exists g, valid_binary g = true /\ SFfinite g = true /\ SF2Q g == v.

Lemma valid_finite (s : bool) (m : positive) (e : Z) :
  valid_binary (S754_finite s m e) = true ->
  (Z.max (Zdigits2 (Z.pos m) + e - 53) (-1074) = e /\ e <= 971)%Z.
Proof.
  unfold valid_binary, bounded, canonical_mantissa.
  rewrite andb_true_iff, Z.eqb_eq, Z.leb_le, fexp_eq.
  change (Z.sub emax prec) with 971%Z. cbn [Zdigits2]. auto.
Qed.

Lemma rounds_to_exact (r : spec_float) (v : Q) :
  SFfinite r = true -> SF2Q r == v -> rounds_to r v.
Proof.
  intros F E. split; [exact F|]. rewrite E.
  setoid_replace (v - v) with 0 by ring.
  pose proof (pow2_pos (-52)). pose proof (pow2_pos (-1074)). pose proof (Qabs_nonneg v).
  change (Qabs 0) with 0. nra.
Qed.

Lemma rounds_to_ext (r : spec_float) (v w : Q) : v == w -> rounds_to r v -> rounds_to r w.
Proof. intros E [F B]. split; [exact F|]. now rewrite <- E. Qed.

Lemma representable_ext (v w : Q) : v == w -> representable v -> representable w.
Proof. intros E (g & V & F & Eg). exists g. repeat split; try assumption. now rewrite Eg. Qed.

Lemma inject_Z_pos_gt_0 (p : positive) : 0 < inject_Z (Z.pos p).
Proof. change 0 with (inject_Z 0). rewrite <- Zlt_Qlt. lia. Qed.

Lemma magnitude_pos (p : positive) (e : Z) : 0 < inject_Z (Z.pos p) * pow2 e.
Proof. pose proof (inject_Z_pos_gt_0 p). pose proof (pow2_pos e). nra. Qed.

Lemma sgn_cancel (s t : bool) (u v : Q) : 0 < u -> 0 < v -> sgn s * u == sgn t * v -> s = t /\ u == v.
Proof. destruct s, t; unfold sgn; intros; split; try reflexivity; lra. Qed.

(** From the magnitude to the signed statement. *)
Lemma rounds_to_signed (s : bool) (mx ex : Z) (lx : location) (v : Q) :
  (0 <= mx)%Z ->
  (ex <= fexp prec emax (Zdigits2 mx + ex))%Z ->
  inject_Z mx * pow2 ex <= v -> v < inject_Z (mx + 1) * pow2 ex ->
  v < pow2 1023 ->
  rounds_to (binary_round_aux prec emax s mx ex lx) (sgn s * v).
Proof.
  intros Hm Hn Lv Uv Ov.
  destruct (binary_round_aux_model s mx ex lx v Hm Hn Lv Uv Ov) as (F & B & _).
  split; [exact F|].
  assert (0 <= v).
  { apply Qle_trans with (inject_Z mx * pow2 ex); [|exact Lv].
    pose proof (pow2_pos ex).
    apply Qmult_le_0_compat; [|lra]. change 0 with (inject_Z 0). rewrite <- Zle_Qle. lia. }
  now rewrite Qabs_sgn.
Qed.

Lemma exact_signed (s : bool) (mx : positive) (ex : Z) :
  (ex <= fexp prec emax (Zdigits2 (Z.pos mx) + ex))%Z ->
  inject_Z (Z.pos mx) * pow2 ex < pow2 1023 ->
  representable (sgn s * (inject_Z (Z.pos mx) * pow2 ex)) ->
  SF2Q (binary_round_aux prec emax s (Z.pos mx) ex loc_Exact)
  == sgn s * (inject_Z (Z.pos mx) * pow2 ex).
Proof.
  intros Hn Ov (g & Vg & Fg & Eg).
  pose proof (magnitude_pos mx ex) as P.
  set (v := inject_Z (Z.pos mx) * pow2 ex) in *.
  assert (Uv : v < inject_Z (Z.pos mx + 1) * pow2 ex).
  { unfold v. rewrite inject_Z_plus. change (inject_Z 1) with 1.
    pose proof (pow2_pos ex). lra. }
  destruct (binary_round_aux_model s (Z.pos mx) ex loc_Exact v ltac:(lia) Hn
              ltac:(unfold v; lra) Uv Ov) as (_ & _ & X).
  destruct g as [sg|sg| |sg mg eg]; try discriminate.
  - cbn [SF2Q] in Eg. destruct s; unfold sgn in Eg; lra.
  - cbn [SF2Q] in Eg.
    apply sgn_cancel in Eg as [_ Eg]; [|apply magnitude_pos | exact P].
    apply (X eq_refl ltac:(reflexivity) mg eg); [exact Vg | now symmetry].
Qed.

Lemma Zdigits2_mul_pow2 (m k : Z) :
  (0 < m)%Z -> (0 <= k)%Z -> (Zdigits2 (m * 2 ^ k) = Zdigits2 m + k)%Z.
Proof.
  intros Hm Hk.
  assert (0 < 2 ^ k)%Z by (apply Z.pow_pos_nonneg; lia).
  rewrite !Zdigits2_log2 by nia. rewrite Z.log2_mul_pow2 by lia. lia.
Qed.

Lemma Zdigits2_mul_below (m1 m2 : Z) :
  (0 < m1)%Z -> (0 < m2)%Z -> (Zdigits2 m1 + Zdigits2 m2 - 1 <= Zdigits2 (m1 * m2))%Z.
Proof.
  intros H1 H2. rewrite !Zdigits2_log2 by nia.
  pose proof (Z.log2_mul_below m1 m2 H1 H2). lia.
Qed.

(** *** Multiplication *)

Lemma SFmul_value (x y : spec_float) :
  SFfinite x = true -> SFfinite y = true ->
  match x, y with
  | S754_finite sx mx ex, S754_finite sy my ey =>
      SF2Q x * SF2Q y == sgn (xorb sx sy) * (inject_Z (Z.pos (mx * my)) * pow2 (ex + ey))
  | _, _ => SF2Q x * SF2Q y == 0
  end.
Proof.
  destruct x as [sx|sx| |sx mx ex], y as [sy|sy| |sy my ey]; try discriminate; intros _ _;
    cbn [SF2Q]; try ring.
  rewrite sgn_xorb, pow2_add, Pos2Z.inj_mul, inject_Z_mult. ring.
Qed.

Lemma SFmul_n_cond (sx sy : bool) (mx my : positive) (ex ey : Z) :
  valid_binary (S754_finite sx mx ex) = true ->
  valid_binary (S754_finite sy my ey) = true ->
  (ex + ey <= fexp prec emax (Zdigits2 (Z.pos (mx * my)) + (ex + ey)))%Z.
Proof.
  intros Vx Vy. apply valid_finite in Vx as [Vx _], Vy as [Vy _].
  rewrite fexp_eq, Pos2Z.inj_mul.
  pose proof (Zdigits2_mul_below (Z.pos mx) (Z.pos my) ltac:(lia) ltac:(lia)).
  pose proof (Zdigits2_bounds (Z.pos mx) ltac:(lia)).
  pose proof (Zdigits2_bounds (Z.pos my) ltac:(lia)).
  assert (1 <= Zdigits2 (Z.pos mx))%Z by (cbn [Zdigits2]; lia).
  assert (1 <= Zdigits2 (Z.pos my))%Z by (cbn [Zdigits2]; lia).
  lia.
Qed.

Lemma SFmul_rounds (x y : spec_float) :
  valid_binary x = true -> valid_binary y = true ->
  SFfinite x = true -> SFfinite y = true ->
  Qabs (SF2Q x * SF2Q y) < pow2 1023 ->
  rounds_to (SF64mul x y) (SF2Q x * SF2Q y).
Proof.
  intros Vx Vy Fx Fy Ov. pose proof (SFmul_value x y Fx Fy) as E.
  destruct x as [sx|sx| |sx mx ex], y as [sy|sy| |sy my ey]; try discriminate;
    cbv beta iota in E;
    try (apply rounds_to_exact; [reflexivity | now rewrite E]).
  unfold SF64mul, SFmul. rewrite E in Ov.
  apply (rounds_to_ext _ _ _ (Qeq_sym _ _ E)).
  pose proof (magnitude_pos (mx * my) (ex + ey)) as P.
  rewrite Qabs_sgn in Ov by lra.
  apply rounds_to_signed; try lra; try lia.
  - now apply (SFmul_n_cond sx sy).
  - rewrite inject_Z_plus. change (inject_Z 1) with 1. pose proof (pow2_pos (ex + ey)). lra.
Qed.

Lemma SFmul_exact (x y : spec_float) :
  valid_binary x = true -> valid_binary y = true ->
  SFfinite x = true -> SFfinite y = true ->
  Qabs (SF2Q x * SF2Q y) < pow2 1023 ->
  representable (SF2Q x * SF2Q y) ->
  SF2Q (SF64mul x y) == SF2Q x * SF2Q y.
Proof.
  intros Vx Vy Fx Fy Ov Rp. pose proof (SFmul_value x y Fx Fy) as E.
  destruct x as [sx|sx| |sx mx ex], y as [sy|sy| |sy my ey]; try discriminate;
    cbv beta iota in E;
    try (now rewrite E).
  unfold SF64mul, SFmul.
  apply (representable_ext _ _ E) in Rp.
  rewrite E in Ov |- *.
  pose proof (magnitude_pos (mx * my) (ex + ey)) as P.
  rewrite Qabs_sgn in Ov by lra.
  apply exact_signed; try assumption.
  now apply (SFmul_n_cond sx sy).
Qed.

End Operations.

Section Sums.
Local Open Scope Q_scope.

Lemma Pos_iter_xO (m d : positive) : Z.pos (Pos.iter xO m d) = (Z.pos m * 2 ^ Z.pos d)%Z.
Proof.
  induction d as [|d IH] using Pos.peano_ind.
  - cbn [Pos.iter]. lia.
  - rewrite Pos.iter_succ, Pos2Z.inj_succ, Z.pow_succ_r by lia.
    rewrite Pos2Z.inj_xO, IH. lia.
Qed.

Lemma shl_align_spec (mx : positive) (ex ez : Z) :
  snd (shl_align mx ex ez) = Z.min ex ez
  /\ Z.pos (fst (shl_align mx ex ez)) = (Z.pos mx * 2 ^ (ex - Z.min ex ez))%Z.
Proof.
  unfold shl_align. destruct (ez - ex)%Z as [|d|d] eqn:E; cbn [fst snd].
  - split; [lia|]. replace (ex - Z.min ex ez)%Z with 0%Z by lia. lia.
  - split; [lia|]. replace (ex - Z.min ex ez)%Z with 0%Z by lia. lia.
  - split; [lia|]. rewrite Pos_iter_xO. f_equal. f_equal. lia.
Qed.

Lemma aligned_value (mx : positive) (ex ez : Z) :
  inject_Z (Z.pos (fst (shl_align mx ex ez))) * pow2 (snd (shl_align mx ex ez))
  == inject_Z (Z.pos mx) * pow2 ex.
Proof.
  destruct (shl_align_spec mx ex ez) as [-> ->].
  rewrite inject_Z_mult, <- pow2_Z by lia.
  rewrite <- Qmult_assoc, <- pow2_add. f_equiv. f_equiv. lia.
Qed.

Lemma binary_round_n_cond (m : positive) (e : Z) :
  let a := shl_align m e (fexp prec emax (Zdigits2 (Z.pos m) + e)) in
  (snd a <= fexp prec emax (Zdigits2 (Z.pos (fst a)) + snd a))%Z.
Proof.
  intros a. subst a.
  destruct (shl_align_spec m e (fexp prec emax (Zdigits2 (Z.pos m) + e))) as [-> ->].
  rewrite Zdigits2_mul_pow2 by lia.
  replace (Zdigits2 (Z.pos m) + (e - Z.min e (fexp prec emax (Zdigits2 (Z.pos m) + e)))
           + Z.min e (fexp prec emax (Zdigits2 (Z.pos m) + e)))%Z
    with (Zdigits2 (Z.pos m) + e)%Z by lia.
  lia.
Qed.

Lemma binary_round_rounds (s : bool) (m : positive) (e : Z) :
  inject_Z (Z.pos m) * pow2 e < pow2 1023 ->
  rounds_to (binary_round prec emax s m e) (sgn s * (inject_Z (Z.pos m) * pow2 e)).
Proof.
  intros Ov. unfold binary_round.
  pose proof (binary_round_n_cond m e) as N.
  pose proof (aligned_value m e (fexp prec emax (Zdigits2 (Z.pos m) + e))) as V.
  change (Z.pos (digits2_pos m)) with (Zdigits2 (Z.pos m)).
  destruct (shl_align m e _) as [mz ez]. cbn [fst snd] in *.
  pose proof (pow2_pos ez).
  apply (rounds_to_ext _ (sgn s * (inject_Z (Z.pos mz) * pow2 ez))); [now rewrite V|].
  apply rounds_to_signed; try lia; try lra.
  rewrite inject_Z_plus. change (inject_Z 1) with 1. lra.
Qed.

Lemma binary_round_exact (s : bool) (m : positive) (e : Z) :
  inject_Z (Z.pos m) * pow2 e < pow2 1023 ->
  representable (sgn s * (inject_Z (Z.pos m) * pow2 e)) ->
  SF2Q (binary_round prec emax s m e) == sgn s * (inject_Z (Z.pos m) * pow2 e).
Proof.
  intros Ov Rp. unfold binary_round.
  pose proof (binary_round_n_cond m e) as N.
  pose proof (aligned_value m e (fexp prec emax (Zdigits2 (Z.pos m) + e))) as V.
  change (Z.pos (digits2_pos m)) with (Zdigits2 (Z.pos m)).
  destruct (shl_align m e _) as [mz ez]. cbn [fst snd] in *.
  assert (V' : sgn s * (inject_Z (Z.pos m) * pow2 e) == sgn s * (inject_Z (Z.pos mz) * pow2 ez))
    by (apply Qmult_comp; [reflexivity | now symmetry]).
  rewrite V'. apply exact_signed; [exact N | lra |].
  apply (representable_ext _ _ V' Rp).
Qed.

Lemma binary_normalize_value (S e : Z) :
  match S with
  | Z0 => inject_Z S * pow2 e == 0
  | Zpos p => inject_Z S * pow2 e == sgn false * (inject_Z (Z.pos p) * pow2 e)
  | Zneg p => inject_Z S * pow2 e == sgn true * (inject_Z (Z.pos p) * pow2 e)
  end.
Proof.
  destruct S as [|p|p].
  - change (inject_Z 0) with 0. ring.
  - unfold sgn. ring.
  - change (Z.neg p) with (- Z.pos p)%Z. rewrite inject_Z_opp. unfold sgn. ring.
Qed.

Lemma binary_normalize_rounds (S e : Z) :
  Qabs (inject_Z S * pow2 e) < pow2 1023 ->
  rounds_to (binary_normalize prec emax S e false) (inject_Z S * pow2 e).
Proof.
  intros Ov. pose proof (binary_normalize_value S e) as E.
  destruct S as [|p|p]; cbn [binary_normalize].
  - apply rounds_to_exact; [reflexivity | now rewrite E].
  - apply (rounds_to_ext _ _ _ (Qeq_sym _ _ E)). apply binary_round_rounds.
    rewrite E, Qabs_sgn in Ov; [exact Ov|]. pose proof (magnitude_pos p e). lra.
  - apply (rounds_to_ext _ _ _ (Qeq_sym _ _ E)). apply binary_round_rounds.
    rewrite E, Qabs_sgn in Ov; [exact Ov|]. pose proof (magnitude_pos p e). lra.
Qed.

Lemma binary_normalize_exact (S e : Z) :
  Qabs (inject_Z S * pow2 e) < pow2 1023 ->
  representable (inject_Z S * pow2 e) ->
  SF2Q (binary_normalize prec emax S e false) == inject_Z S * pow2 e.
Proof.
  intros Ov Rp. pose proof (binary_normalize_value S e) as E.
  destruct S as [|p|p]; cbn [binary_normalize].
  - now rewrite E.
  - rewrite E. apply binary_round_exact.
    + rewrite E, Qabs_sgn in Ov; [exact Ov|]. pose proof (magnitude_pos p e). lra.
    + apply (representable_ext _ _ E Rp).
  - rewrite E. apply binary_round_exact.
    + rewrite E, Qabs_sgn in Ov; [exact Ov|]. pose proof (magnitude_pos p e). lra.
    + apply (representable_ext _ _ E Rp).
Qed.

Lemma cond_Zopp_value (s : bool) (M : Z) : inject_Z (cond_Zopp s M) == sgn s * inject_Z M.
Proof.
  destruct s; cbn [cond_Zopp]; unfold sgn.
  - rewrite inject_Z_opp. ring.
  - ring.
Qed.

(** The aligned mantissa of a finite float, signed, times the common
    exponent, is the float's value. *)
Lemma aligned_signed (s : bool) (m : positive) (e ez : Z) :
  (ez <= e)%Z ->
  inject_Z (cond_Zopp s (Z.pos (fst (shl_align m e ez)))) * pow2 ez
  == SF2Q (S754_finite s m e).
Proof.
  intros H. rewrite cond_Zopp_value. cbn [SF2Q].
  pose proof (aligned_value m e ez) as V.
  destruct (shl_align_spec m e ez) as [E _]. rewrite E in V.
  replace (Z.min e ez) with ez in V by lia. rewrite <- V. ring.
Qed.

Lemma SFadd_value (sx sy : bool) (mx my : positive) (ex ey : Z) :
  let ez := Z.min ex ey in
  inject_Z (cond_Zopp sx (Z.pos (fst (shl_align mx ex ez)))
            + cond_Zopp sy (Z.pos (fst (shl_align my ey ez)))) * pow2 ez
  == SF2Q (S754_finite sx mx ex) + SF2Q (S754_finite sy my ey).
Proof.
  intros ez. rewrite inject_Z_plus, Qmult_plus_distr_l.
  rewrite !aligned_signed by (unfold ez; lia). reflexivity.
Qed.

Lemma SFsub_value (sx sy : bool) (mx my : positive) (ex ey : Z) :
  let ez := Z.min ex ey in
  inject_Z (cond_Zopp sx (Z.pos (fst (shl_align mx ex ez)))
            - cond_Zopp sy (Z.pos (fst (shl_align my ey ez)))) * pow2 ez
  == SF2Q (S754_finite sx mx ex) - SF2Q (S754_finite sy my ey).
Proof.
  intros ez. unfold Z.sub. rewrite inject_Z_plus, inject_Z_opp.
  setoid_replace ((inject_Z (cond_Zopp sx (Z.pos (fst (shl_align mx ex ez))))
                   + - inject_Z (cond_Zopp sy (Z.pos (fst (shl_align my ey ez))))) * pow2 ez)
    with (inject_Z (cond_Zopp sx (Z.pos (fst (shl_align mx ex ez)))) * pow2 ez
          - inject_Z (cond_Zopp sy (Z.pos (fst (shl_align my ey ez)))) * pow2 ez) by ring.
  rewrite !aligned_signed by (unfold ez; lia). reflexivity.
Qed.

Lemma SF2Q_opp_finite (s : bool) (m : positive) (e : Z) :
  SF2Q (S754_finite (negb s) m e) == - SF2Q (S754_finite s m e).
Proof. cbn [SF2Q]. destruct s; unfold sgn; cbn [negb]; ring. Qed.

Lemma SFadd_rounds (x y : spec_float) :
  SFfinite x = true -> SFfinite y = true ->
  Qabs (SF2Q x + SF2Q y) < pow2 1023 ->
  rounds_to (SF64add x y) (SF2Q x + SF2Q y).
Proof.
  intros Fx Fy Ov.
  destruct x as [sx|sx| |sx mx ex], y as [sy|sy| |sy my ey]; try discriminate.
  - apply rounds_to_exact; [now destruct sx, sy | destruct sx, sy; cbn [SF64add SFadd SF2Q]; ring].
  - apply rounds_to_exact; [reflexivity | cbn [SF64add SFadd SF2Q]; ring].
  - apply rounds_to_exact; [reflexivity | cbn [SF64add SFadd SF2Q]; ring].
  - unfold SF64add, SFadd. cbv zeta.
    pose proof (SFadd_value sx sy mx my ex ey) as E. cbv zeta in E.
    apply (rounds_to_ext _ _ _ E). apply binary_normalize_rounds. now rewrite E.
Qed.

Lemma SFadd_exact (x y : spec_float) :
  SFfinite x = true -> SFfinite y = true ->
  Qabs (SF2Q x + SF2Q y) < pow2 1023 ->
  representable (SF2Q x + SF2Q y) ->
  SF2Q (SF64add x y) == SF2Q x + SF2Q y.
Proof.
  intros Fx Fy Ov Rp.
  destruct x as [sx|sx| |sx mx ex], y as [sy|sy| |sy my ey]; try discriminate.
  - destruct sx, sy; cbn [SF64add SFadd SF2Q]; ring.
  - cbn [SF64add SFadd SF2Q]; ring.
  - cbn [SF64add SFadd SF2Q]; ring.
  - unfold SF64add, SFadd. cbv zeta.
    pose proof (SFadd_value sx sy mx my ex ey) as E. cbv zeta in E.
    rewrite <- E. apply binary_normalize_exact; [now rewrite E|].
    apply (representable_ext _ _ (Qeq_sym _ _ E) Rp).
Qed.

Lemma SFsub_rounds (x y : spec_float) :
  SFfinite x = true -> SFfinite y = true ->
  Qabs (SF2Q x - SF2Q y) < pow2 1023 ->
  rounds_to (SF64sub x y) (SF2Q x - SF2Q y).
Proof.
  intros Fx Fy Ov.
  destruct x as [sx|sx| |sx mx ex], y as [sy|sy| |sy my ey]; try discriminate.
  - apply rounds_to_exact; [now destruct sx, sy | destruct sx, sy; cbn [SF64sub SFsub SF2Q]; ring].
  - apply rounds_to_exact; [reflexivity|].
    unfold SF64sub, SFsub. rewrite SF2Q_opp_finite. cbn [SF2Q]. ring.
  - apply rounds_to_exact; [reflexivity | cbn [SF64sub SFsub SF2Q]; ring].
  - unfold SF64sub, SFsub. cbv zeta.
    pose proof (SFsub_value sx sy mx my ex ey) as E. cbv zeta in E.
    apply (rounds_to_ext _ _ _ E). apply binary_normalize_rounds. now rewrite E.
Qed.

Lemma SFsub_exact (x y : spec_float) :
  SFfinite x = true -> SFfinite y = true ->
  Qabs (SF2Q x - SF2Q y) < pow2 1023 ->
  representable (SF2Q x - SF2Q y) ->
  SF2Q (SF64sub x y) == SF2Q x - SF2Q y.
Proof.
  intros Fx Fy Ov Rp.
  destruct x as [sx|sx| |sx mx ex], y as [sy|sy| |sy my ey]; try discriminate.
  - destruct sx, sy; cbn [SF64sub SFsub SF2Q]; ring.
  - unfold SF64sub, SFsub. rewrite SF2Q_opp_finite. cbn [SF2Q]. ring.
  - cbn [SF64sub SFsub SF2Q]; ring.
  - unfold SF64sub, SFsub. cbv zeta.
    pose proof (SFsub_value sx sy mx my ex ey) as E. cbv zeta in E.
    rewrite <- E. apply binary_normalize_exact; [now rewrite E|].
    apply (representable_ext _ _ (Qeq_sym _ _ E) Rp).
Qed.

End Sums.

Section Quotients.
Local Open Scope Q_scope.

Lemma sgn_div (s t : bool) (u v : Q) :
  ~ v == 0 -> (sgn s * u) / (sgn t * v) == sgn (xorb s t) * (u / v).
Proof. intros H. destruct s, t; unfold sgn; cbn [xorb]; field; exact H. Qed.

(** The quotient of two mantissas, as [SFdiv_core_binary] computes it. *)
Lemma SFdiv_core_spec (sx sy : bool) (mx my : positive) (ex ey : Z) :
  valid_binary (S754_finite sx mx ex) = true ->
  valid_binary (S754_finite sy my ey) = true ->
  let v := (inject_Z (Z.pos mx) * pow2 ex) / (inject_Z (Z.pos my) * pow2 ey) in
  let '(q, ez, lz) := SFdiv_core_binary prec emax (Z.pos mx) ex (Z.pos my) ey in
  (0 <= q)%Z
  /\ (ez <= fexp prec emax (Zdigits2 q + ez))%Z
  /\ inject_Z q * pow2 ez <= v /\ v < inject_Z (q + 1) * pow2 ez.
Proof.
  intros Vx Vy v. apply valid_finite in Vx as [Vx _], Vy as [Vy _].
  unfold SFdiv_core_binary.
  set (dx := Zdigits2 (Z.pos mx)) in *. set (dy := Zdigits2 (Z.pos my)) in *.
  pose proof (fexp_eq (dx + ex - (dy + ey))) as Fe.
  set (f := fexp prec emax (dx + ex - (dy + ey))) in *.
  set (ez := Z.min f (ex - ey)).
  set (s := (ex - ey - ez)%Z).
  assert (Hs : (0 <= s)%Z) by (unfold s, ez; lia).
  set (m' := match s with
             | Z0 => Z.pos mx
             | Z.pos _ => Z.shiftl (Z.pos mx) s
             | Z.neg _ => 0%Z
             end).
  assert (Em : m' = (Z.pos mx * 2 ^ s)%Z).
  { unfold m'. destruct s as [|p|p] eqn:Es; try lia.
    now rewrite Z.shiftl_mul_pow2 by lia. }
  clearbody m'.
  pose proof (Z_div_mod m' (Z.pos my) ltac:(lia)) as DM.
  destruct (Z.div_eucl m' (Z.pos my)) as [q r]. destruct DM as [DM Rr].
  assert (P2 : (0 < 2 ^ s)%Z) by (apply Z.pow_pos_nonneg; lia).
  assert (Hq : (0 <= q)%Z) by nia.
  pose proof (Zdigits2_bounds (Z.pos mx) ltac:(lia)) as Bx. fold dx in Bx.
  pose proof (Zdigits2_bounds (Z.pos my) ltac:(lia)) as By. fold dy in By.
  assert (Dx : (1 <= dx)%Z) by (unfold dx; cbn [Zdigits2]; lia).
  assert (Dy : (1 <= dy)%Z) by (unfold dy; cbn [Zdigits2]; lia).
  split; [exact Hq|]. split; [|split].
  - rewrite fexp_eq.
    destruct (Z_le_gt_dec ez (-1074)) as [L|G]; [lia|].
    assert (Es : s = (53 + dy - dx)%Z) by (unfold s, ez in *; lia).
    assert (Q52 : (2 ^ 52 <= q)%Z).
    { assert (2 ^ (52 + dy) <= m')%Z.
      { rewrite Em, Es.
        replace (52 + dy)%Z with ((dx - 1) + (53 + dy - dx))%Z by lia.
        rewrite Z.pow_add_r by lia.
        apply Z.mul_le_mono_nonneg_r; lia. }
      rewrite Z.pow_add_r in H by lia.
      assert (Z.pos my * 2 ^ 52 < Z.pos my * (q + 1))%Z by nia.
      assert (2 ^ 52 < q + 1)%Z by (apply Z.mul_lt_mono_pos_l with (Z.pos my); lia).
      lia. }
    assert (53 <= Zdigits2 q)%Z.
    { rewrite Zdigits2_log2 by lia.
      assert (52 <= Z.log2 q)%Z by (apply Z.log2_le_pow2; lia). lia. }
    lia.
  - assert (Ev : v == inject_Z m' * pow2 ez / inject_Z (Z.pos my)).
    { unfold v. rewrite Em, inject_Z_mult, <- pow2_Z by lia.
      replace ex with (ey + s + ez)%Z at 1 by (unfold s; lia).
      rewrite !pow2_add. field.
      pose proof (pow2_pos ey). pose proof (inject_Z_pos_gt_0 my). split; lra. }
    rewrite Ev. pose proof (inject_Z_pos_gt_0 my). pose proof (pow2_pos ez).
    apply Qle_shift_div_l; [lra|].
    rewrite <- Qmult_assoc, (Qmult_comm (pow2 ez)), Qmult_assoc, <- inject_Z_mult.
    apply Qmult_le_compat_r; [|lra]. rewrite <- Zle_Qle. lia.
  - assert (Ev : v == inject_Z m' * pow2 ez / inject_Z (Z.pos my)).
    { unfold v. rewrite Em, inject_Z_mult, <- pow2_Z by lia.
      replace ex with (ey + s + ez)%Z at 1 by (unfold s; lia).
      rewrite !pow2_add. field.
      pose proof (pow2_pos ey). pose proof (inject_Z_pos_gt_0 my). split; lra. }
    rewrite Ev. pose proof (inject_Z_pos_gt_0 my). pose proof (pow2_pos ez).
    apply Qlt_shift_div_r; [lra|].
    rewrite <- Qmult_assoc, (Qmult_comm (pow2 ez)), Qmult_assoc, <- inject_Z_mult.
    apply Qmult_lt_compat_r; [lra|]. rewrite <- Zlt_Qlt. lia.
Qed.

Lemma SFdiv_rounds (x y : spec_float) :
  valid_binary x = true -> valid_binary y = true ->
  SFfinite x = true -> SFfinite y = true ->
  ~ SF2Q y == 0 ->
  Qabs (SF2Q x / SF2Q y) < pow2 1023 ->
  rounds_to (SF64div x y) (SF2Q x / SF2Q y).
Proof.
  intros Vx Vy Fx Fy Ny Ov.
  destruct x as [sx|sx| |sx mx ex], y as [sy|sy| |sy my ey]; try discriminate;
    try (exfalso; apply Ny; reflexivity).
  - apply rounds_to_exact; [reflexivity|]. cbn [SF64div SFdiv SF2Q].
    unfold Qdiv. ring.
  - unfold SF64div, SFdiv.
    pose proof (SFdiv_core_spec sx sy mx my ex ey Vx Vy) as C. cbv zeta in C.
    pose proof (magnitude_pos mx ex) as Px. pose proof (magnitude_pos my ey) as Py.
    set (v := (inject_Z (Z.pos mx) * pow2 ex) / (inject_Z (Z.pos my) * pow2 ey)) in *.
    assert (E : SF2Q (S754_finite sx mx ex) / SF2Q (S754_finite sy my ey)
                == sgn (xorb sx sy) * v).
    { cbn [SF2Q]. apply sgn_div. lra. }
    assert (Pv : 0 < v).
    { unfold v. apply Qlt_shift_div_l; lra. }
    rewrite E, Qabs_sgn in Ov by lra.
    apply (rounds_to_ext _ _ _ (Qeq_sym _ _ E)).
    destruct (SFdiv_core_binary prec emax (Z.pos mx) ex (Z.pos my) ey) as [[q ez] lz].
    destruct C as (Hq & Hn & Lv & Uv).
    now apply rounds_to_signed.
Qed.

End Quotients.

Section Order.
Local Open Scope Q_scope.

Lemma finite_lt_exponent (s1 s2 : bool) (m1 m2 : positive) (e1 e2 : Z) :
  valid_binary (S754_finite s1 m1 e1) = true ->
  valid_binary (S754_finite s2 m2 e2) = true ->
  (e1 < e2)%Z ->
  inject_Z (Z.pos m1) * pow2 e1 < inject_Z (Z.pos m2) * pow2 e2.
Proof.
  intros V1 V2 H. apply valid_finite in V1 as [V1 _], V2 as [V2 _].
  pose proof (inject_Z_pos_bounds (Z.pos m1) ltac:(lia)) as [_ U1].
  pose proof (inject_Z_pos_bounds (Z.pos m2) ltac:(lia)) as [L2 _].
  assert (D2 : Zdigits2 (Z.pos m2) = 53%Z) by lia.
  assert (D1 : (Zdigits2 (Z.pos m1) <= 53)%Z) by lia.
  rewrite D2 in L2. change (53 - 1)%Z with 52%Z in L2.
  pose proof (pow2_le _ _ D1) as P1.
  pose proof (pow2_pos e1). pose proof (pow2_pos e2).
  assert (P : pow2 (53 + e1) <= pow2 (52 + e2)) by (apply pow2_le; lia).
  rewrite !pow2_add in P.
  apply Qlt_le_trans with (pow2 53 * pow2 e1); [apply Qmult_lt_compat_r; lra|].
  apply Qle_trans with (pow2 52 * pow2 e2); [exact P|].
  apply Qmult_le_compat_r; lra.
Qed.

Lemma finite_lt_mantissa (m1 m2 : positive) (e : Z) :
  (m1 < m2)%positive -> inject_Z (Z.pos m1) * pow2 e < inject_Z (Z.pos m2) * pow2 e.
Proof.
  intros H. pose proof (pow2_pos e).
  apply Qmult_lt_compat_r; [lra|]. rewrite <- Zlt_Qlt. lia.
Qed.

Lemma Qcompare_Lt (u v : Q) : u < v -> Some Lt = Some (u ?= v).
Proof. intros H. f_equal. symmetry. now apply Qlt_alt. Qed.

Lemma Qcompare_Gt (u v : Q) : v < u -> Some Gt = Some (u ?= v).
Proof. intros H. f_equal. symmetry. now apply Qgt_alt. Qed.

Lemma Qcompare_Eq (u v : Q) : u == v -> Some Eq = Some (u ?= v).
Proof. intros H. f_equal. symmetry. now apply Qeq_alt. Qed.

(** On finite floats, [SFcompare] is the order of the rationals. *)
Lemma SFcompare_Q (x y : spec_float) :
  valid_binary x = true -> valid_binary y = true ->
  SFfinite x = true -> SFfinite y = true ->
  SFcompare x y = Some (SF2Q x ?= SF2Q y).
Proof.
  intros Vx Vy Fx Fy.
  destruct x as [sx|sx| |sx mx ex], y as [sy|sy| |sy my ey]; try discriminate;
    cbn [SFcompare SF2Q].
  - reflexivity.
  - pose proof (magnitude_pos my ey).
    destruct sy; unfold sgn; [apply Qcompare_Gt | apply Qcompare_Lt]; lra.
  - pose proof (magnitude_pos mx ex).
    destruct sx; unfold sgn; [apply Qcompare_Lt | apply Qcompare_Gt]; lra.
  - pose proof (magnitude_pos mx ex). pose proof (magnitude_pos my ey).
    change (Pos.compare_cont Eq mx my) with (Pos.compare mx my).
    destruct sx, sy; unfold sgn.
    + destruct (Z.compare_spec ex ey) as [E|L|G].
      * subst ey. destruct (Pos.compare_spec mx my) as [E|L|G]; cbn [CompOpp].
        -- subst my. apply Qcompare_Eq. reflexivity.
        -- apply Qcompare_Gt. pose proof (finite_lt_mantissa mx my ex L). lra.
        -- apply Qcompare_Lt. pose proof (finite_lt_mantissa my mx ex G). lra.
      * apply Qcompare_Gt. pose proof (finite_lt_exponent _ _ _ _ _ _ Vx Vy L). lra.
      * apply Qcompare_Lt. pose proof (finite_lt_exponent _ _ _ _ _ _ Vy Vx G). lra.
    + apply Qcompare_Lt. lra.
    + apply Qcompare_Gt. lra.
    + destruct (Z.compare_spec ex ey) as [E|L|G].
      * subst ey. destruct (Pos.compare_spec mx my) as [E|L|G].
        -- subst my. apply Qcompare_Eq. reflexivity.
        -- apply Qcompare_Lt. pose proof (finite_lt_mantissa mx my ex L). lra.
        -- apply Qcompare_Gt. pose proof (finite_lt_mantissa my mx ex G). lra.
      * apply Qcompare_Lt. pose proof (finite_lt_exponent _ _ _ _ _ _ Vx Vy L). lra.
      * apply Qcompare_Gt. pose proof (finite_lt_exponent _ _ _ _ _ _ Vy Vx G). lra.
Qed.

Lemma SFltb_Q (x y : spec_float) :
  valid_binary x = true -> valid_binary y = true ->
  SFfinite x = true -> SFfinite y = true ->
  SFltb x y = true <-> SF2Q x < SF2Q y.
Proof.
  intros Vx Vy Fx Fy. unfold SFltb. rewrite (SFcompare_Q x y Vx Vy Fx Fy), Qlt_alt.
  destruct (SF2Q x ?= SF2Q y); split; intros; try reflexivity; discriminate.
Qed.

Lemma SFleb_Q (x y : spec_float) :
  valid_binary x = true -> valid_binary y = true ->
  SFfinite x = true -> SFfinite y = true ->
  SFleb x y = true <-> SF2Q x <= SF2Q y.
Proof.
  intros Vx Vy Fx Fy. unfold SFleb. rewrite (SFcompare_Q x y Vx Vy Fx Fy), Qle_alt.
  destruct (SF2Q x ?= SF2Q y); split; intros; try reflexivity; try discriminate;
    congruence.
Qed.

Lemma SFabs_Q (x : spec_float) : SF2Q (SFabs x) == Qabs (SF2Q x).
Proof.
  destruct x as [s|s| |s m e]; cbn [SFabs SF2Q]; try reflexivity.
  pose proof (magnitude_pos m e). rewrite Qabs_sgn by lra. unfold sgn. ring.
Qed.

Lemma SFabs_finite (x : spec_float) : SFfinite (SFabs x) = SFfinite x.
Proof. now destruct x. Qed.

End Order.

(** *** The primitive floats *)

Section Floats.
Local Open Scope Q_scope.

Definition F2Q (u : float) : Q := SF2Q (Prim2SF u).

Definition finite (u : float) : Prop := SFfinite (Prim2SF u) = true.

(** The distance a rounded result may have from the exact one. *)
Definition ulps (v : Q) : Q := pow2 (-52) * Qabs v + pow2 (-1074).

Lemma mul_rounds (u v : float) :
  finite u -> finite v -> Qabs (F2Q u * F2Q v) < pow2 1023 ->
  finite (u * v) /\ Qabs (F2Q (u * v) - F2Q u * F2Q v) <= ulps (F2Q u * F2Q v).
Proof.
  intros Fu Fv Ov. unfold finite, F2Q. rewrite mul_spec.
  apply SFmul_rounds; auto using Prim2SF_valid.
Qed.

Lemma add_rounds (u v : float) :
  finite u -> finite v -> Qabs (F2Q u + F2Q v) < pow2 1023 ->
  finite (u + v) /\ Qabs (F2Q (u + v) - (F2Q u + F2Q v)) <= ulps (F2Q u + F2Q v).
Proof.
  intros Fu Fv Ov. unfold finite, F2Q. rewrite add_spec.
  apply SFadd_rounds; auto.
Qed.

Lemma sub_rounds (u v : float) :
  finite u -> finite v -> Qabs (F2Q u - F2Q v) < pow2 1023 ->
  finite (u - v) /\ Qabs (F2Q (u - v) - (F2Q u - F2Q v)) <= ulps (F2Q u - F2Q v).
Proof.
  intros Fu Fv Ov. unfold finite, F2Q. rewrite sub_spec.
  apply SFsub_rounds; auto.
Qed.

Lemma div_rounds (u v : float) :
  finite u -> finite v -> ~ F2Q v == 0 -> Qabs (F2Q u / F2Q v) < pow2 1023 ->
  finite (u / v) /\ Qabs (F2Q (u / v) - F2Q u / F2Q v) <= ulps (F2Q u / F2Q v).
Proof.
  intros Fu Fv Nv Ov. unfold finite, F2Q. rewrite div_spec.
  apply SFdiv_rounds; auto using Prim2SF_valid.
Qed.

Lemma mul_exact (u v : float) :
  finite u -> finite v -> Qabs (F2Q u * F2Q v) < pow2 1023 ->
  representable (F2Q u * F2Q v) -> F2Q (u * v) == F2Q u * F2Q v.
Proof.
  intros Fu Fv Ov R. unfold F2Q. rewrite mul_spec.
  apply SFmul_exact; auto using Prim2SF_valid.
Qed.

Lemma add_exact (u v : float) :
  finite u -> finite v -> Qabs (F2Q u + F2Q v) < pow2 1023 ->
  representable (F2Q u + F2Q v) -> F2Q (u + v) == F2Q u + F2Q v.
Proof.
  intros Fu Fv Ov R. unfold F2Q. rewrite add_spec. apply SFadd_exact; auto.
Qed.

Lemma sub_exact (u v : float) :
  finite u -> finite v -> Qabs (F2Q u - F2Q v) < pow2 1023 ->
  representable (F2Q u - F2Q v) -> F2Q (u - v) == F2Q u - F2Q v.
Proof.
  intros Fu Fv Ov R. unfold F2Q. rewrite sub_spec. apply SFsub_exact; auto.
Qed.

Lemma ltb_Q (u v : float) : finite u -> finite v -> (u <? v)%float = true <-> F2Q u < F2Q v.
Proof. intros Fu Fv. rewrite ltb_spec. apply SFltb_Q; auto using Prim2SF_valid. Qed.

Lemma leb_Q (u v : float) : finite u -> finite v -> (u <=? v)%float = true <-> F2Q u <= F2Q v.
Proof. intros Fu Fv. rewrite leb_spec. apply SFleb_Q; auto using Prim2SF_valid. Qed.

Lemma abs_Q (u : float) : F2Q (abs u) == Qabs (F2Q u).
Proof. unfold F2Q. rewrite abs_spec. apply SFabs_Q. Qed.

Lemma abs_finite (u : float) : finite u -> finite (abs u).
Proof. unfold finite. now rewrite abs_spec, SFabs_finite. Qed.

End Floats.

(** *** Whole numbers *)

Section Integers.
Local Open Scope Q_scope.

Lemma representable_int (n : Z) : (Z.abs n < 2 ^ 53)%Z -> representable (inject_Z n).
Proof.
  intros H. destruct (Z.eq_dec n 0) as [->|N].
  - exists (S754_zero false). repeat split; reflexivity.
  - set (p := Z.abs n). set (d := Zdigits2 p).
    assert (Hp : (0 < p)%Z) by (unfold p; lia).
    pose proof (Zdigits2_bounds p Hp) as B. fold d in B.
    assert (Hd : (1 <= d <= 53)%Z).
    { split.
      - destruct (Z_lt_le_dec d 1); [|assumption].
        pose proof (Zdigits2_nonneg p). fold d in H0.
        replace d with 0%Z in B by lia. simpl in B. lia.
      - destruct (Z_le_gt_dec d 53); [assumption|].
        assert (2 ^ 53 <= 2 ^ (d - 1))%Z by (apply Z.pow_le_mono_r; lia).
        unfold p in *. lia. }
    set (M := (p * 2 ^ (53 - d))%Z).
    assert (PM : (0 < M)%Z).
    { unfold M. apply Z.mul_pos_pos; [exact Hp | apply Z.pow_pos_nonneg; lia]. }
    exists (S754_finite (n <? 0)%Z (Z.to_pos M) (d - 53)).
    assert (DM : Zdigits2 (Z.pos (Z.to_pos M)) = 53%Z).
    { rewrite Z2Pos.id by exact PM. unfold M.
      rewrite Zdigits2_mul_pow2 by lia. fold d. lia. }
    split; [|split].
    + unfold valid_binary, bounded, canonical_mantissa.
      change (Z.pos (digits2_pos (Z.to_pos M))) with (Zdigits2 (Z.pos (Z.to_pos M))).
      rewrite DM, fexp_eq. change (Z.sub emax prec) with 971%Z.
      apply andb_true_iff. split; [apply Z.eqb_eq | apply Z.leb_le]; lia.
    + reflexivity.
    + cbn [SF2Q]. rewrite Z2Pos.id by exact PM. unfold M.
      rewrite inject_Z_mult, <- pow2_Z by lia.
      rewrite <- Qmult_assoc, <- pow2_add.
      replace (53 - d + (d - 53))%Z with 0%Z by lia.
      change (pow2 0) with 1.
      unfold p. destruct (Z.ltb_spec n 0) as [L|L]; unfold sgn.
      * rewrite Z.abs_neq by lia. rewrite inject_Z_opp. ring.
      * rewrite Z.abs_eq by lia. ring.
Qed.

(** The float [u] is the whole number [n]. *)
Definition is_int (u : float) (n : Z) : Prop := finite u /\ F2Q u == inject_Z n.

Lemma inject_Z_lt_pow2 (n k : Z) : (0 <= k)%Z -> (Z.abs n < 2 ^ k)%Z -> Qabs (inject_Z n) < pow2 k.
Proof.
  intros Hk H. rewrite pow2_Z by exact Hk.
  apply Qabs_Qlt_condition. rewrite <- inject_Z_opp, <- !Zlt_Qlt. lia.
Qed.

Lemma int_no_overflow (n : Z) : (Z.abs n < 2 ^ 53)%Z -> Qabs (inject_Z n) < pow2 1023.
Proof.
  intros H. apply Qlt_trans with (pow2 53); [now apply inject_Z_lt_pow2|].
  now apply pow2_lt.
Qed.

Lemma int_add (u v : float) (n m : Z) :
  is_int u n -> is_int v m -> (Z.abs (n + m) < 2 ^ 53)%Z -> is_int (u + v) (n + m).
Proof.
  intros [Fu Eu] [Fv Ev] H.
  assert (E : F2Q u + F2Q v == inject_Z (n + m)) by (rewrite Eu, Ev, inject_Z_plus; reflexivity).
  assert (Ov : Qabs (F2Q u + F2Q v) < pow2 1023) by (rewrite E; now apply int_no_overflow).
  split; [now apply add_rounds|].
  rewrite add_exact; auto.
  apply (representable_ext _ _ (Qeq_sym _ _ E)). now apply representable_int.
Qed.

Lemma int_sub (u v : float) (n m : Z) :
  is_int u n -> is_int v m -> (Z.abs (n - m) < 2 ^ 53)%Z -> is_int (u - v) (n - m).
Proof.
  intros [Fu Eu] [Fv Ev] H.
  assert (E : F2Q u - F2Q v == inject_Z (n - m)).
  { rewrite Eu, Ev. unfold Z.sub. rewrite inject_Z_plus, inject_Z_opp. reflexivity. }
  assert (Ov : Qabs (F2Q u - F2Q v) < pow2 1023) by (rewrite E; now apply int_no_overflow).
  split; [now apply sub_rounds|].
  rewrite sub_exact; auto.
  apply (representable_ext _ _ (Qeq_sym _ _ E)). now apply representable_int.
Qed.

Lemma int_mul (u v : float) (n m : Z) :
  is_int u n -> is_int v m -> (Z.abs (n * m) < 2 ^ 53)%Z -> is_int (u * v) (n * m).
Proof.
  intros [Fu Eu] [Fv Ev] H.
  assert (E : F2Q u * F2Q v == inject_Z (n * m)) by (rewrite Eu, Ev, inject_Z_mult; reflexivity).
  assert (Ov : Qabs (F2Q u * F2Q v) < pow2 1023) by (rewrite E; now apply int_no_overflow).
  split; [now apply mul_rounds|].
  rewrite mul_exact; auto.
  apply (representable_ext _ _ (Qeq_sym _ _ E)). now apply representable_int.
Qed.

End Integers.

(** ** binary64: error bounds along a computation *)

Section Approximation.
Local Open Scope Q_scope.

(** 2^-52 and a bound on the least subnormal 2^-1074, as numbers. *)
Definition u52 : Q := 1 # 4503599627370496.
Definition eta : Q := 1 # 1267650600228229401496703205376.

(** Results up to 2^64 in magnitude are far from overflow. *)
Definition big : Q := 18446744073709551616.

Lemma ulps_le (v : Q) : ulps v <= u52 * Qabs v + eta.
Proof.
  unfold ulps.
  assert (E : pow2 (-52) == u52) by reflexivity.
  assert (L : pow2 (-1074) <= eta) by (vm_compute; discriminate).
  rewrite E. lra.
Qed.

Lemma big_no_overflow (v : Q) : v <= big -> v < pow2 1023.
Proof.
  intros H. apply Qle_lt_trans with big; [exact H|].
  change big with (inject_Z (2 ^ 64)). rewrite <- pow2_Z by lia. now apply pow2_lt.
Qed.

Lemma Qabs_mult_le (p q P R : Q) : Qabs p <= P -> Qabs q <= R -> Qabs (p * q) <= P * R.
Proof.
  intros Hp Hq. rewrite Qabs_Qmult.
  pose proof (Qabs_nonneg p). pose proof (Qabs_nonneg q). nra.
Qed.

Lemma Qabs_le_add (p d P : Q) (q : Q) : Qabs (q - p) <= d -> Qabs p <= P -> Qabs q <= P + d.
Proof.
  intros H1 H2. apply Qabs_Qle_condition in H1, H2. apply Qabs_Qle_condition. lra.
Qed.

(** The float [f] is finite and within [d] of the number [v], which is at
    most [M] in magnitude. *)
Definition approx (f : float) (v d M : Q) : Prop :=
  finite f /\ Qabs (F2Q f - v) <= d /\ Qabs v <= M.

Lemma approx_ext (f : float) (v w d M : Q) : v == w -> approx f v d M -> approx f w d M.
Proof. intros E (F & D & B). repeat split; [exact F | now rewrite <- E | now rewrite <- E]. Qed.

Lemma approx_weaken (f : float) (v d d' M M' : Q) :
  d <= d' -> Qabs v <= M' -> approx f v d M -> approx f v d' M'.
Proof. intros Hd HM (F & D & B). repeat split; [exact F | lra | exact HM]. Qed.

Lemma approx_int (f : float) (n N : Z) :
  is_int f n -> (Z.abs n <= N)%Z -> approx f (inject_Z n) 0 (inject_Z N).
Proof.
  intros [F E] H. repeat split; [exact F | |].
  - rewrite E. setoid_replace (inject_Z n - inject_Z n) with 0 by ring. discriminate.
  - apply Qabs_Qle_condition. rewrite <- inject_Z_opp, <- !Zle_Qle. lia.
Qed.

Lemma approx_mul (f g : float) (p q dp dq P R : Q) :
  approx f p dp P -> approx g q dq R ->
  (P + dp) * (R + dq) <= big ->
  approx (f * g) (p * q) (dp * (R + dq) + P * dq + u52 * ((P + dp) * (R + dq)) + eta) (P * R).
Proof.
  intros (Ff & Df & Bf) (Fg & Dg & Bg) Hb.
  pose proof (Qabs_le_add _ _ _ _ Df Bf) as Mf.
  pose proof (Qabs_le_add _ _ _ _ Dg Bg) as Mg.
  pose proof (Qabs_mult_le _ _ _ _ Mf Mg) as Mfg.
  destruct (mul_rounds f g Ff Fg) as [F E].
  { apply big_no_overflow. lra. }
  split; [exact F|]. split; [|now apply Qabs_mult_le].
  pose proof (ulps_le (F2Q f * F2Q g)) as U.
  assert (S : Qabs (F2Q f * F2Q g - p * q) <= dp * (R + dq) + P * dq).
  { setoid_replace (F2Q f * F2Q g - p * q)
      with ((F2Q f - p) * F2Q g + p * (F2Q g - q)) by ring.
    eapply Qle_trans; [apply Qabs_triangle|].
    pose proof (Qabs_mult_le _ _ _ _ Df Mg). pose proof (Qabs_mult_le _ _ _ _ Bf Dg). lra. }
  setoid_replace (F2Q (f * g) - p * q)
    with ((F2Q (f * g) - F2Q f * F2Q g) + (F2Q f * F2Q g - p * q)) by ring.
  eapply Qle_trans; [apply Qabs_triangle|].
  assert (0 <= u52) by discriminate. nra.
Qed.

Lemma approx_add (f g : float) (p q dp dq P R : Q) :
  approx f p dp P -> approx g q dq R ->
  P + dp + (R + dq) <= big ->
  approx (f + g) (p + q) (dp + dq + u52 * (P + dp + (R + dq)) + eta) (P + R).
Proof.
  intros (Ff & Df & Bf) (Fg & Dg & Bg) Hb.
  pose proof (Qabs_le_add _ _ _ _ Df Bf) as Mf.
  pose proof (Qabs_le_add _ _ _ _ Dg Bg) as Mg.
  assert (Mfg : Qabs (F2Q f + F2Q g) <= P + dp + (R + dq)).
  { eapply Qle_trans; [apply Qabs_triangle|]. lra. }
  destruct (add_rounds f g Ff Fg) as [F E].
  { apply big_no_overflow. lra. }
  split; [exact F|]. split.
  - pose proof (ulps_le (F2Q f + F2Q g)) as U.
    setoid_replace (F2Q (f + g) - (p + q))
      with ((F2Q (f + g) - (F2Q f + F2Q g)) + ((F2Q f - p) + (F2Q g - q))) by ring.
    eapply Qle_trans; [apply Qabs_triangle|].
    pose proof (Qabs_triangle (F2Q f - p) (F2Q g - q)).
    assert (0 <= u52) by discriminate. nra.
  - eapply Qle_trans; [apply Qabs_triangle|]. lra.
Qed.

Lemma approx_sub (f g : float) (p q dp dq P R : Q) :
  approx f p dp P -> approx g q dq R ->
  P + dp + (R + dq) <= big ->
  approx (f - g) (p - q) (dp + dq + u52 * (P + dp + (R + dq)) + eta) (P + R).
Proof.
  intros (Ff & Df & Bf) (Fg & Dg & Bg) Hb.
  pose proof (Qabs_le_add _ _ _ _ Df Bf) as Mf.
  pose proof (Qabs_le_add _ _ _ _ Dg Bg) as Mg.
  assert (T : forall s t, Qabs (s - t) <= Qabs s + Qabs t).
  { intros s t. setoid_replace (s - t) with (s + - t) by ring.
    eapply Qle_trans; [apply Qabs_triangle|]. rewrite Qabs_opp. lra. }
  assert (Mfg : Qabs (F2Q f - F2Q g) <= P + dp + (R + dq)).
  { eapply Qle_trans; [apply T|]. lra. }
  destruct (sub_rounds f g Ff Fg) as [F E].
  { apply big_no_overflow. lra. }
  split; [exact F|]. split.
  - pose proof (ulps_le (F2Q f - F2Q g)) as U.
    setoid_replace (F2Q (f - g) - (p - q))
      with ((F2Q (f - g) - (F2Q f - F2Q g)) + ((F2Q f - p) - (F2Q g - q))) by ring.
    eapply Qle_trans; [apply Qabs_triangle|].
    pose proof (T (F2Q f - p) (F2Q g - q)).
    assert (0 <= u52) by discriminate. nra.
  - eapply Qle_trans; [apply T|]. lra.
Qed.

(** The quotient of two whole numbers. *)
Lemma approx_int_div (f g : float) (n m N : Z) :
  is_int f n -> is_int g m -> m <> 0%Z -> (Z.abs n <= N)%Z -> (N <= 2 ^ 60)%Z ->
  approx (f / g) (inject_Z n / inject_Z m) (u52 * inject_Z N + eta) (inject_Z N).
Proof.
  intros [Ff Ef] [Fg Eg] Hm Hn HN.
  assert (Nm : ~ inject_Z m == 0).
  { change 0 with (inject_Z 0). rewrite inject_Z_injective. exact Hm. }
  assert (B : Qabs (inject_Z n / inject_Z m) <= inject_Z N).
  { unfold Qdiv. rewrite Qabs_Qmult, Qabs_Qinv.
    assert (1 <= Qabs (inject_Z m)).
    { apply Qabs_case; intros; [|rewrite <- inject_Z_opp];
        change 1 with (inject_Z 1); rewrite <- Zle_Qle;
        change 0 with (inject_Z 0) in *; rewrite <- Zle_Qle in *; lia. }
    assert (Qabs (inject_Z n) <= inject_Z N).
    { apply Qabs_Qle_condition. rewrite <- inject_Z_opp, <- !Zle_Qle. lia. }
    pose proof (Qabs_nonneg (inject_Z n)).
    apply Qle_shift_div_r; [lra|]. nra. }
  assert (NB : inject_Z N <= big).
  { change big with (inject_Z (2 ^ 64)). rewrite <- Zle_Qle. lia. }
  destruct (div_rounds f g Ff Fg) as [F E].
  { now rewrite Eg. }
  { rewrite Ef, Eg. apply big_no_overflow. lra. }
  pose proof (ulps_le (F2Q f / F2Q g)) as U.
  assert (E' : Qabs (F2Q (f / g) - F2Q f / F2Q g) <= u52 * Qabs (F2Q f / F2Q g) + eta) by lra.
  rewrite Ef, Eg in E'.
  split; [exact F|]. split; [|exact B].
  assert (0 <= u52) by discriminate. nra.
Qed.

End Approximation.

(** ** binary64: the round trip of [lineIntersection], for small whole
    coefficients *)

Section RoundTrip.
Local Open Scope Q_scope.

Lemma EPSILON_finite : finite (@EPSILON binary64).
Proof. reflexivity. Qed.

Lemma EPSILON_above : 1 # 1048576 < F2Q (@EPSILON binary64).
Proof. vm_compute. reflexivity. Qed.

Lemma areEqual_zero (u : float) :
  @C.areEqual binary64 u 0%float = (abs u <? @EPSILON binary64)%float.
Proof. unfold C.areEqual. cbn [dsub dltb fabs binary64]. now rewrite sub_zero_r. Qed.

Lemma areEqual_zero_iff (u : float) :
  finite u -> @C.areEqual binary64 u 0%float = true <-> Qabs (F2Q u) < F2Q (@EPSILON binary64).
Proof.
  intros F. rewrite areEqual_zero, ltb_Q, abs_Q; [reflexivity | now apply abs_finite | exact EPSILON_finite].
Qed.

(** The coefficients of [line] are whole numbers, [a] and [b] at most 256
    and [c] at most 4096 in magnitude. *)
Definition small_line (line : @Line binary64) : Prop :=
  exists na nb nc : Z,
    is_int (a line) na /\ is_int (b line) nb /\ is_int (c line) nc
    /\ (Z.abs na <= 256)%Z /\ (Z.abs nb <= 256)%Z /\ (Z.abs nc <= 4096)%Z.

(** The residual of a line equation at a point that solves it exactly,
    computed from the rounded point. *)
Lemma residual_small (la lb lc u v : float) (na nb nc : Z) (X Y : Q) :
  is_int la na -> is_int lb nb -> is_int lc nc ->
  (Z.abs na <= 256)%Z -> (Z.abs nb <= 256)%Z -> (Z.abs nc <= 4096)%Z ->
  approx u X (u52 * inject_Z 2097152 + eta) (inject_Z 2097152) ->
  approx v Y (u52 * inject_Z 2097152 + eta) (inject_Z 2097152) ->
  inject_Z na * X + inject_Z nb * Y + inject_Z nc == 0 ->
  C.lineContains {| a := la; b := lb; c := lc |} {| x := u; y := v |} = true.
Proof.
  intros Ia Ib Ic Ha Hb Hc Ax Ay E.
  unfold C.lineContains. cbn [a b c x y dadd dmul dzero binary64].
  pose proof (approx_int _ _ _ Ia Ha) as Aa.
  pose proof (approx_int _ _ _ Ib Hb) as Ab.
  pose proof (approx_int _ _ _ Ic Hc) as Ac.
  pose proof (approx_mul _ _ _ _ _ _ _ _ Aa Ax ltac:(vm_compute; discriminate)) as T1.
  pose proof (approx_mul _ _ _ _ _ _ _ _ Ab Ay ltac:(vm_compute; discriminate)) as T2.
  pose proof (approx_add _ _ _ _ _ _ _ _ T1 T2 ltac:(vm_compute; discriminate)) as S.
  assert (Es : Qabs (inject_Z na * X + inject_Z nb * Y) <= inject_Z 4096).
  { setoid_replace (inject_Z na * X + inject_Z nb * Y) with (- inject_Z nc) by lra.
    rewrite Qabs_opp. apply Ac. }
  apply (approx_weaken _ _ _ _ _ _ (Qle_refl _) Es) in S.
  pose proof (approx_add _ _ _ _ _ _ _ _ S Ac ltac:(vm_compute; discriminate)) as R.
  apply (approx_ext _ _ _ _ _ E) in R.
  destruct R as (F & D & _).
  apply areEqual_zero_iff; [exact F|].
  eapply Qle_lt_trans; [|exact EPSILON_above].
  setoid_replace (F2Q (la * u + lb * v + lc)%float)
    with (F2Q (la * u + lb * v + lc)%float - 0) by ring.
  eapply Qle_trans; [exact D|]. vm_compute. discriminate.
Qed.

Lemma small_determinant (line1 line2 : @Line binary64) (na1 nb1 na2 nb2 : Z) :
  is_int (a line1) na1 -> is_int (b line1) nb1 ->
  is_int (a line2) na2 -> is_int (b line2) nb2 ->
  (Z.abs na1 <= 256)%Z -> (Z.abs nb1 <= 256)%Z ->
  (Z.abs na2 <= 256)%Z -> (Z.abs nb2 <= 256)%Z ->
  is_int (a line1 * b line2 - a line2 * b line1)%float (na1 * nb2 - na2 * nb1).
Proof.
  intros. apply int_sub; [apply int_mul | apply int_mul |]; try assumption; nia.
Qed.

Lemma small_numerator (p q r s : float) (np nq nr ns : Z) :
  is_int p np -> is_int q nq -> is_int r nr -> is_int s ns ->
  (Z.abs np <= 256)%Z -> (Z.abs nq <= 4096)%Z ->
  (Z.abs nr <= 256)%Z -> (Z.abs ns <= 4096)%Z ->
  is_int (p * q - r * s)%float (np * nq - nr * ns)
  /\ (Z.abs (np * nq - nr * ns) <= 2097152)%Z.
Proof.
  intros. split; [|nia].
  apply int_sub; [apply int_mul | apply int_mul |]; try assumption; nia.
Qed.

(** What a returned point tells: the determinant is a whole number other
    than zero, and the point is the rounded solution. *)
Lemma small_lineIntersection (line1 line2 : @Line binary64) (r : Point) :
  small_line line1 -> small_line line2 ->
  C.lineIntersection line1 line2 = Some r ->
  C.lineContains line1 r = true /\ C.lineContains line2 r = true.
Proof.
  intros (na1 & nb1 & nc1 & Ia1 & Ib1 & Ic1 & Ha1 & Hb1 & Hc1)
         (na2 & nb2 & nc2 & Ia2 & Ib2 & Ic2 & Ha2 & Hb2 & Hc2).
  unfold C.lineIntersection. cbn [dsub dmul ddiv dzero binary64].
  pose proof (small_determinant line1 line2 _ _ _ _ Ia1 Ib1 Ia2 Ib2 Ha1 Hb1 Ha2 Hb2) as Id.
  set (det := (a line1 * b line2 - a line2 * b line1)%float) in *.
  set (nd := (na1 * nb2 - na2 * nb1)%Z) in *.
  destruct (@C.areEqual binary64 det 0%float) eqn:G; [discriminate|].
  intros H. inversion H; subst r; clear H.
  assert (Nd : nd <> 0%Z).
  { intros Z. rewrite Z in Id. destruct Id as [Fd Ed].
    assert (T : @C.areEqual binary64 det 0%float = true).
    { apply areEqual_zero_iff; [exact Fd|]. rewrite Ed.
      eapply Qlt_trans; [|exact EPSILON_above]. reflexivity. }
    congruence. }
  destruct (small_numerator _ _ _ _ _ _ _ _ Ib1 Ic2 Ib2 Ic1 Hb1 Hc2 Hb2 Hc1) as [Ix Bx].
  destruct (small_numerator _ _ _ _ _ _ _ _ Ia2 Ic1 Ia1 Ic2 Ha2 Hc1 Ha1 Hc2) as [Iy By].
  pose proof (approx_int_div _ _ _ _ _ Ix Id Nd Bx ltac:(lia)) as Ax.
  pose proof (approx_int_div _ _ _ _ _ Iy Id Nd By ltac:(lia)) as Ay.
  assert (NQ : ~ inject_Z na1 * inject_Z nb2 - inject_Z na2 * inject_Z nb1 == 0).
  { intros Z. apply Nd. apply inject_Z_injective. unfold nd, Z.sub.
    rewrite inject_Z_plus, inject_Z_opp, !inject_Z_mult. change (inject_Z 0) with 0. lra. }
  split.
  - destruct line1 as [la lb lc]. cbn [a b c] in *.
    apply (residual_small la lb lc _ _ na1 nb1 nc1 _ _ Ia1 Ib1 Ic1 Ha1 Hb1 Hc1 Ax Ay).
    unfold nd, Z.sub. rewrite !inject_Z_plus, !inject_Z_opp, !inject_Z_mult.
    field. lra.
  - destruct line2 as [la lb lc]. cbn [a b c] in *.
    apply (residual_small la lb lc _ _ na2 nb2 nc2 _ _ Ia2 Ib2 Ic2 Ha2 Hb2 Hc2 Ax Ay).
    unfold nd, Z.sub. rewrite !inject_Z_plus, !inject_Z_opp, !inject_Z_mult.
    field. lra.
Qed.

(** C8, as the programs have it.  For two lines whose coefficients are
    whole numbers, [a] and [b] at most 256 and [c] at most 4096 in
    magnitude, every point [lineIntersection] returns passes
    [lineContains] on both lines.  Both programs, on binary64. *)
Theorem line_intersection_round_trip_small (line1 line2 : @Line binary64) (r : Point) :
  small_line line1 -> small_line line2 ->
  (C.lineIntersection line1 line2 = Some r ->
     C.lineContains line1 r = true /\ C.lineContains line2 r = true)
  /\ (Cpp.Line_intersection line1 line2 = Some r ->
     Cpp.Line_contains line1 r = true /\ Cpp.Line_contains line2 r = true).
Proof.
  intros S1 S2. split; [now apply small_lineIntersection|].
  change (Cpp.Line_intersection line1 line2) with (C.lineIntersection line1 line2).
  change (@Cpp.Line_contains binary64) with (@C.lineContains binary64).
  now apply small_lineIntersection.
Qed.

End RoundTrip.

(** The line through (0,0) and (1,1) and the line through (2,0) and (0,5). *)
Definition diagonal1 : @Line binary64 := C.createLine (point 0 0) (point 1 1).
Definition slanted5 : @Line binary64 := C.createLine (point 2 0) (point 0 5).

Lemma diagonal1_small : small_line diagonal1.
Proof.
  exists 1%Z, (-1)%Z, 0%Z.
  repeat split; try reflexivity; try lia; vm_compute; reflexivity.
Qed.

Lemma slanted5_small : small_line slanted5.
Proof.
  exists 5%Z, 2%Z, (-10)%Z.
  repeat split; try reflexivity; try lia; vm_compute; reflexivity.
Qed.

Lemma line_intersection_round_trip_small_witness :
  exists r, C.lineIntersection diagonal1 slanted5 = Some r
    /\ (C.lineContains diagonal1 r = true /\ C.lineContains slanted5 r = true)
    /\ (Cpp.Line_contains diagonal1 r = true /\ Cpp.Line_contains slanted5 r = true).
Proof.
  destruct (C.lineIntersection diagonal1 slanted5) as [r|] eqn:E;
    [|vm_compute in E; discriminate].
  exists r. split; [reflexivity|].
  destruct (line_intersection_round_trip_small diagonal1 slanted5 r
              diagonal1_small slanted5_small) as [H1 H2].
  split; [apply H1 | apply H2]; exact E.
Defined.

(** ** binary64: polygons with whole coordinates *)

(** [lia] after every [|n| <= K] has been split into its two bounds. *)
Ltac abs_lia :=
  repeat match goal with
         | H : (Z.abs _ <= _)%Z |- _ => apply Z.abs_le in H
         | H : (Z.abs _ < _)%Z |- _ => apply Z.abs_lt in H
         | |- (Z.abs _ <= _)%Z => apply Z.abs_le
         | |- (Z.abs _ < _)%Z => apply Z.abs_lt
         end;
  lia.

Section WholePoints.
Local Open Scope Q_scope.

Lemma finite_not_nan (u : float) : finite u -> is_nan u = false.
Proof. unfold finite. rewrite is_nan_spec. now destruct (Prim2SF u). Qed.

(** On finite floats [fmin] and [fmax] pick the smaller and the larger. *)
Lemma fmin_fmax_cases (u v : float) :
  finite u -> finite v ->
  (F2Q u < F2Q v /\ c_fmin u v = u /\ c_fmax u v = v)
  \/ (F2Q v <= F2Q u /\ c_fmin u v = v /\ c_fmax u v = u).
Proof.
  intros Fu Fv. unfold c_fmin, c_fmax.
  rewrite (finite_not_nan u Fu), (finite_not_nan v Fv).
  destruct (u <? v)%float eqn:E.
  - left. apply ltb_Q in E; auto.
  - right. split; [|auto]. apply Qnot_lt_le. intros H.
    apply ltb_Q in H; auto. congruence.
Qed.

(** [w] lies between [u] and [v], in either order. *)
Definition between (u v w : Q) : Prop := (u <= w <= v) \/ (v <= w <= u).

Lemma bounds_between (u v w : float) :
  finite u -> finite v -> finite w ->
  (c_fmin u v <=? w)%float && (w <=? c_fmax u v)%float = true
  <-> between (F2Q u) (F2Q v) (F2Q w).
Proof.
  intros Fu Fv Fw. unfold between.
  destruct (fmin_fmax_cases u v Fu Fv) as [(H & -> & ->)|(H & -> & ->)];
    rewrite andb_true_iff, !leb_Q by assumption; split; intros; lra.
Qed.

Lemma areEqual_iff (u v : float) :
  finite (u - v) ->
  @C.areEqual binary64 u v = true <-> Qabs (F2Q (u - v)) < F2Q (@EPSILON binary64).
Proof.
  intros F. unfold C.areEqual. cbn [dsub dltb fabs binary64].
  rewrite ltb_Q, abs_Q; [reflexivity | now apply abs_finite | exact EPSILON_finite].
Qed.

(** The coordinates of [p] are whole numbers of magnitude at most [K]. *)
Definition whole (K : Z) (p : @Point binary64) : Prop :=
  exists nx ny : Z, is_int (x p) nx /\ is_int (y p) ny /\ (Z.abs nx <= K)%Z /\ (Z.abs ny <= K)%Z.

(** The point [p] stands for, in exact coordinates. *)
Definition coords (p : @Point binary64) : Q * Q := (F2Q (x p), F2Q (y p)).

(** [p] lies on the closed segment from [q] to [r], exactly: on its line
    and inside its bounding box. *)
Definition on_line (q r p : Q * Q) : Prop :=
  (snd r - snd q) * fst p + (fst q - fst r) * snd p + (fst r * snd q - fst q * snd r) == 0.

Definition on_segment (q r p : Q * Q) : Prop :=
  on_line q r p /\ between (fst q) (fst r) (fst p) /\ between (snd q) (snd r) (snd p).

Definition same_point (p q : Q * Q) : Prop := fst p == fst q /\ snd p == snd q.

Lemma Zabs_mul_le (p q P R : Z) :
  (Z.abs p <= P)%Z -> (Z.abs q <= R)%Z -> (Z.abs (p * q) <= P * R)%Z.
Proof.
  intros Hp Hq. rewrite Z.abs_mul.
  apply Z.mul_le_mono_nonneg; try assumption; apply Z.abs_nonneg.
Qed.

Lemma Zabs_mul_le_sq (p q K : Z) :
  (K <= 2 ^ 25)%Z -> (Z.abs p <= K)%Z -> (Z.abs q <= K)%Z -> (Z.abs (p * q) <= 2 ^ 50)%Z.
Proof.
  intros HK Hp Hq. pose proof (Zabs_mul_le _ _ _ _ Hp Hq).
  pose proof (Z.abs_nonneg p).
  assert (K * K <= 2 ^ 25 * 2 ^ 25)%Z by (apply Z.mul_le_mono_nonneg; abs_lia).
  change (2 ^ 25 * 2 ^ 25)%Z with (2 ^ 50)%Z in *. abs_lia.
Qed.

(** The line through two whole points has whole coefficients, computed
    without rounding. *)
Lemma createLine_whole (K : Z) (q r : @Point binary64) (qx qy rx ry : Z) :
  (K <= 2 ^ 25)%Z ->
  is_int (x q) qx -> is_int (y q) qy -> is_int (x r) rx -> is_int (y r) ry ->
  (Z.abs qx <= K)%Z -> (Z.abs qy <= K)%Z ->
  (Z.abs rx <= K)%Z -> (Z.abs ry <= K)%Z ->
  is_int (a (C.createLine q r)) (ry - qy)
  /\ is_int (b (C.createLine q r)) (qx - rx)
  /\ is_int (c (C.createLine q r)) (rx * qy - qx * ry).
Proof.
  intros HK Iqx Iqy Irx Iry Hqx Hqy Hrx Hry.
  unfold C.createLine. cbn [a b c dsub dmul binary64].
  pose proof (Zabs_mul_le_sq _ _ _ HK Hrx Hqy).
  pose proof (Zabs_mul_le_sq _ _ _ HK Hqx Hry).
  split; [|split].
  - apply int_sub; try assumption; abs_lia.
  - apply int_sub; try assumption; abs_lia.
  - apply int_sub; [apply int_mul | apply int_mul |]; try assumption; abs_lia.
Qed.

Lemma is_int_zero (u : float) : is_int u 0 -> @C.areEqual binary64 u 0%float = true.
Proof.
  intros [F E]. apply areEqual_zero_iff; [exact F|]. rewrite E.
  eapply Qlt_trans; [|exact EPSILON_above]. reflexivity.
Qed.

Lemma EPSILON_below : F2Q (@EPSILON binary64) < 1.
Proof. vm_compute. reflexivity. Qed.

(** A whole number is within EPSILON of zero only if it is zero. *)
Lemma is_int_near_zero (u : float) (k : Z) :
  is_int u k -> @C.areEqual binary64 u 0%float = true <-> k = 0%Z.
Proof.
  intros I. split.
  - destruct I as [F E]. intros H. apply areEqual_zero_iff in H; [|exact F].
    rewrite E in H. destruct (Z.eq_dec k 0) as [Z|N]; [exact Z|exfalso].
    pose proof EPSILON_below.
    assert (1 <= Qabs (inject_Z k)).
    { apply Qabs_case; intros L; [|rewrite <- inject_Z_opp];
        change 1 with (inject_Z 1); rewrite <- Zle_Qle;
        change 0 with (inject_Z 0) in L; rewrite <- Zle_Qle in L; abs_lia. }
    lra.
  - intros ->. now apply is_int_zero.
Qed.

(** On whole coordinates up to 2^25 the line equation is evaluated without
    rounding. *)
Lemma residual_whole (q r p : @Point binary64) (qx qy rx ry px py : Z) :
  is_int (x q) qx -> is_int (y q) qy -> is_int (x r) rx -> is_int (y r) ry ->
  is_int (x p) px -> is_int (y p) py ->
  (Z.abs qx <= 2 ^ 25)%Z -> (Z.abs qy <= 2 ^ 25)%Z ->
  (Z.abs rx <= 2 ^ 25)%Z -> (Z.abs ry <= 2 ^ 25)%Z ->
  (Z.abs px <= 2 ^ 25)%Z -> (Z.abs py <= 2 ^ 25)%Z ->
  let line := C.createLine q r in
  is_int (a line * x p + b line * y p + c line)%float
         ((ry - qy) * px + (qx - rx) * py + (rx * qy - qx * ry)).
Proof.
  intros Iqx Iqy Irx Iry Ipx Ipy Hqx Hqy Hrx Hry Hpx Hpy line.
  destruct (createLine_whole (2 ^ 25) q r qx qy rx ry) as (Ia & Ib & Ic);
    try assumption; try abs_lia.
  fold line in Ia, Ib, Ic.
  assert (Ba : (Z.abs (ry - qy) <= 2 ^ 26)%Z) by abs_lia.
  assert (Bb : (Z.abs (qx - rx) <= 2 ^ 26)%Z) by abs_lia.
  pose proof (Zabs_mul_le _ _ _ _ Ba Hpx) as B1.
  pose proof (Zabs_mul_le _ _ _ _ Bb Hpy) as B2.
  pose proof (Zabs_mul_le_sq _ _ _ (Z.le_refl _) Hrx Hqy) as B3.
  pose proof (Zabs_mul_le_sq _ _ _ (Z.le_refl _) Hqx Hry) as B4.
  change (2 ^ 26 * 2 ^ 25)%Z with (2 ^ 51)%Z in *.
  apply int_add; [apply int_add; [apply int_mul | apply int_mul |] | |];
    try assumption; abs_lia.
Qed.

(** On whole coordinates up to 2^25, [segmentContains] is exact: it holds
    exactly for the points of the closed segment. *)
Lemma segmentContains_whole_iff (seg : @LineSegment binary64) (p : Point) :
  whole (2 ^ 25) (p1 seg) -> whole (2 ^ 25) (p2 seg) -> whole (2 ^ 25) p ->
  C.segmentContains seg p = true
  <-> on_segment (coords (p1 seg)) (coords (p2 seg)) (coords p).
Proof.
  intros (qx & qy & Iqx & Iqy & Hqx & Hqy) (rx & ry & Irx & Iry & Hrx & Hry)
         (px & py & Ipx & Ipy & Hpx & Hpy).
  pose proof (residual_whole (p1 seg) (p2 seg) p _ _ _ _ _ _ Iqx Iqy Irx Iry Ipx Ipy
                Hqx Hqy Hrx Hry Hpx Hpy) as Ires. cbv zeta in Ires.
  unfold C.segmentContains, C.lineContains. cbn [dadd dmul dzero dleb fmin fmax binary64].
  pose proof (is_int_near_zero _ _ Ires) as L.
  destruct Iqx as [Fqx Eqx], Iqy as [Fqy Eqy], Irx as [Frx Erx], Iry as [Fry Ery],
           Ipx as [Fpx Epx], Ipy as [Fpy Epy].
  assert (OL : on_line (coords (p1 seg)) (coords (p2 seg)) (coords p)
               <-> ((ry - qy) * px + (qx - rx) * py + (rx * qy - qx * ry))%Z = 0%Z).
  { unfold on_line, coords. cbn [fst snd]. rewrite Eqx, Eqy, Erx, Ery, Epx, Epy.
    rewrite <- inject_Z_injective. unfold Z.sub.
    rewrite !inject_Z_plus, !inject_Z_opp, !inject_Z_mult, !inject_Z_plus, !inject_Z_opp.
    change (inject_Z 0) with 0. split; intros H; rewrite <- H; ring. }
  unfold on_segment. rewrite OL, <- L.
  destruct (@C.areEqual binary64 _ 0%float); cbn [negb].
  - rewrite andb_true_iff, !bounds_between by assumption.
    unfold coords. cbn [fst snd]. tauto.
  - split; [discriminate | intros [H _]; discriminate].
Qed.

(** An end of a segment between whole points passes [segmentContains]. *)
Lemma segmentContains_end (q r : @Point binary64) :
  whole (2 ^ 25) q -> whole (2 ^ 25) r -> C.segmentContains (mkSegment q r) q = true.
Proof.
  intros Wq Wr. apply segmentContains_whole_iff; try assumption.
  cbn [p1 p2]. unfold on_segment, on_line, between, coords. cbn [fst snd].
  split; [ring|].
  split; [destruct (Qlt_le_dec (F2Q (x q)) (F2Q (x r))) | destruct (Qlt_le_dec (F2Q (y q)) (F2Q (y r)))]; lra.
Qed.

Lemma whole_weaken (K K' : Z) (p : @Point binary64) : (K <= K')%Z -> whole K p -> whole K' p.
Proof.
  intros H (nx & ny & Ix & Iy & Hx & Hy). exists nx, ny. repeat split; try apply Ix; try apply Iy; abs_lia.
Qed.

End WholePoints.

Section Crossing.
Local Open Scope Q_scope.

Lemma inject_Z_abs_ge_1 (k : Z) : k <> 0%Z -> 1 <= Qabs (inject_Z k).
Proof.
  intros H. apply Qabs_case; intros L; [|rewrite <- inject_Z_opp];
    change 1 with (inject_Z 1); rewrite <- Zle_Qle;
    change 0 with (inject_Z 0) in L; rewrite <- Zle_Qle in L; abs_lia.
Qed.

Lemma inject_Z_abs_le (k K : Z) : (Z.abs k <= K)%Z -> Qabs (inject_Z k) <= inject_Z K.
Proof. intros H. apply Qabs_Qle_condition. rewrite <- inject_Z_opp, <- !Zle_Qle. abs_lia. Qed.

(** A quotient of whole numbers that exceeds a whole number [m] does so by
    at least the reciprocal of the divisor, which is more than rounding
    can bridge: if the rounded quotient is at most [m], so is the
    quotient. *)
Lemma rounded_quotient_le (t : Q) (n d m : Z) :
  d <> 0%Z -> (Z.abs d <= 2 ^ 35)%Z -> (Z.abs m <= 65536)%Z ->
  Qabs (t - inject_Z n / inject_Z d) <= u52 * Qabs (inject_Z n / inject_Z d) + eta ->
  t <= inject_Z m -> inject_Z n / inject_Z d <= inject_Z m.
Proof.
  intros Hd HD Hm E Ht.
  set (X := inject_Z n / inject_Z d) in *.
  destruct (Qlt_le_dec (inject_Z m) X) as [L|L]; [exfalso|exact L].
  assert (Nd : ~ inject_Z d == 0).
  { change 0 with (inject_Z 0). rewrite inject_Z_injective. exact Hd. }
  assert (K : (X - inject_Z m) * inject_Z d == inject_Z (n - m * d)).
  { unfold X, Z.sub. rewrite inject_Z_plus, inject_Z_opp, inject_Z_mult. field. exact Nd. }
  assert (Nk : (n - m * d)%Z <> 0%Z).
  { intros Z. rewrite Z in K. change (inject_Z 0) with 0 in K.
    apply Qmult_integral in K. destruct K as [K|K]; [lra | contradiction]. }
  assert (G : 1 <= (X - inject_Z m) * inject_Z (2 ^ 35)).
  { apply Qle_trans with (Qabs (inject_Z (n - m * d))); [now apply inject_Z_abs_ge_1|].
    rewrite <- K, Qabs_Qmult, (Qabs_pos (X - inject_Z m)) by lra.
    apply Qmult_le_l; [lra|]. now apply inject_Z_abs_le. }
  change (inject_Z (2 ^ 35)) with 34359738368 in G.
  pose proof (inject_Z_abs_le m 65536 Hm) as Bm.
  change (inject_Z 65536) with 65536 in Bm.
  apply Qabs_Qle_condition in Bm.
  assert (BX : Qabs X <= 65536 + (X - inject_Z m)).
  { apply Qabs_Qle_condition. lra. }
  apply Qabs_Qle_condition in E.
  unfold u52, eta in *. lra.
Qed.

Lemma rounded_quotient_ge (t : Q) (n d m : Z) :
  d <> 0%Z -> (Z.abs d <= 2 ^ 35)%Z -> (Z.abs m <= 65536)%Z ->
  Qabs (t - inject_Z n / inject_Z d) <= u52 * Qabs (inject_Z n / inject_Z d) + eta ->
  inject_Z m <= t -> inject_Z m <= inject_Z n / inject_Z d.
Proof.
  intros Hd HD Hm E Ht.
  assert (Nd : ~ inject_Z d == 0).
  { change 0 with (inject_Z 0). rewrite inject_Z_injective. exact Hd. }
  assert (O : inject_Z (- n) / inject_Z d == - (inject_Z n / inject_Z d)).
  { rewrite inject_Z_opp. field. exact Nd. }
  assert (H : inject_Z (- n) / inject_Z d <= inject_Z (- m)).
  { apply (rounded_quotient_le (- t)); try assumption; try abs_lia.
    - rewrite O, Qabs_opp.
      setoid_replace (- t - - (inject_Z n / inject_Z d))
        with (- (t - inject_Z n / inject_Z d)) by ring.
      now rewrite Qabs_opp.
    - rewrite inject_Z_opp. lra. }
  rewrite O, inject_Z_opp in H. lra.
Qed.

Lemma rounded_quotient_between (t : Q) (n d m1 m2 : Z) :
  d <> 0%Z -> (Z.abs d <= 2 ^ 35)%Z -> (Z.abs m1 <= 65536)%Z -> (Z.abs m2 <= 65536)%Z ->
  Qabs (t - inject_Z n / inject_Z d) <= u52 * Qabs (inject_Z n / inject_Z d) + eta ->
  between (inject_Z m1) (inject_Z m2) t ->
  between (inject_Z m1) (inject_Z m2) (inject_Z n / inject_Z d).
Proof.
  intros Hd HD H1 H2 E [[L U]|[L U]]; [left | right]; split;
    (eapply rounded_quotient_ge; eassumption) || (eapply rounded_quotient_le; eassumption).
Qed.

Lemma between_ext (u u' v v' w w' : Q) :
  u == u' -> v == v' -> w == w' -> between u v w -> between u' v' w'.
Proof. unfold between. intros. lra. Qed.

(** The quotient of two whole numbers, rounded. *)
Lemma int_div_rounds (f g : float) (n m : Z) :
  is_int f n -> is_int g m -> m <> 0%Z -> (Z.abs n < 2 ^ 53)%Z ->
  finite (f / g)
  /\ Qabs (F2Q (f / g) - inject_Z n / inject_Z m)
     <= u52 * Qabs (inject_Z n / inject_Z m) + eta.
Proof.
  intros [Ff Ef] [Fg Eg] Hm Hn.
  assert (Nm : ~ inject_Z m == 0).
  { change 0 with (inject_Z 0). rewrite inject_Z_injective. exact Hm. }
  assert (B : Qabs (inject_Z n / inject_Z m) <= inject_Z (2 ^ 53)).
  { unfold Qdiv. rewrite Qabs_Qmult, Qabs_Qinv.
    pose proof (inject_Z_abs_ge_1 m Hm).
    pose proof (inject_Z_abs_le n (2 ^ 53) ltac:(abs_lia)).
    pose proof (Qabs_nonneg (inject_Z n)).
    apply Qle_shift_div_r; [lra|]. nra. }
  destruct (div_rounds f g Ff Fg) as [F E].
  { now rewrite Eg. }
  { rewrite Ef, Eg. apply big_no_overflow.
    eapply Qle_trans; [exact B|]. vm_compute. discriminate. }
  split; [exact F|].
  pose proof (ulps_le (F2Q f / F2Q g)) as U.
  assert (E' : Qabs (F2Q (f / g) - F2Q f / F2Q g) <= u52 * Qabs (F2Q f / F2Q g) + eta) by lra.
  now rewrite Ef, Eg in E'.
Qed.

(** A difference of two products of whole numbers, computed exactly. *)
Lemma int_mul_sub (f1 f2 g1 g2 : float) (n1 n2 m1 m2 P1 P2 R1 R2 : Z) :
  is_int f1 n1 -> is_int f2 n2 -> is_int g1 m1 -> is_int g2 m2 ->
  (Z.abs n1 <= P1)%Z -> (Z.abs n2 <= P2)%Z -> (Z.abs m1 <= R1)%Z -> (Z.abs m2 <= R2)%Z ->
  (P1 * P2 + R1 * R2 < 2 ^ 53)%Z ->
  is_int (f1 * f2 - g1 * g2)%float (n1 * n2 - m1 * m2)
  /\ (Z.abs (n1 * n2 - m1 * m2) <= P1 * P2 + R1 * R2)%Z.
Proof.
  intros I1 I2 J1 J2 H1 H2 K1 K2 B.
  pose proof (Zabs_mul_le _ _ _ _ H1 H2) as A1.
  pose proof (Zabs_mul_le _ _ _ _ K1 K2) as A2.
  assert (0 <= P1 * P2)%Z by (pose proof (Z.abs_nonneg (n1 * n2)); abs_lia).
  assert (0 <= R1 * R2)%Z by (pose proof (Z.abs_nonneg (m1 * m2)); abs_lia).
  split; [|abs_lia].
  apply int_sub; [apply int_mul | apply int_mul |]; try assumption; abs_lia.
Qed.

(** Cramer's rule: the solution lies on both lines. *)
Lemma cramer_on_lines (a1 b1 c1 a2 b2 c2 : Z) :
  (a1 * b2 - a2 * b1 <> 0)%Z ->
  let X := inject_Z (b1 * c2 - b2 * c1) / inject_Z (a1 * b2 - a2 * b1) in
  let Y := inject_Z (a2 * c1 - a1 * c2) / inject_Z (a1 * b2 - a2 * b1) in
  inject_Z a1 * X + inject_Z b1 * Y + inject_Z c1 == 0
  /\ inject_Z a2 * X + inject_Z b2 * Y + inject_Z c2 == 0.
Proof.
  intros Nd X Y. subst X Y.
  assert (NQ : ~ inject_Z a1 * inject_Z b2 - inject_Z a2 * inject_Z b1 == 0).
  { intros Z. apply Nd. apply inject_Z_injective. unfold Z.sub.
    rewrite inject_Z_plus, inject_Z_opp, !inject_Z_mult. change (inject_Z 0) with 0. lra. }
  unfold Z.sub. rewrite !inject_Z_plus, !inject_Z_opp, !inject_Z_mult.
  split; field; lra.
Qed.

(** [segmentIntersection] is sound on whole coordinates up to 65536: when
    it returns a point, the two closed segments have a common point, and
    the point returned is that point with each coordinate rounded once. *)
Lemma segmentIntersection_common_point (seg1 seg2 : @LineSegment binary64) (r : Point) :
  whole 65536 (p1 seg1) -> whole 65536 (p2 seg1) ->
  whole 65536 (p1 seg2) -> whole 65536 (p2 seg2) ->
  C.segmentIntersection seg1 seg2 = Some r ->
  exists p : Q * Q,
    on_segment (coords (p1 seg1)) (coords (p2 seg1)) p
    /\ on_segment (coords (p1 seg2)) (coords (p2 seg2)) p
    /\ finite (x r) /\ finite (y r)
    /\ Qabs (F2Q (x r) - fst p) <= u52 * Qabs (fst p) + eta
    /\ Qabs (F2Q (y r) - snd p) <= u52 * Qabs (snd p) + eta.
Proof.
  intros (x1 & y1 & Ix1 & Iy1 & Hx1 & Hy1) (x2 & y2 & Ix2 & Iy2 & Hx2 & Hy2)
         (x3 & y3 & Ix3 & Iy3 & Hx3 & Hy3) (x4 & y4 & Ix4 & Iy4 & Hx4 & Hy4).
  unfold C.segmentIntersection.
  destruct (createLine_whole 65536 (p1 seg1) (p2 seg1) x1 y1 x2 y2) as (Ia1 & Ib1 & Ic1);
    try assumption; try abs_lia.
  destruct (createLine_whole 65536 (p1 seg2) (p2 seg2) x3 y3 x4 y4) as (Ia2 & Ib2 & Ic2);
    try assumption; try abs_lia.
  set (line1 := C.createLine (p1 seg1) (p2 seg1)) in *.
  set (line2 := C.createLine (p1 seg2) (p2 seg2)) in *.
  assert (Ba1 : (Z.abs (y2 - y1) <= 2 ^ 17)%Z) by abs_lia.
  assert (Bb1 : (Z.abs (x1 - x2) <= 2 ^ 17)%Z) by abs_lia.
  assert (Bc1 : (Z.abs (x2 * y1 - x1 * y2) <= 2 ^ 33)%Z).
  { pose proof (Zabs_mul_le _ _ _ _ Hx2 Hy1). pose proof (Zabs_mul_le _ _ _ _ Hx1 Hy2). abs_lia. }
  assert (Ba2 : (Z.abs (y4 - y3) <= 2 ^ 17)%Z) by abs_lia.
  assert (Bb2 : (Z.abs (x3 - x4) <= 2 ^ 17)%Z) by abs_lia.
  assert (Bc2 : (Z.abs (x4 * y3 - x3 * y4) <= 2 ^ 33)%Z).
  { pose proof (Zabs_mul_le _ _ _ _ Hx4 Hy3). pose proof (Zabs_mul_le _ _ _ _ Hx3 Hy4). abs_lia. }
  set (a1 := (y2 - y1)%Z) in *. set (b1 := (x1 - x2)%Z) in *.
  set (c1 := (x2 * y1 - x1 * y2)%Z) in *.
  set (a2 := (y4 - y3)%Z) in *. set (b2 := (x3 - x4)%Z) in *.
  set (c2 := (x4 * y3 - x3 * y4)%Z) in *.
  unfold C.lineIntersection. cbn [dsub dmul ddiv dzero binary64].
  destruct (int_mul_sub _ _ _ _ _ _ _ _ _ _ _ _ Ia1 Ib2 Ia2 Ib1 Ba1 Bb2 Ba2 Bb1 ltac:(reflexivity))
    as [Id Bd].
  destruct (int_mul_sub _ _ _ _ _ _ _ _ _ _ _ _ Ib1 Ic2 Ib2 Ic1 Bb1 Bc2 Bb2 Bc1 ltac:(reflexivity))
    as [Inx Bnx].
  destruct (int_mul_sub _ _ _ _ _ _ _ _ _ _ _ _ Ia2 Ic1 Ia1 Ic2 Ba2 Bc1 Ba1 Bc2 ltac:(reflexivity))
    as [Iny Bny].
  set (det := (a line1 * b line2 - a line2 * b line1)%float) in *.
  set (nd := (a1 * b2 - a2 * b1)%Z) in *.
  set (nx := (b1 * c2 - b2 * c1)%Z) in *.
  set (ny := (a2 * c1 - a1 * c2)%Z) in *.
  destruct (@C.areEqual binary64 det 0%float) eqn:G; [discriminate|].
  assert (Nd : nd <> 0%Z).
  { intros Z. rewrite Z in Id. apply is_int_zero in Id. congruence. }
  destruct (int_div_rounds _ _ _ _ Inx Id Nd ltac:(abs_lia)) as [Fx Ex].
  destruct (int_div_rounds _ _ _ _ Iny Id Nd ltac:(abs_lia)) as [Fy Ey].
  set (rx := ((b line1 * c line2 - b line2 * c line1) / det)%float) in *.
  set (ry := ((a line2 * c line1 - a line1 * c line2) / det)%float) in *.
  destruct (C.segmentContains seg1 (@mkPoint binary64 rx ry)
            && C.segmentContains seg2 (@mkPoint binary64 rx ry)) eqn:S; [|discriminate].
  intros H. inversion H; subst r; clear H. cbn [x y].
  apply andb_true_iff in S as [S1 S2].
  unfold C.segmentContains in S1, S2. fold line1 in S1. fold line2 in S2.
  destruct (C.lineContains line1 _); [|discriminate].
  destruct (C.lineContains line2 _); [|discriminate].
  cbn [negb x y dleb fmin fmax binary64] in S1, S2.
  apply andb_true_iff in S1 as [S1x S1y], S2 as [S2x S2y].
  destruct Ix1 as [Fx1 Ex1], Iy1 as [Fy1 Ey1], Ix2 as [Fx2 Ex2], Iy2 as [Fy2 Ey2],
           Ix3 as [Fx3 Ex3], Iy3 as [Fy3 Ey3], Ix4 as [Fx4 Ex4], Iy4 as [Fy4 Ey4].
  apply bounds_between in S1x, S1y, S2x, S2y; try assumption.
  exists (inject_Z nx / inject_Z nd, inject_Z ny / inject_Z nd).
  assert (NQ : ~ inject_Z nd == 0).
  { change 0 with (inject_Z 0). rewrite inject_Z_injective. exact Nd. }
  assert (Bd' : (Z.abs nd <= 2 ^ 35)%Z) by exact Bd.
  unfold on_segment, on_line, coords. cbn [fst snd].
  repeat split; try assumption.
  - rewrite Ex1, Ey1, Ex2, Ey2.
    destruct (cramer_on_lines a1 b1 c1 a2 b2 c2 Nd) as [L _]. cbv zeta in L.
    fold nx ny nd in L.
    set (X := inject_Z nx / inject_Z nd) in *. set (Y := inject_Z ny / inject_Z nd) in *.
    unfold a1, b1, c1, Z.sub in L.
    rewrite !inject_Z_plus, !inject_Z_opp, !inject_Z_mult in L.
    rewrite <- L. ring.
  - apply (between_ext (inject_Z x1) _ (inject_Z x2) _ _ _
             (Qeq_sym _ _ Ex1) (Qeq_sym _ _ Ex2) (Qeq_refl _)).
    apply (rounded_quotient_between (F2Q rx)); try assumption.
    now apply (between_ext _ _ _ _ _ _ Ex1 Ex2 (Qeq_refl _)).
  - apply (between_ext (inject_Z y1) _ (inject_Z y2) _ _ _
             (Qeq_sym _ _ Ey1) (Qeq_sym _ _ Ey2) (Qeq_refl _)).
    apply (rounded_quotient_between (F2Q ry)); try assumption.
    now apply (between_ext _ _ _ _ _ _ Ey1 Ey2 (Qeq_refl _)).
  - rewrite Ex3, Ey3, Ex4, Ey4.
    destruct (cramer_on_lines a1 b1 c1 a2 b2 c2 Nd) as [_ L]. cbv zeta in L.
    fold nx ny nd in L.
    set (X := inject_Z nx / inject_Z nd) in *. set (Y := inject_Z ny / inject_Z nd) in *.
    unfold a2, b2, c2, Z.sub in L.
    rewrite !inject_Z_plus, !inject_Z_opp, !inject_Z_mult in L.
    rewrite <- L. ring.
  - apply (between_ext (inject_Z x3) _ (inject_Z x4) _ _ _
             (Qeq_sym _ _ Ex3) (Qeq_sym _ _ Ex4) (Qeq_refl _)).
    apply (rounded_quotient_between (F2Q rx)); try assumption.
    now apply (between_ext _ _ _ _ _ _ Ex3 Ex4 (Qeq_refl _)).
  - apply (between_ext (inject_Z y3) _ (inject_Z y4) _ _ _
             (Qeq_sym _ _ Ey3) (Qeq_sym _ _ Ey4) (Qeq_refl _)).
    apply (rounded_quotient_between (F2Q ry)); try assumption.
    now apply (between_ext _ _ _ _ _ _ Ey3 Ey4 (Qeq_refl _)).
Qed.

End Crossing.

Section SelfClassification.
Local Open Scope Q_scope.

(** Every vertex of [P] has whole coordinates of magnitude at most [K]. *)
Definition whole_polygon (K : Z) (P : @Polygon binary64) : Prop :=
  Forall (whole K) (vertices P).

Lemma whole_vertex (K : Z) (P : @Polygon binary64) (i : nat) :
  whole_polygon K P -> (i < size P)%nat -> whole K (vertex P i).
Proof.
  intros W Hi. unfold vertex. apply (proj1 (Forall_forall _ _) W).
  apply nth_In. exact Hi.
Qed.

Lemma whole_next_vertex (K : Z) (P : @Polygon binary64) (i : nat) :
  whole_polygon K P -> (i < size P)%nat -> whole K (vertex P ((i + 1) mod size P)).
Proof.
  intros W Hi. apply whole_vertex; [exact W|]. apply Nat.mod_upper_bound. abs_lia.
Qed.

(** A simple polygon: two different edges meet only if they are
    consecutive, and then only in the vertex they share.  The edges are
    the exact segments between the vertices. *)
Definition simple (P : @Polygon binary64) : Prop :=
  forall i j, (i < size P)%nat -> (j < size P)%nat -> i <> j ->
  forall p : Q * Q,
    on_segment (coords (vertex P i)) (coords (vertex P ((i + 1) mod size P))) p ->
    on_segment (coords (vertex P j)) (coords (vertex P ((j + 1) mod size P))) p ->
    (j = ((i + 1) mod size P)%nat /\ same_point p (coords (vertex P j)))
    \/ (i = ((j + 1) mod size P)%nat /\ same_point p (coords (vertex P i))).

(** A whole number rounded once is within EPSILON of itself. *)
Lemma rounded_whole_equal (u v : float) (q : Q) (n : Z) :
  finite u -> Qabs (F2Q u - q) <= u52 * Qabs q + eta ->
  is_int v n -> (Z.abs n <= 65536)%Z -> q == inject_Z n ->
  @C.areEqual binary64 u v = true.
Proof.
  intros Fu E Iv Hn Eq.
  pose proof (inject_Z_abs_le n 65536 Hn) as B. rewrite <- Eq in B.
  assert (Au : approx u q (u52 * inject_Z 65536 + eta) (inject_Z 65536)).
  { repeat split; [exact Fu | | exact B].
    assert (0 <= u52) by discriminate. nra. }
  pose proof (approx_int _ _ _ Iv Hn) as Av.
  pose proof (approx_sub _ _ _ _ _ _ _ _ Au Av ltac:(vm_compute; discriminate)) as (F & D & _).
  apply areEqual_iff; [exact F|].
  eapply Qle_lt_trans; [|exact EPSILON_above].
  assert (Z : q - inject_Z n == 0) by lra.
  rewrite Z in D.
  setoid_replace (F2Q (u - v)%float) with (F2Q (u - v)%float - 0) by ring.
  eapply Qle_trans; [exact D|]. vm_compute. discriminate.
Qed.

Lemma rounded_vertex_equal (r v : @Point binary64) (p : Q * Q) :
  whole 65536 v -> finite (x r) -> finite (y r) ->
  Qabs (F2Q (x r) - fst p) <= u52 * Qabs (fst p) + eta ->
  Qabs (F2Q (y r) - snd p) <= u52 * Qabs (snd p) + eta ->
  same_point p (coords v) -> C.pointsEqual r v = true.
Proof.
  intros (vx & vy & Ix & Iy & Hx & Hy) Fx Fy Ex Ey [Sx Sy].
  unfold coords in Sx, Sy. cbn [fst snd] in Sx, Sy.
  unfold C.pointsEqual. apply andb_true_iff. split.
  - apply (rounded_whole_equal _ _ (fst p) vx); try assumption.
    rewrite Sx. apply Ix.
  - apply (rounded_whole_equal _ _ (snd p) vy); try assumption.
    rewrite Sy. apply Iy.
Qed.

(** An edge does not cross itself: the determinant is exactly zero. *)
Lemma segmentIntersection_self (seg : @LineSegment binary64) :
  whole 65536 (p1 seg) -> whole 65536 (p2 seg) -> C.segmentIntersection seg seg = None.
Proof.
  intros (x1 & y1 & Ix1 & Iy1 & Hx1 & Hy1) (x2 & y2 & Ix2 & Iy2 & Hx2 & Hy2).
  unfold C.segmentIntersection, C.lineIntersection. cbn [dsub dmul ddiv dzero binary64].
  destruct (createLine_whole 65536 (p1 seg) (p2 seg) x1 y1 x2 y2) as (Ia & Ib & _);
    try assumption; try abs_lia.
  assert (Ba : (Z.abs (y2 - y1) <= 2 ^ 17)%Z) by abs_lia.
  assert (Bb : (Z.abs (x1 - x2) <= 2 ^ 17)%Z) by abs_lia.
  destruct (int_mul_sub _ _ _ _ _ _ _ _ _ _ _ _ Ia Ib Ia Ib Ba Bb Ba Bb ltac:(reflexivity))
    as [Id _].
  replace ((y2 - y1) * (x1 - x2) - (y2 - y1) * (x1 - x2))%Z with 0%Z in Id by ring.
  now rewrite (is_int_zero _ Id).
Qed.

(** No two edges of a simple polygon with whole coordinates cross inside. *)
Lemma simple_no_crossing (P : @Polygon binary64) (i j : nat) :
  whole_polygon 65536 P -> simple P -> (i < size P)%nat -> (j < size P)%nat ->
  C.crossesInside (edge_of P i) (edge_of P j) = false.
Proof.
  intros W S Hi Hj. apply not_true_iff_false. intros H.
  apply C_crossesInside_iff in H as (r & I & E1 & E2 & E3 & E4).
  pose proof (whole_vertex _ _ _ W Hi) as Wi.
  pose proof (whole_next_vertex _ _ _ W Hi) as Wi'.
  pose proof (whole_vertex _ _ _ W Hj) as Wj.
  pose proof (whole_next_vertex _ _ _ W Hj) as Wj'.
  destruct (Nat.eq_dec i j) as [->|N].
  - rewrite segmentIntersection_self in I; [discriminate | exact Wj | exact Wj'].
  - destruct (segmentIntersection_common_point (edge_of P i) (edge_of P j) r Wi Wi' Wj Wj' I)
      as (p & O1 & O2 & Fx & Fy & Ex & Ey).
    cbn [edge_of p1 p2] in O1, O2, E1, E2.
    destruct (S i j Hi Hj N p O1 O2) as [[-> Sp]|[E Sp]].
    + rewrite (rounded_vertex_equal r _ p Wi' Fx Fy Ex Ey Sp) in E2. discriminate.
    + rewrite (rounded_vertex_equal r _ p Wi Fx Fy Ex Ey Sp) in E1. discriminate.
Qed.

Lemma whole_self_touching (P : @Polygon binary64) :
  whole_polygon 65536 P -> (0 < size P)%nat ->
  some_vertex_on_edge C.segmentContains P P = true.
Proof.
  intros W H. apply some_vertex_on_edge_iff. exists 0%nat, 0%nat.
  repeat split; try exact H.
  apply segmentContains_end; apply (whole_weaken 65536); try abs_lia;
    [now apply whole_vertex | now apply whole_next_vertex].
Qed.

(** C4, as the programs have it.  A simple polygon with at least 3
    vertices whose coordinates are whole numbers of magnitude at most 65536,
    classified against itself, is Touching: its first vertex passes
    [segmentContains] on its first edge without rounding, and no two of
    its edges cross inside.  Both programs, on binary64. *)
Theorem classify_self_whole (P : @Polygon binary64) :
  whole_polygon 65536 P -> simple P -> (3 <= size P)%nat ->
  C.classifyPolygons P P = "Touching"%string
  /\ Cpp.Polygon_classify P P = "Touching"%string.
Proof.
  intros W S H.
  assert (E : C.classifyPolygons P P = "Touching"%string).
  { rewrite C_classify_eq.
    assert (I : C_intersecting P P = false).
    { apply not_true_iff_false. intros T.
      apply some_edge_pair_iff in T as (i & j & Hi & Hj & T).
      now rewrite simple_no_crossing in T. }
    assert (T : C_touching P P = true).
    { unfold C_touching. rewrite (whole_self_touching P W); [reflexivity | abs_lia]. }
    now rewrite I, T. }
  split; [exact E | now rewrite <- classify_eq].
Qed.

End SelfClassification.

Definition whole_triangle : @Polygon binary64 := polygon_of [(0, 0); (4, 0); (0, 4)]%float.

Lemma F2Q_0 : (F2Q 0%float == 0)%Q.
Proof. reflexivity. Qed.

Lemma F2Q_4 : (F2Q 4%float == 4)%Q.
Proof. vm_compute. reflexivity. Qed.

Lemma whole_triangle_whole : whole_polygon 65536 whole_triangle.
Proof.
  repeat constructor.
  - exists 0%Z, 0%Z. repeat split; try reflexivity; try lia.
  - exists 4%Z, 0%Z. repeat split; try reflexivity; try lia; vm_compute; reflexivity.
  - exists 0%Z, 4%Z. repeat split; try reflexivity; try lia; vm_compute; reflexivity.
Qed.

Lemma whole_triangle_simple : simple whole_triangle.
Proof.
  intros i j Hi Hj N p (Li & Xi & Yi) (Lj & Xj & Yj).
  change (size whole_triangle) with 3 in *.
  unfold on_line, between, coords, same_point in *.
  pose proof F2Q_0 as E0. pose proof F2Q_4 as E4.
  destruct i as [|[|[|i]]]; try lia; destruct j as [|[|[|j]]]; try lia;
    cbn [fst snd] in *;
    change (vertex whole_triangle 0) with (point 0 0) in *;
    change (vertex whole_triangle 1) with (point 4 0) in *;
    change (vertex whole_triangle 2) with (point 0 4) in *;
    change (vertex whole_triangle ((0 + 1) mod 3)) with (point 4 0) in *;
    change (vertex whole_triangle ((1 + 1) mod 3)) with (point 0 4) in *;
    change (vertex whole_triangle ((2 + 1) mod 3)) with (point 0 0) in *;
    cbn [point x y] in *;
    set (z := F2Q 0%float) in *; set (f := F2Q 4%float) in *; clearbody z f;
    try rewrite E0 in Li; try rewrite E0 in Xi; try rewrite E0 in Yi;
    try rewrite E0 in Lj; try rewrite E0 in Xj; try rewrite E0 in Yj;
    try rewrite E4 in Li; try rewrite E4 in Xi; try rewrite E4 in Yi;
    try rewrite E4 in Lj; try rewrite E4 in Xj; try rewrite E4 in Yj;
    [ left | right | right | left | left | right ];
    (split; [reflexivity|]); split; lra.
Qed.

Lemma classify_self_whole_witness :
  C.classifyPolygons whole_triangle whole_triangle = "Touching"%string
  /\ Cpp.Polygon_classify whole_triangle whole_triangle = "Touching"%string.
Proof.
  apply classify_self_whole.
  - exact whole_triangle_whole.
  - exact whole_triangle_simple.
  - vm_compute. lia.
Defined.

(** All the products in the line equations of this triangle are exact, and
    the division rounds the meeting point of two of its edges more than
    EPSILON away from their common vertex: classified against itself it is
    Intersecting. *)
Definition large_triangle : @Polygon binary64 :=
  polygon_of [(73648465, 85378477); (70059055, 49098351); (70942732, 57927999)]%float.

Lemma classify_self_intersecting :
  C.classifyPolygons large_triangle large_triangle = "Intersecting"%string
  /\ Cpp.Polygon_classify large_triangle large_triangle = "Intersecting"%string.
Proof. split; vm_compute; reflexivity. Qed.

(** ** binary64: where rounding shows *)

Section Rounding.
Local Open Scope float_scope.

(** A triangle with whole coordinates near 10^8.  The products in
    [createLine] exceed 2^53 and are rounded, so no vertex passes
    [lineContains] on its own edge. *)
Definition far_triangle : @Polygon binary64 :=
  polygon_of [(100000000, 100000001); (100000007, 100000002); (100000003, 100000009)].

(** C4 as stated fails on binary64: this simple triangle, classified
    against itself, is Disjoint (Enclosed) in both programs. *)
Lemma classify_self_counterexample :
  C.classifyPolygons far_triangle far_triangle = "Disjoint (Enclosed)"%string
  /\ Cpp.Polygon_classify far_triangle far_triangle = "Disjoint (Enclosed)"%string.
Proof. split; vm_compute; reflexivity. Qed.

(** The line through (0,0) and (100000,100000) and the line through
    (200000,0) and (0,500000). *)
Definition diagonal64 : @Line binary64 :=
  C.createLine (point 0 0) (point 100000 100000).
Definition slanted64 : @Line binary64 :=
  C.createLine (point 200000 0) (point 0 500000).

(** C8 as stated fails on binary64: the two lines are far from parallel,
    [lineIntersection] returns the rounded point (1000000/7, 1000000/7), and
    the second line does not pass [lineContains] on it (the residual is
    2^-16).  Both programs. *)
Lemma line_intersection_round_trip_counterexample :
  exists r : @Point binary64,
    C.lineIntersection diagonal64 slanted64 = Some r
    /\ C.lineContains slanted64 r = false
    /\ Cpp.Line_intersection diagonal64 slanted64 = Some r
    /\ Cpp.Line_contains slanted64 r = false.
Proof.
  exists (point 0x1.1704924924925p+17 0x1.1704924924925p+17).
  repeat split; vm_compute; reflexivity.
Qed.

End Rounding.

(** An L-shaped hexagon near 10^8 and a point on its first, horizontal,
    edge. *)
Definition hexagon : @Polygon binary64 :=
  polygon_of [(100000000, 100000001); (100000001, 100000001); (100000001, 100000000);
              (100000002, 100000000); (100000002, 100000002); (100000000, 100000002)]%float.
Definition on_hexagon : @Point binary64 := point 100000000.5 100000001.

(** C5 as stated fails on binary64: the point lies exactly on the first
    edge of the hexagon, rounding in the line equation of that edge makes
    [segmentContains] miss it, the ray then meets two edges, and the point
    is reported outside.  Both programs. *)
Lemma polygon_contains_boundary_counterexample :
  on_segment (coords (vertex hexagon 0)) (coords (vertex hexagon 1)) (coords on_hexagon)
  /\ C.segmentContains (edge_of hexagon 0) on_hexagon = false
  /\ C.polygonContains hexagon on_hexagon = false
  /\ Cpp.Polygon_contains hexagon on_hexagon = false.
Proof.
  split; [|repeat split; vm_compute; reflexivity].
  split; [vm_compute; reflexivity|].
  split; left; split; vm_compute; discriminate.
Qed.

(** ** binary64: the two programs, and the two orders of the arguments *)

Section Programs.
Local Open Scope float_scope.

(** C9. On every pair of polygons, [classifyPolygons] of [polygon.c] and
    [Polygon::classify] of [polygon.cpp] return the same label; so do their
    point-in-polygon tests and their segment intersections. *)
Theorem c_and_cpp_agree :
  (forall P Q : @Polygon binary64, C.classifyPolygons P Q = Cpp.Polygon_classify P Q)
  /\ (forall (P : @Polygon binary64) (p : Point),
        C.polygonContains P p = Cpp.Polygon_contains P p)
  /\ (forall seg1 seg2 : @LineSegment binary64,
        C.segmentIntersection seg1 seg2 = Cpp.LineSegment_intersection seg1 seg2).
Proof.
  split; [|split].
  - exact classify_eq.
  - exact polygonContains_eq.
  - exact segmentIntersection_eq.
Qed.

(** A triangle two units wide and a triangle 2^-14 wide below its lower
    edge.  The ends of the long edge are within EPSILON on the line of the
    short one, the ends of the short edge are not on the line of the long
    one. *)
Definition wide_triangle : @Polygon binary64 :=
  polygon_of [(-1, -0x1p-10); (1, 0x3p-10); (0, 5)].
Definition tiny_triangle : @Polygon binary64 :=
  polygon_of [(0, 0); (0x1p-14, 0); (0, -0x1p-14)].

(** C10 as stated fails: the label depends on the order of the
    arguments.  Both programs. *)
Lemma classify_symmetry_counterexample :
  C.classifyPolygons wide_triangle tiny_triangle = "Disjoint (Outside)"%string
  /\ C.classifyPolygons tiny_triangle wide_triangle = "Touching"%string
  /\ Cpp.Polygon_classify wide_triangle tiny_triangle = "Disjoint (Outside)"%string
  /\ Cpp.Polygon_classify tiny_triangle wide_triangle = "Touching"%string.
Proof. repeat split; vm_compute; reflexivity. Qed.

(** C10, as the programs have it.  The label is the same in both orders
    of the arguments whenever the collinear-overlap test, which takes the
    line from an edge of its first argument only, answers the same in both
    orders.  Crossing, vertex-on-edge contact and enclosure do not depend
    on the order.  Both programs. *)
Theorem classify_symmetric (P Q : @Polygon binary64) :
  C_collinear_touch P Q = C_collinear_touch Q P ->
  C.classifyPolygons P Q = C.classifyPolygons Q P
  /\ Cpp.Polygon_classify P Q = Cpp.Polygon_classify Q P.
Proof.
  intros H. pose proof (classify_swap P Q H) as S. split.
  - exact S.
  - now rewrite <- !classify_eq.
Qed.

End Programs.

Lemma classify_symmetric_witness :
  C.classifyPolygons square8 square2 = C.classifyPolygons square2 square8
  /\ Cpp.Polygon_classify square8 square2 = Cpp.Polygon_classify square2 square8.
Proof.
  apply classify_symmetric. vm_compute. reflexivity.
Defined.

(** C2 as stated fails when "collinear" is read in either direction: no
    edge pair of the wide and the tiny triangle crosses inside, both ends of
    the first edge of the wide triangle are within EPSILON on the line of
    the first edge of the tiny one, the two edges overlap on both axes, and
    the answer is not Touching.  Both programs. *)
Lemma classify_touching_counterexample :
  ~ edges_related C_crosses_inside wide_triangle tiny_triangle
  /\ ~ edges_related Cpp_crosses_inside wide_triangle tiny_triangle
  /\ C.areCollinear (edge_of tiny_triangle 0) (edge_of wide_triangle 0) = true
  /\ C.edgesOverlap (edge_of wide_triangle 0) (edge_of tiny_triangle 0) = true
  /\ Cpp.areCollinear (edge_of tiny_triangle 0) (edge_of wide_triangle 0) = true
  /\ Cpp.edgesOverlap (edge_of wide_triangle 0) (edge_of tiny_triangle 0) = true
  /\ C.classifyPolygons wide_triangle tiny_triangle = "Disjoint (Outside)"%string
  /\ Cpp.Polygon_classify wide_triangle tiny_triangle = "Disjoint (Outside)"%string.
Proof.
  split; [|split].
  - apply (not_true_iff (C_intersecting_iff _ _)). vm_compute. reflexivity.
  - apply (not_true_iff (Cpp_intersecting_iff _ _)). vm_compute. reflexivity.
  - repeat split; vm_compute; reflexivity.
Qed.

(** ** Further properties: edges, overlap, empty polygons *)

Section Edges.
Context {A : Arith}.

(** X1.  The edge array is a closed chain over the vertex array: as many edges
    as vertices, edge [i] starts at vertex [i], and it ends where edge
    [(i + 1) mod size] starts, so the last edge ends at the first vertex.
    [getEdges] of [polygon.c] and of [polygon.cpp] build the same array. *)
Theorem getEdges_closed_chain (P : Polygon) :
  C.getEdges P = Cpp.getEdges P
  /\ List.length (C.getEdges P) = size P
  /\ (forall i, i < size P ->
        p1 (C.edge_at (C.getEdges P) i) = vertex P i
        /\ p2 (C.edge_at (C.getEdges P) i)
           = p1 (C.edge_at (C.getEdges P) ((i + 1) mod size P))).
Proof.
  split; [|split].
  - now rewrite C_getEdges_eq, Cpp_getEdges_eq.
  - rewrite C_getEdges_eq. unfold indices. now rewrite length_map, length_seq.
  - intros i Hi.
    assert (Hn : (i + 1) mod size P < size P) by (apply Nat.mod_upper_bound; lia).
    rewrite !edge_at_getEdges by (apply in_seq; lia).
    split; reflexivity.
Qed.

(** X2.  [edgesOverlap] does not depend on the order of its two segments: the
    four tests per axis are the same four.  Both programs. *)
Theorem edgesOverlap_symmetric (seg1 seg2 : LineSegment) :
  C.edgesOverlap seg1 seg2 = C.edgesOverlap seg2 seg1
  /\ Cpp.edgesOverlap seg1 seg2 = Cpp.edgesOverlap seg2 seg1.
Proof.
  split.
  - unfold C.edgesOverlap.
    repeat match goal with
           | |- context [C.isBetween ?u ?v ?w] =>
               generalize (C.isBetween u v w); intro
           end.
    repeat match goal with t : bool |- _ => destruct t end; reflexivity.
  - unfold Cpp.edgesOverlap.
    repeat match goal with
           | |- context [Cpp.isBetween ?u ?v ?w] =>
               generalize (Cpp.isBetween u v w); intro
           end.
    repeat match goal with t : bool |- _ => destruct t end; reflexivity.
Qed.

Lemma existsb_none {T : Type} (l : list T) : existsb (fun _ => false) l = false.
Proof. induction l as [|e rest IH]; [reflexivity | exact IH]. Qed.

Definition no_vertices : Polygon := mkPolygon [].

(** X3.  A polygon without vertices contains no point, and classified with any
    polygon, in either order, it gives Disjoint (Enclosed): no edge pair is
    examined, and "every vertex of the empty polygon is inside" holds
    with nothing to test.  Both programs. *)
Theorem classify_no_vertices (P : Polygon) (p : Point) :
  C.polygonContains no_vertices p = false
  /\ Cpp.Polygon_contains no_vertices p = false
  /\ C.classifyPolygons P no_vertices = "Disjoint (Enclosed)"%string
  /\ C.classifyPolygons no_vertices P = "Disjoint (Enclosed)"%string
  /\ Cpp.Polygon_classify P no_vertices = "Disjoint (Enclosed)"%string
  /\ Cpp.Polygon_classify no_vertices P = "Disjoint (Enclosed)"%string.
Proof.
  split; [reflexivity|]. split; [reflexivity|].
  rewrite !C_classify_eq, !Cpp_classify_eq.
  unfold C_intersecting, Cpp_intersecting, C_touching, Cpp_touching,
    C_enclosed, Cpp_enclosed, some_edge_pair, some_vertex_on_edge, all_vertices_inside.
  change (indices no_vertices) with (@nil nat).
  cbn [existsb forallb].
  rewrite !existsb_none, !orb_true_r. cbn [orb label].
  repeat split.
Qed.

End Edges.

(** ** Further properties on binary64: tolerance, NaN, symmetry *)

Section Tolerance.
Local Open Scope float_scope.

Definition sf_infinity (u : spec_float) : bool :=
  match u with S754_infinity _ => true | _ => false end.

Lemma is_infinity_spec (u : float) : is_infinity u = sf_infinity (Prim2SF u).
Proof.
  unfold is_infinity. rewrite eqb_spec, abs_spec.
  change (Prim2SF infinity) with (S754_infinity false).
  now destruct (Prim2SF u) as [[]|[]| |[] m e].
Qed.

Lemma is_finite_spec (u : float) :
  is_finite u = negb (sf_nan (Prim2SF u) || sf_infinity (Prim2SF u)).
Proof. unfold is_finite. now rewrite is_nan_spec, is_infinity_spec. Qed.

Lemma SFsub_diag (u : spec_float) :
  sf_nan u || sf_infinity u = false -> SF64sub u u = S754_zero false.
Proof.
  destruct u as [[]|[]| |s m e]; try discriminate; try reflexivity.
  intros _. unfold SF64sub, SFsub. now rewrite Z.sub_diag.
Qed.

Lemma areEqual_spec (u v : float) :
  @C.areEqual binary64 u v
  = SFltb (SFabs (SF64sub (Prim2SF u) (Prim2SF v))) (Prim2SF (@EPSILON binary64)).
Proof.
  unfold C.areEqual. cbn [dsub dltb fabs binary64].
  now rewrite ltb_spec, abs_spec, sub_spec.
Qed.

(** X4.  [areEqual] on binary64: it is symmetric; it holds only between finite
    numbers; and a value equals itself exactly when it is finite (an
    infinity or a NaN is not equal to itself).  [Point::operator==] and
    [pointsEqual] are the same test with the arguments swapped. *)
Theorem areEqual_tolerance (u v : float) :
  @C.areEqual binary64 u v = @C.areEqual binary64 v u
  /\ (@C.areEqual binary64 u v = true -> is_finite u = true /\ is_finite v = true)
  /\ @C.areEqual binary64 u u = is_finite u
  /\ (forall q r : @Point binary64, C.pointsEqual q r = Cpp.Point_eq r q).
Proof.
  split; [apply areEqual_sym|]. split; [|split; [|apply pointsEqual_Point_eq]].
  - rewrite areEqual_spec, !is_finite_spec.
    destruct (Prim2SF u) as [[]|[]| |su mu eu], (Prim2SF v) as [[]|[]| |sv mv ev];
      cbn [sf_nan sf_infinity orb negb]; intros H;
      try (split; reflexivity); vm_compute in H; discriminate H.
  - rewrite areEqual_spec, is_finite_spec.
    destruct (sf_nan (Prim2SF u) || sf_infinity (Prim2SF u)) eqn:E.
    + destruct (Prim2SF u) as [[]|[]| |su mu eu]; try discriminate E;
        vm_compute; reflexivity.
    + rewrite (SFsub_diag _ E). vm_compute. reflexivity.
Qed.

End Tolerance.

Lemma areEqual_tolerance_witness :
  is_finite 1 = true /\ is_finite 0x1.000001p+0 = true.
Proof.
  apply (proj1 (proj2 (areEqual_tolerance 1 0x1.000001p+0))).
  vm_compute. reflexivity.
Defined.

Section NotANumberPoints.
Local Open Scope float_scope.

Definition has_nan (p : @Point binary64) : bool := is_nan (x p) || is_nan (y p).

Lemma has_nan_false (p : @Point binary64) : point_nonan p -> has_nan p = false.
Proof. intros [H1 H2]. unfold has_nan. now rewrite H1, H2. Qed.

Lemma segmentContains_nan (seg : @LineSegment binary64) (p : Point) :
  has_nan (p1 seg) || has_nan (p2 seg) || has_nan p = true ->
  C.segmentContains seg p = false.
Proof.
  intros H. unfold C.segmentContains.
  destruct (C.lineContains _ p) eqn:E; [|reflexivity].
  apply lineContains_nonan in E as (N1 & N2 & N3).
  rewrite (has_nan_false _ N1), (has_nan_false _ N2), (has_nan_false _ N3) in H.
  discriminate.
Qed.

Lemma areEqual_nan_r (u v : float) : is_nan v = true -> @C.areEqual binary64 u v = false.
Proof. intros H. rewrite areEqual_sym. now apply areEqual_nan_l. Qed.

Lemma polygonContains_body_nan (P : @Polygon binary64) (p : Point) (i : nat) :
  has_nan p = true -> C.polygonContains_body P p i = C.Continue false.
Proof.
  intros H. unfold C.polygonContains_body.
  rewrite segmentContains_nan by (rewrite H; apply orb_true_r).
  destruct (C.areEqual (y (vertex P i)) _); [reflexivity|].
  set (v1 := vertex P i). set (v2 := vertex P ((i + 1) mod size P)).
  cbv zeta.
  set (X := dadd (ddiv (dmul (dsub (y p) (y v1)) (dsub (x v2) (x v1))) (dsub (y v2) (y v1))) (x v1)).
  destruct (_ || _); [reflexivity|].
  unfold has_nan in H. apply orb_true_iff in H as [H|H].
  - rewrite (areEqual_nan_r X (x p) H).
    assert (E : @dltb binary64 (x p) X = false) by (apply ltb_nan; now rewrite H).
    now rewrite E.
  - assert (HX : is_nan X = true).
    { apply add_nan. apply orb_true_iff. left.
      apply div_nan. apply orb_true_iff. left.
      apply mul_nan. apply orb_true_iff. left.
      apply sub_nan. now rewrite H. }
    rewrite (areEqual_nan_l X (x p) HX).
    assert (E : @dltb binary64 (x p) X = false)
      by (apply ltb_nan; rewrite HX; apply orb_true_r).
    now rewrite E.
Qed.

Lemma polygonContains_loop_nan (P : @Polygon binary64) (p : Point) (idx : list nat) :
  has_nan p = true -> C.polygonContains_loop P p idx 0 = false.
Proof.
  intros H. induction idx as [|i rest IH]; [reflexivity|].
  cbn [C.polygonContains_loop]. now rewrite polygonContains_body_nan.
Qed.

(** X5.  NaN never passes a containment test: a segment with a NaN coordinate
    contains no point and no segment contains a point with one; a point
    with a NaN coordinate is inside no polygon.  Both programs. *)
Theorem nan_is_never_contained :
  (forall (seg : @LineSegment binary64) (p : Point),
     has_nan (p1 seg) || has_nan (p2 seg) || has_nan p = true ->
     C.segmentContains seg p = false /\ Cpp.LineSegment_contains seg p = false)
  /\ (forall (P : @Polygon binary64) (p : Point),
     has_nan p = true ->
     C.polygonContains P p = false /\ Cpp.Polygon_contains P p = false).
Proof.
  split.
  - intros seg p H. rewrite <- segmentContains_eq. split; now apply segmentContains_nan.
  - intros P p H. rewrite <- polygonContains_eq.
    split; now apply polygonContains_loop_nan.
Qed.

End NotANumberPoints.

Lemma nan_is_never_contained_witness :
  C.polygonContains square8 (point nan 0) = false
  /\ Cpp.Polygon_contains square8 (point nan 0) = false.
Proof.
  apply (proj2 nan_is_never_contained). vm_compute. reflexivity.
Defined.

Section SegmentSymmetry.
Local Open Scope float_scope.

(** The same number: IEEE equality, under which +0 and -0 are equal and
    NaN equals nothing. *)
Definition same_number (u v : float) : Prop := (u =? v) = true.

Lemma fz_same_number (u v : float) : is_nan u = false -> fz u v -> same_number u v.
Proof.
  unfold fz, same_number. rewrite is_nan_spec, eqb_spec. unfold SFeqb.
  intros N [E|[Z1 Z2]].
  - rewrite <- E. now rewrite SFcompare_refl.
  - destruct (Prim2SF u); try discriminate. destruct (Prim2SF v); try discriminate.
    reflexivity.
Qed.

Lemma segmentIntersection_nonan (seg1 seg2 : @LineSegment binary64) (r : Point) :
  C.segmentIntersection seg1 seg2 = Some r -> point_nonan r.
Proof.
  unfold C.segmentIntersection.
  destruct (C.lineIntersection _ _) as [r'|]; [|discriminate].
  destruct (C.segmentContains seg1 r') eqn:S; [|discriminate].
  destruct (C.segmentContains seg2 r'); [|discriminate].
  intros H. inversion H; subst r'. clear H.
  unfold C.segmentContains in S.
  destruct (C.lineContains _ r) eqn:L; [|discriminate].
  now apply lineContains_nonan in L.
Qed.

(** X6.  Segment intersection is symmetric: with the two segments swapped, both
    calls report no intersection or both return a point, and the two points
    have the same coordinates as numbers (they can differ in the sign of a
    zero, nothing else).  Whether the point counts as a crossing inside
    both edges does not depend on the order either.  Both programs. *)
Theorem segmentIntersection_symmetric (seg1 seg2 : @LineSegment binary64) :
  match C.segmentIntersection seg1 seg2, C.segmentIntersection seg2 seg1 with
  | Some r, Some r' => same_number (x r) (x r') /\ same_number (y r) (y r')
  | None, None => True
  | _, _ => False
  end
  /\ match Cpp.LineSegment_intersection seg1 seg2, Cpp.LineSegment_intersection seg2 seg1 with
     | Some r, Some r' => same_number (x r) (x r') /\ same_number (y r) (y r')
     | None, None => True
     | _, _ => False
     end
  /\ C.crossesInside seg1 seg2 = C.crossesInside seg2 seg1
  /\ Cpp.crossesInside seg1 seg2 = Cpp.crossesInside seg2 seg1.
Proof.
  assert (H : match C.segmentIntersection seg1 seg2, C.segmentIntersection seg2 seg1 with
              | Some r, Some r' => same_number (x r) (x r') /\ same_number (y r) (y r')
              | None, None => True
              | _, _ => False
              end).
  { pose proof (segmentIntersection_swap seg1 seg2) as S.
    destruct (C.segmentIntersection seg1 seg2) as [r|] eqn:E1,
             (C.segmentIntersection seg2 seg1) as [r'|]; try exact S.
    destruct S as [Sx Sy].
    apply segmentIntersection_nonan in E1 as [Nx Ny].
    split; now apply fz_same_number. }
  split; [exact H|]. split; [now rewrite <- !segmentIntersection_eq|].
  split; [apply crossesInside_swap|].
  rewrite <- !crossesInside_eq. apply crossesInside_swap.
Qed.

End SegmentSymmetry.

(** ** Further properties: the ray cast, and the starting vertex *)

Section Permuted.
Variable T : Type.

Lemma existsb_Permutation (f : T -> bool) (l l' : list T) :
  Permutation l l' -> existsb f l = existsb f l'.
Proof.
  induction 1 as [|e l l' _ IH|d e l|l l' l'' _ IH1 _ IH2]; cbn [existsb].
  - reflexivity.
  - now rewrite IH.
  - now destruct (f d), (f e).
  - now rewrite IH1.
Qed.

Lemma forallb_Permutation (f : T -> bool) (l l' : list T) :
  Permutation l l' -> forallb f l = forallb f l'.
Proof.
  induction 1 as [|e l l' _ IH|d e l|l l' l'' _ IH1 _ IH2]; cbn [forallb].
  - reflexivity.
  - now rewrite IH.
  - now destruct (f d), (f e).
  - now rewrite IH1.
Qed.

Lemma count_Permutation (f : T -> bool) (l l' : list T) :
  Permutation l l' -> List.length (filter f l) = List.length (filter f l').
Proof.
  induction 1 as [|e l l' _ IH|d e l|l l' l'' _ IH1 _ IH2]; cbn [filter].
  - reflexivity.
  - destruct (f e); cbn [List.length]; now rewrite IH.
  - now destruct (f d), (f e).
  - now rewrite IH1.
Qed.

End Permuted.

Arguments existsb_Permutation {T} f l l' _.
Arguments forallb_Permutation {T} f l l' _.
Arguments count_Permutation {T} f l l' _.

(** The indices [0 .. n-1], each moved one step round the polygon. *)
Definition next_index (n i : nat) : nat := (i + 1) mod n.

Lemma next_index_seq (n : nat) :
  map (next_index (S n)) (seq 0 (S n)) = seq 1 n ++ [0].
Proof.
  rewrite seq_S, map_app. cbn [map Nat.add]. f_equal.
  - rewrite <- seq_shift. apply map_ext_in. intros i Hi. apply in_seq in Hi.
    unfold next_index. rewrite Nat.mod_small by lia. lia.
  - unfold next_index. replace (n + 1) with (S n) by lia.
    now rewrite Nat.Div0.mod_same.
Qed.

Lemma next_index_Permutation (n : nat) :
  Permutation (map (next_index n) (seq 0 n)) (seq 0 n).
Proof.
  destruct n as [|n]; [constructor|].
  rewrite next_index_seq. cbn [seq].
  symmetry. apply Permutation_cons_append.
Qed.

Section RayCast.
Context {A : Arith}.

Definition C_returns (t : C.turn) : bool :=
  match t with C.Return _ => true | C.Continue _ => false end.

Definition C_counts (t : C.turn) : bool :=
  match t with C.Return _ => false | C.Continue hit => hit end.

Definition Cpp_returns (t : Cpp.turn) : bool :=
  match t with Cpp.Return _ => true | Cpp.Continue _ => false end.

Definition Cpp_counts (t : Cpp.turn) : bool :=
  match t with Cpp.Return _ => false | Cpp.Continue hit => hit end.

(** The edges on which the loop returns, and the number of edges it
    counts, over a list of edge indices. *)
Definition C_some_return (P : Polygon) (p : Point) (idx : list nat) : bool :=
  existsb (fun i => C_returns (C.polygonContains_body P p i)) idx.

Definition C_crossings (P : Polygon) (p : Point) (idx : list nat) : nat :=
  List.length (filter (fun i => C_counts (C.polygonContains_body P p i)) idx).

Definition Cpp_some_return (P : Polygon) (p : Point) (idx : list nat) : bool :=
  existsb (fun i => Cpp_returns (Cpp.contains_body P p i)) idx.

Definition Cpp_crossings (P : Polygon) (p : Point) (idx : list nat) : nat :=
  List.length (filter (fun i => Cpp_counts (Cpp.contains_body P p i)) idx).

Lemma C_loop_parity (P : Polygon) (p : Point) (idx : list nat) (count : nat) :
  C.polygonContains_loop P p idx count
  = C_some_return P p idx || ((count + C_crossings P p idx) mod 2 =? 1).
Proof.
  unfold C_some_return, C_crossings. revert count.
  induction idx as [|i rest IH]; intros count;
    cbn [C.polygonContains_loop existsb filter].
  - cbn [List.length orb]. now rewrite Nat.add_0_r.
  - destruct (C.polygonContains_body P p i) as [r|hit] eqn:E; cbn [C_returns C_counts orb].
    + eapply C_body_returns_true; exact E.
    + rewrite IH. f_equal. destruct hit; cbn [List.length].
      * now rewrite Nat.add_succ_r.
      * reflexivity.
Qed.

Lemma Cpp_loop_parity (P : Polygon) (p : Point) (idx : list nat) (count : nat) :
  Cpp.contains_loop P p idx count
  = Cpp_some_return P p idx || ((count + Cpp_crossings P p idx) mod 2 =? 1).
Proof.
  unfold Cpp_some_return, Cpp_crossings. revert count.
  induction idx as [|i rest IH]; intros count;
    cbn [Cpp.contains_loop existsb filter].
  - cbn [List.length orb]. now rewrite Nat.add_0_r.
  - destruct (Cpp.contains_body P p i) as [r|hit] eqn:E; cbn [Cpp_returns Cpp_counts orb].
    + eapply Cpp_body_returns_true; exact E.
    + rewrite IH. f_equal. destruct hit; cbn [List.length].
      * now rewrite Nat.add_succ_r.
      * reflexivity.
Qed.

Lemma C_polygonContains_parity (P : Polygon) (p : Point) :
  C.polygonContains P p
  = C_some_return P p (indices P) || (C_crossings P p (indices P) mod 2 =? 1).
Proof. unfold C.polygonContains. fold (indices P). now rewrite C_loop_parity. Qed.

Lemma Cpp_polygonContains_parity (P : Polygon) (p : Point) :
  Cpp.Polygon_contains P p
  = Cpp_some_return P p (indices P) || (Cpp_crossings P p (indices P) mod 2 =? 1).
Proof. unfold Cpp.Polygon_contains. fold (indices P). now rewrite Cpp_loop_parity. Qed.

(** X7.  The point-in-polygon test answers true exactly when the loop
    returns on some edge (the point is on the edge, or the ray meets the edge
    at the abscissa of the point within EPSILON), or the number of edges the
    ray meets to the right of the point is odd.  The order in which the
    edges are visited plays no part.  Both programs. *)
Theorem polygonContains_parity (P : Polygon) (p : Point) :
  C.polygonContains P p
    = C_some_return P p (indices P) || (C_crossings P p (indices P) mod 2 =? 1)
  /\ Cpp.Polygon_contains P p
    = Cpp_some_return P p (indices P) || (Cpp_crossings P p (indices P) mod 2 =? 1).
Proof.
  split.
  - apply C_polygonContains_parity.
  - apply Cpp_polygonContains_parity.
Qed.

End RayCast.

Section StartingVertex.
Context {A : Arith}.

(** The same polygon, its vertex list started one vertex later. *)
Definition rotate (P : Polygon) : Polygon :=
  mkPolygon match vertices P with
            | [] => []
            | v :: rest => rest ++ [v]
            end.

Lemma size_rotate (P : Polygon) : size (rotate P) = size P.
Proof.
  unfold size, rotate. cbn [vertices].
  destruct (vertices P) as [|v rest]; [reflexivity|].
  rewrite length_app. cbn [List.length]. lia.
Qed.

Lemma indices_rotate (P : Polygon) : indices (rotate P) = indices P.
Proof. unfold indices. now rewrite size_rotate. Qed.

Lemma vertex_rotate (P : Polygon) (i : nat) :
  i < size P -> vertex (rotate P) i = vertex P (next_index (size P) i).
Proof.
  unfold vertex, rotate, size, next_index. cbn [vertices].
  destruct (vertices P) as [|v rest]; cbn [List.length]; intros Hi; [lia|].
  destruct (Nat.eq_dec i (List.length rest)) as [->|N].
  - rewrite nth_middle. replace (List.length rest + 1) with (S (List.length rest)) by lia.
    now rewrite Nat.Div0.mod_same.
  - rewrite app_nth1 by lia. rewrite Nat.mod_small by lia.
    replace (i + 1) with (S i) by lia. reflexivity.
Qed.

Lemma next_index_lt (n i : nat) : i < n -> next_index n i < n.
Proof. intros H. apply Nat.mod_upper_bound. lia. Qed.

Lemma edge_of_rotate (P : Polygon) (i : nat) :
  i < size P -> edge_of (rotate P) i = edge_of P (next_index (size P) i).
Proof.
  intros Hi. unfold edge_of. rewrite size_rotate.
  fold (next_index (size P) i).
  fold (next_index (size P) (next_index (size P) i)).
  rewrite !vertex_rotate by auto using next_index_lt. reflexivity.
Qed.

Lemma C_body_rotate (P : Polygon) (p : Point) (i : nat) :
  i < size P ->
  C.polygonContains_body (rotate P) p i = C.polygonContains_body P p (next_index (size P) i).
Proof.
  intros Hi. unfold C.polygonContains_body. rewrite size_rotate.
  fold (next_index (size P) i).
  fold (next_index (size P) (next_index (size P) i)).
  rewrite !vertex_rotate by auto using next_index_lt. reflexivity.
Qed.

Lemma Cpp_body_rotate (P : Polygon) (p : Point) (i : nat) :
  i < size P ->
  Cpp.contains_body (rotate P) p i = Cpp.contains_body P p (next_index (size P) i).
Proof.
  intros Hi. unfold Cpp.contains_body. rewrite size_rotate.
  fold (next_index (size P) i).
  fold (next_index (size P) (next_index (size P) i)).
  rewrite !vertex_rotate by auto using next_index_lt. reflexivity.
Qed.

(** A test over all indices of the rotated polygon is the same test over
    all indices of the polygon. *)
Lemma existsb_rotate (P : Polygon) (f : nat -> bool) :
  existsb (fun i => f (next_index (size P) i)) (indices P) = existsb f (indices P).
Proof.
  rewrite <- (existsb_map_comp f (next_index (size P))).
  apply existsb_Permutation, next_index_Permutation.
Qed.

Lemma forallb_rotate (P : Polygon) (f : nat -> bool) :
  forallb (fun i => f (next_index (size P) i)) (indices P) = forallb f (indices P).
Proof.
  rewrite <- (forallb_map_comp f (next_index (size P))).
  apply forallb_Permutation, next_index_Permutation.
Qed.

Lemma filter_map_length {T U : Type} (f : U -> bool) (g : T -> U) (l : list T) :
  List.length (filter (fun e => f (g e)) l) = List.length (filter f (map g l)).
Proof.
  induction l as [|e rest IH]; cbn [filter map]; [reflexivity|].
  destruct (f (g e)); cbn [List.length]; now rewrite IH.
Qed.

Lemma count_ext_in {T : Type} (f g : T -> bool) (l : list T) :
  (forall e, In e l -> f e = g e) ->
  List.length (filter f l) = List.length (filter g l).
Proof.
  induction l as [|e rest IH]; intros E; cbn [filter]; [reflexivity|].
  rewrite (E e) by now left.
  destruct (g e); cbn [List.length]; rewrite IH; auto; intros; apply E; now right.
Qed.

Lemma in_indices (P : Polygon) (i : nat) : In i (indices P) -> i < size P.
Proof. intros H. apply in_seq in H. lia. Qed.

Lemma C_polygonContains_rotate (P : Polygon) (p : Point) :
  C.polygonContains (rotate P) p = C.polygonContains P p.
Proof.
  rewrite !C_polygonContains_parity.
  unfold C_some_return, C_crossings. rewrite indices_rotate. f_equal.
  - rewrite <- (existsb_rotate P (fun i => C_returns (C.polygonContains_body P p i))).
    apply existsb_ext_in. intros i Hi.
    now rewrite C_body_rotate by now apply in_indices.
  - f_equal. f_equal.
    rewrite (count_ext_in _ (fun i => C_counts (C.polygonContains_body P p (next_index (size P) i)))).
    + rewrite (filter_map_length (fun i => C_counts (C.polygonContains_body P p i))).
      apply count_Permutation, next_index_Permutation.
    + intros i Hi. now rewrite C_body_rotate by now apply in_indices.
Qed.

Lemma Cpp_polygonContains_rotate (P : Polygon) (p : Point) :
  Cpp.Polygon_contains (rotate P) p = Cpp.Polygon_contains P p.
Proof.
  rewrite !Cpp_polygonContains_parity.
  unfold Cpp_some_return, Cpp_crossings. rewrite indices_rotate. f_equal.
  - rewrite <- (existsb_rotate P (fun i => Cpp_returns (Cpp.contains_body P p i))).
    apply existsb_ext_in. intros i Hi.
    now rewrite Cpp_body_rotate by now apply in_indices.
  - f_equal. f_equal.
    rewrite (count_ext_in _ (fun i => Cpp_counts (Cpp.contains_body P p (next_index (size P) i)))).
    + rewrite (filter_map_length (fun i => Cpp_counts (Cpp.contains_body P p i))).
      apply count_Permutation, next_index_Permutation.
    + intros i Hi. now rewrite Cpp_body_rotate by now apply in_indices.
Qed.

Lemma some_edge_pair_rotate_l (test : LineSegment -> LineSegment -> bool) (P Q : Polygon) :
  some_edge_pair test (rotate P) Q = some_edge_pair test P Q.
Proof.
  unfold some_edge_pair. rewrite indices_rotate.
  rewrite <- (existsb_rotate P (fun i =>
    existsb (fun j => test (edge_of P i) (edge_of Q j)) (indices Q))).
  apply existsb_ext_in. intros i Hi.
  now rewrite edge_of_rotate by now apply in_indices.
Qed.

Lemma some_edge_pair_rotate_r (test : LineSegment -> LineSegment -> bool) (P Q : Polygon) :
  some_edge_pair test P (rotate Q) = some_edge_pair test P Q.
Proof.
  unfold some_edge_pair. rewrite indices_rotate.
  apply existsb_ext_in. intros i _.
  rewrite <- (existsb_rotate Q (fun j => test (edge_of P i) (edge_of Q j))).
  apply existsb_ext_in. intros j Hj.
  now rewrite edge_of_rotate by now apply in_indices.
Qed.

Lemma some_vertex_on_edge_rotate_l (on_edge : LineSegment -> Point -> bool) (P Q : Polygon) :
  some_vertex_on_edge on_edge (rotate P) Q = some_vertex_on_edge on_edge P Q.
Proof.
  unfold some_vertex_on_edge. rewrite indices_rotate.
  rewrite <- (existsb_rotate P (fun i =>
    existsb (fun j => on_edge (edge_of P i) (vertex Q j)) (indices Q))).
  apply existsb_ext_in. intros i Hi.
  now rewrite edge_of_rotate by now apply in_indices.
Qed.

Lemma some_vertex_on_edge_rotate_r (on_edge : LineSegment -> Point -> bool) (P Q : Polygon) :
  some_vertex_on_edge on_edge P (rotate Q) = some_vertex_on_edge on_edge P Q.
Proof.
  unfold some_vertex_on_edge. rewrite indices_rotate.
  apply existsb_ext_in. intros i _.
  rewrite <- (existsb_rotate Q (fun j => on_edge (edge_of P i) (vertex Q j))).
  apply existsb_ext_in. intros j Hj.
  now rewrite vertex_rotate by now apply in_indices.
Qed.

Lemma all_vertices_inside_rotate_l (inside : Polygon -> Point -> bool) (P Q : Polygon) :
  all_vertices_inside inside (rotate P) Q = all_vertices_inside inside P Q.
Proof.
  unfold all_vertices_inside. rewrite indices_rotate.
  rewrite <- (forallb_rotate P (fun i => inside Q (vertex P i))).
  apply forallb_ext_in. intros i Hi.
  now rewrite vertex_rotate by now apply in_indices.
Qed.

Lemma all_vertices_inside_rotate_r (inside : Polygon -> Point -> bool) (P Q : Polygon) :
  (forall p, inside (rotate Q) p = inside Q p) ->
  all_vertices_inside inside P (rotate Q) = all_vertices_inside inside P Q.
Proof.
  intros E. unfold all_vertices_inside.
  apply forallb_ext_in. intros i _. apply E.
Qed.

Lemma C_classify_rotate_l (P Q : Polygon) :
  C.classifyPolygons (rotate P) Q = C.classifyPolygons P Q.
Proof.
  rewrite !C_classify_eq.
  unfold C_intersecting, C_touching, C_enclosed.
  rewrite some_edge_pair_rotate_l, some_vertex_on_edge_rotate_l,
    some_edge_pair_rotate_l, some_vertex_on_edge_rotate_r,
    all_vertices_inside_rotate_l,
    (all_vertices_inside_rotate_r C.polygonContains Q P (C_polygonContains_rotate P)).
  reflexivity.
Qed.

Lemma C_classify_rotate_r (P Q : Polygon) :
  C.classifyPolygons P (rotate Q) = C.classifyPolygons P Q.
Proof.
  rewrite !C_classify_eq.
  unfold C_intersecting, C_touching, C_enclosed.
  rewrite some_edge_pair_rotate_r, some_vertex_on_edge_rotate_r,
    some_edge_pair_rotate_r, some_vertex_on_edge_rotate_l,
    all_vertices_inside_rotate_l,
    (all_vertices_inside_rotate_r C.polygonContains P Q (C_polygonContains_rotate Q)).
  reflexivity.
Qed.

Lemma Cpp_classify_rotate_l (P Q : Polygon) :
  Cpp.Polygon_classify (rotate P) Q = Cpp.Polygon_classify P Q.
Proof.
  rewrite !Cpp_classify_eq.
  unfold Cpp_intersecting, Cpp_touching, Cpp_enclosed.
  rewrite some_edge_pair_rotate_l, some_vertex_on_edge_rotate_l,
    some_edge_pair_rotate_l, some_vertex_on_edge_rotate_r,
    all_vertices_inside_rotate_l,
    (all_vertices_inside_rotate_r Cpp.Polygon_contains Q P (Cpp_polygonContains_rotate P)).
  reflexivity.
Qed.

Lemma Cpp_classify_rotate_r (P Q : Polygon) :
  Cpp.Polygon_classify P (rotate Q) = Cpp.Polygon_classify P Q.
Proof.
  rewrite !Cpp_classify_eq.
  unfold Cpp_intersecting, Cpp_touching, Cpp_enclosed.
  rewrite some_edge_pair_rotate_r, some_vertex_on_edge_rotate_r,
    some_edge_pair_rotate_r, some_vertex_on_edge_rotate_l,
    all_vertices_inside_rotate_l,
    (all_vertices_inside_rotate_r Cpp.Polygon_contains P Q (Cpp_polygonContains_rotate Q)).
  reflexivity.
Qed.

(** X8.  Neither the point-in-polygon test nor the classification depends on
    the vertex at which a polygon's vertex list starts: starting either
    polygon one vertex later changes no answer.  Both programs, every
    arithmetic. *)
Theorem starting_vertex_irrelevant (P Q : Polygon) (p : Point) :
  (C.polygonContains (rotate P) p = C.polygonContains P p
   /\ C.classifyPolygons (rotate P) Q = C.classifyPolygons P Q
   /\ C.classifyPolygons P (rotate Q) = C.classifyPolygons P Q)
  /\ (Cpp.Polygon_contains (rotate P) p = Cpp.Polygon_contains P p
   /\ Cpp.Polygon_classify (rotate P) Q = Cpp.Polygon_classify P Q
   /\ Cpp.Polygon_classify P (rotate Q) = Cpp.Polygon_classify P Q).
Proof.
  split; (split; [|split]).
  - apply C_polygonContains_rotate.
  - apply C_classify_rotate_l.
  - apply C_classify_rotate_r.
  - apply Cpp_polygonContains_rotate.
  - apply Cpp_classify_rotate_l.
  - apply Cpp_classify_rotate_r.
Qed.

End StartingVertex.

(** ** Further properties on binary64: whole coordinates, bounding boxes *)

Section WholeBoundary.
Local Open Scope Q_scope.

Lemma C_boundary_inside_whole (P : @Polygon binary64) (p : Point) (i : nat) :
  whole_polygon (2 ^ 25) P -> whole (2 ^ 25) p -> (i < size P)%nat ->
  on_segment (coords (vertex P i)) (coords (vertex P ((i + 1) mod size P))) (coords p) ->
  C.polygonContains P p = true.
Proof.
  intros W Wp Hi O.
  assert (In i (seq 0 (size P))) by (apply in_seq; abs_lia).
  unfold C.polygonContains. apply C_loop_on_edge with i; [assumption|].
  apply segmentContains_whole_iff; try assumption.
  - now apply whole_vertex.
  - now apply whole_next_vertex.
Qed.

(** X9.  On whole coordinates up to 2^25 the boundary is inside, on
    doubles: [segmentContains] holds exactly for the points of the closed
    segment, so every point with whole coordinates that lies exactly on an
    edge of [P] passes the point-in-polygon test of [P].  Both programs. *)
Theorem boundary_inside_whole (P : @Polygon binary64) (p : Point) (i : nat) :
  whole_polygon (2 ^ 25) P -> whole (2 ^ 25) p -> (i < size P)%nat ->
  let on_edge := on_segment (coords (vertex P i)) (coords (vertex P ((i + 1) mod size P)))
                            (coords p) in
  (C.segmentContains (edge_of P i) p = true <-> on_edge)
  /\ (Cpp.LineSegment_contains (edge_of P i) p = true <-> on_edge)
  /\ (on_edge -> C.polygonContains P p = true /\ Cpp.Polygon_contains P p = true).
Proof.
  intros W Wp Hi on_edge.
  assert (E : C.segmentContains (edge_of P i) p = true <-> on_edge).
  { apply segmentContains_whole_iff; try assumption.
    - now apply whole_vertex.
    - now apply whole_next_vertex. }
  split; [exact E|]. split; [now rewrite <- segmentContains_eq|].
  intros O.
  pose proof (C_boundary_inside_whole P p i W Wp Hi O) as H.
  split; [exact H | now rewrite <- polygonContains_eq].
Qed.

End WholeBoundary.

Lemma boundary_inside_whole_witness :
  C.polygonContains whole_triangle (point 2 0) = true
  /\ Cpp.Polygon_contains whole_triangle (point 2 0) = true.
Proof.
  assert (W : whole_polygon (2 ^ 25) whole_triangle).
  { apply Forall_impl with (whole 65536); [|exact whole_triangle_whole].
    intros q. apply whole_weaken. lia. }
  assert (Wp : whole (2 ^ 25) (point 2 0)).
  { exists 2%Z, 0%Z. repeat split; try reflexivity; try lia; vm_compute; reflexivity. }
  assert (Hi : 0 < size whole_triangle) by (vm_compute; lia).
  apply (proj2 (proj2 (boundary_inside_whole whole_triangle (point 2 0) 0 W Wp Hi))).
  split; [vm_compute; reflexivity|].
  split; left; split; vm_compute; discriminate.
Defined.

(** X10.  Segment intersection is sound on doubles for whole coordinates
    up to 65536: when it returns a point, the two closed segments have a
    common point, exactly, and the point returned is that point with each
    coordinate rounded once.  Both programs. *)
Theorem segmentIntersection_sound (seg1 seg2 : @LineSegment binary64) (r : Point) :
  whole 65536 (p1 seg1) -> whole 65536 (p2 seg1) ->
  whole 65536 (p1 seg2) -> whole 65536 (p2 seg2) ->
  C.segmentIntersection seg1 seg2 = Some r
  \/ Cpp.LineSegment_intersection seg1 seg2 = Some r ->
  exists p : Q * Q,
    on_segment (coords (p1 seg1)) (coords (p2 seg1)) p
    /\ on_segment (coords (p1 seg2)) (coords (p2 seg2)) p
    /\ finite (x r) /\ finite (y r)
    /\ (Qabs (F2Q (x r) - fst p) <= u52 * Qabs (fst p) + eta)%Q
    /\ (Qabs (F2Q (y r) - snd p) <= u52 * Qabs (snd p) + eta)%Q.
Proof.
  intros W1 W2 W3 W4 H.
  apply segmentIntersection_common_point; try assumption.
  destruct H as [H|H]; [exact H | now rewrite segmentIntersection_eq].
Qed.

Lemma segmentIntersection_sound_witness :
  exists p : Q * Q,
    on_segment (coords (point 0 0)) (coords (point 4 4)) p
    /\ on_segment (coords (point 0 4)) (coords (point 4 0)) p.
Proof.
  assert (W : forall u v n m, is_int u n -> is_int v m ->
              (Z.abs n <= 65536)%Z -> (Z.abs m <= 65536)%Z -> whole 65536 (point u v)).
  { intros u v n m Iu Iv Hn Hm. exists n, m. auto. }
  assert (I0 : is_int 0%float 0) by (split; reflexivity).
  assert (I4 : is_int 4%float 4) by (split; [reflexivity | vm_compute; reflexivity]).
  destruct (segmentIntersection_sound
              (mkSegment (point 0 0) (point 4 4)) (mkSegment (point 0 4) (point 4 0))
              (point 2 2))
    as (p & O1 & O2 & _); cbn [p1 p2].
  - apply (W _ _ 0%Z 0%Z); auto; lia.
  - apply (W _ _ 4%Z 4%Z); auto; lia.
  - apply (W _ _ 0%Z 4%Z); auto; lia.
  - apply (W _ _ 4%Z 0%Z); auto; lia.
  - left. vm_compute. reflexivity.
  - exists p. split; assumption.
Defined.

Section FloatOrder.

Lemma SFleb_refl (u : spec_float) : sf_nan u = false -> SFleb u u = true.
Proof. intros H. unfold SFleb. now rewrite SFcompare_refl. Qed.

Lemma SFleb_total (u v : spec_float) :
  sf_nan u = false -> sf_nan v = false -> SFleb u v = true \/ SFleb v u = true.
Proof.
  intros Hu Hv. unfold SFleb. rewrite (SFcompare_antisym u v).
  destruct (SFcompare u v) as [[]|] eqn:E; cbn; auto.
  apply SFcompare_None in E. rewrite Hu, Hv in E. discriminate.
Qed.

Lemma cmp_le_trans (e1 e2 e3 : Z) (m1 m2 m3 : positive) :
  match (e1 ?= e2)%Z with Lt => Lt | Gt => Gt | Eq => (m1 ?= m2)%positive end <> Gt ->
  match (e2 ?= e3)%Z with Lt => Lt | Gt => Gt | Eq => (m2 ?= m3)%positive end <> Gt ->
  match (e1 ?= e3)%Z with Lt => Lt | Gt => Gt | Eq => (m1 ?= m3)%positive end <> Gt.
Proof.
  destruct (Z.compare_spec e1 e2), (Z.compare_spec e2 e3), (Z.compare_spec e1 e3);
    try lia; try congruence;
    destruct (Pos.compare_spec m1 m2), (Pos.compare_spec m2 m3), (Pos.compare_spec m1 m3);
    try lia; congruence.
Qed.

Lemma cmp_ge_trans (e1 e2 e3 : Z) (m1 m2 m3 : positive) :
  match (e1 ?= e2)%Z with Lt => Gt | Gt => Lt | Eq => CompOpp (m1 ?= m2)%positive end <> Gt ->
  match (e2 ?= e3)%Z with Lt => Gt | Gt => Lt | Eq => CompOpp (m2 ?= m3)%positive end <> Gt ->
  match (e1 ?= e3)%Z with Lt => Gt | Gt => Lt | Eq => CompOpp (m1 ?= m3)%positive end <> Gt.
Proof.
  destruct (Z.compare_spec e1 e2), (Z.compare_spec e2 e3), (Z.compare_spec e1 e3);
    try lia; try congruence;
    destruct (Pos.compare_spec m1 m2), (Pos.compare_spec m2 m3), (Pos.compare_spec m1 m3);
    cbn [CompOpp]; try lia; congruence.
Qed.

Lemma SFleb_not_Gt (u v : spec_float) :
  SFleb u v = true <-> exists c, SFcompare u v = Some c /\ c <> Gt.
Proof.
  unfold SFleb. destruct (SFcompare u v) as [[]|]; split;
    try (intros _; eexists; split; [reflexivity | discriminate]);
    try reflexivity; try discriminate;
    intros (c & E & N); inversion E; congruence.
Qed.

Lemma SFleb_trans (u v w : spec_float) :
  SFleb u v = true -> SFleb v w = true -> SFleb u w = true.
Proof.
  destruct u as [su|su| |su mu eu], v as [sv|sv| |sv mv ev], w as [sw|sw| |sw mw ew];
    try discriminate; try reflexivity;
    try (destruct su, sv, sw; try discriminate; reflexivity);
    try (destruct su, sv; try discriminate; reflexivity);
    try (destruct su, sw; try discriminate; reflexivity);
    try (destruct sv, sw; try discriminate; reflexivity).
  rewrite !SFleb_not_Gt. cbn [SFcompare].
  change (Pos.compare_cont Eq mu mv) with (Pos.compare mu mv).
  change (Pos.compare_cont Eq mv mw) with (Pos.compare mv mw).
  change (Pos.compare_cont Eq mu mw) with (Pos.compare mu mw).
  intros (c1 & E1 & N1) (c2 & E2 & N2).
  destruct su, sv, sw; inversion E1; inversion E2; subst; try congruence;
    eexists; (split; [reflexivity|]); try discriminate.
  - now apply (cmp_ge_trans eu ev ew mu mv mw).
  - now apply (cmp_le_trans eu ev ew mu mv mw).
Qed.

End FloatOrder.

Section Boxes.
Local Open Scope float_scope.

(** [u <= v] on doubles. *)
Definition fle (u v : float) : Prop := (u <=? v) = true.

Lemma fle_refl (u : float) : is_nan u = false -> fle u u.
Proof. unfold fle. rewrite is_nan_spec, leb_spec. apply SFleb_refl. Qed.

Lemma fle_total (u v : float) : is_nan u = false -> is_nan v = false -> fle u v \/ fle v u.
Proof. unfold fle. rewrite !is_nan_spec, !leb_spec. apply SFleb_total. Qed.

Lemma fle_trans (u v w : float) : fle u v -> fle v w -> fle u w.
Proof. unfold fle. rewrite !leb_spec. apply SFleb_trans. Qed.

(** [w] lies between [u] and [v], in either order. *)
Definition fbetween (u v w : float) : Prop := (fle u w /\ fle w v) \/ (fle v w /\ fle w u).

Lemma ltb_fle (u v : float) : (u <? v) = true -> fle u v.
Proof.
  unfold fle. rewrite ltb_spec, leb_spec. unfold SFltb, SFleb.
  now destruct (SFcompare (Prim2SF u) (Prim2SF v)) as [[]|].
Qed.

Lemma isBetween_fbetween (u v w : float) :
  is_nan u = false -> is_nan v = false ->
  @C.isBetween binary64 u v w = true <-> fbetween u v w.
Proof.
  intros Hu Hv. unfold C.isBetween, fbetween. cbn [dleb fmin fmax binary64].
  unfold c_fmin, c_fmax. rewrite Hu, Hv, andb_true_iff. fold (fle u w) (fle w v) (fle v w) (fle w u).
  destruct (u <? v) eqn:E.
  - fold (fle u w) (fle w v). apply ltb_fle in E.
    split; [tauto|]. intros [H|[H1 H2]]; [exact H|].
    split; eapply fle_trans; eassumption.
  - fold (fle v w) (fle w u). pose proof (ltb_false_leb u v Hu Hv E) as L. fold (fle v u) in L.
    split; [tauto|]. intros [[H1 H2]|H]; [|exact H].
    split; eapply fle_trans; eassumption.
Qed.

(** Two intervals have a common point exactly when an end of one lies in
    the other. *)
Lemma axis_overlap_iff (u1 v1 u2 v2 : float) :
  is_nan u1 = false -> is_nan v1 = false -> is_nan u2 = false -> is_nan v2 = false ->
  @C.isBetween binary64 u1 v1 u2 || @C.isBetween binary64 u1 v1 v2
  || @C.isBetween binary64 u2 v2 u1 || @C.isBetween binary64 u2 v2 v1 = true
  <-> exists w, fbetween u1 v1 w /\ fbetween u2 v2 w.
Proof.
  intros N1 N2 N3 N4.
  rewrite !orb_true_iff, !isBetween_fbetween by assumption.
  pose proof (fle_refl _ N1) as R1. pose proof (fle_refl _ N2) as R2.
  pose proof (fle_refl _ N3) as R3. pose proof (fle_refl _ N4) as R4.
  split.
  - intros [[[H|H]|H]|H].
    + exists u2. split; [exact H|]. unfold fbetween.
      destruct (fle_total u2 v2 N3 N4); auto.
    + exists v2. split; [exact H|]. unfold fbetween.
      destruct (fle_total u2 v2 N3 N4); auto.
    + exists u1. split; [|exact H]. unfold fbetween.
      destruct (fle_total u1 v1 N1 N2); auto.
    + exists v1. split; [|exact H]. unfold fbetween.
      destruct (fle_total u1 v1 N1 N2); auto.
  - intros (w & B1 & B2). unfold fbetween in *.
    destruct B1 as [[A1 A2]|[A1 A2]], B2 as [[C1 C2]|[C1 C2]].
    + destruct (fle_total u1 u2 N1 N3) as [L|L].
      * left. left. left. left. split; [exact L | eapply fle_trans; eassumption].
      * left. right. left. split; [exact L | eapply fle_trans; eassumption].
    + destruct (fle_total u1 v2 N1 N4) as [L|L].
      * left. left. right. left. split; [exact L | eapply fle_trans; eassumption].
      * left. right. right. split; [exact L | eapply fle_trans; eassumption].
    + destruct (fle_total v1 u2 N2 N3) as [L|L].
      * left. left. left. right. split; [exact L | eapply fle_trans; eassumption].
      * right. left. split; [exact L | eapply fle_trans; eassumption].
    + destruct (fle_total v1 v2 N2 N4) as [L|L].
      * left. left. right. right. split; [exact L | eapply fle_trans; eassumption].
      * right. right. split; [exact L | eapply fle_trans; eassumption].
Qed.

(** A point of the bounding box of a segment. *)
Definition in_box (seg : @LineSegment binary64) (q : @Point binary64) : Prop :=
  fbetween (x (p1 seg)) (x (p2 seg)) (x q) /\ fbetween (y (p1 seg)) (y (p2 seg)) (y q).

Definition segment_nonan (seg : @LineSegment binary64) : Prop :=
  point_nonan (p1 seg) /\ point_nonan (p2 seg).

Lemma C_edgesOverlap_boxes (seg1 seg2 : @LineSegment binary64) :
  segment_nonan seg1 -> segment_nonan seg2 ->
  C.edgesOverlap seg1 seg2 = true <-> exists q, in_box seg1 q /\ in_box seg2 q.
Proof.
  intros [[X1 Y1] [X2 Y2]] [[X3 Y3] [X4 Y4]].
  unfold C.edgesOverlap, in_box.
  rewrite andb_true_iff, !axis_overlap_iff by assumption. split.
  - intros [(u & A1 & A2) (v & B1 & B2)]. exists (@mkPoint binary64 u v).
    cbn [x y]. tauto.
  - intros (q & [A1 B1] & [A2 B2]). split; [exists (x q) | exists (y q)]; tauto.
Qed.

(** X11.  On doubles, when no coordinate is NaN, [edgesOverlap] is the
    intersection test of the two bounding boxes: it holds exactly when
    some point lies in both.  Both programs. *)
Theorem edgesOverlap_boxes (seg1 seg2 : @LineSegment binary64) :
  segment_nonan seg1 -> segment_nonan seg2 ->
  (C.edgesOverlap seg1 seg2 = true <-> exists q, in_box seg1 q /\ in_box seg2 q)
  /\ (Cpp.edgesOverlap seg1 seg2 = true <-> exists q, in_box seg1 q /\ in_box seg2 q).
Proof.
  intros N1 N2. split; [now apply C_edgesOverlap_boxes|].
  rewrite <- (C_edgesOverlap_boxes seg1 seg2 N1 N2).
  destruct N1 as [[X1 Y1] [X2 Y2]], N2 as [[X3 Y3] [X4 Y4]].
  unfold C.edgesOverlap, Cpp.edgesOverlap.
  now rewrite <- !isBetween_eq by assumption.
Qed.

End Boxes.

Lemma edgesOverlap_boxes_witness :
  exists q, in_box (mkSegment (point 0 0) (point 4 4)) q
    /\ in_box (mkSegment (point 2 1) (point 6 3)) q.
Proof.
  assert (N1 : segment_nonan (mkSegment (point 0 0) (point 4 4)))
    by (repeat split; reflexivity).
  assert (N2 : segment_nonan (mkSegment (point 2 1) (point 6 3)))
    by (repeat split; reflexivity).
  apply (proj1 (edgesOverlap_boxes _ _ N1 N2)). vm_compute. reflexivity.
Defined.

Section WholeRayCast.
Local Open Scope Q_scope.

Lemma EPSILON_small : F2Q (@EPSILON binary64) < 1 # 4.
Proof. vm_compute. reflexivity. Qed.

(** Two whole numbers are within EPSILON exactly when they are equal. *)
Lemma areEqual_whole (u v : float) (n m : Z) :
  is_int u n -> is_int v m -> (Z.abs (n - m) < 2 ^ 53)%Z ->
  @C.areEqual binary64 u v = true <-> n = m.
Proof.
  intros Iu Iv H. pose proof (int_sub _ _ _ _ Iu Iv H) as [F E].
  rewrite areEqual_iff by exact F. rewrite E. split.
  - intros A. destruct (Z.eq_dec (n - m) 0) as [Z|N]; [abs_lia|exfalso].
    pose proof (inject_Z_abs_ge_1 _ N). pose proof EPSILON_below. lra.
  - intros ->. rewrite Z.sub_diag. eapply Qlt_trans; [|exact EPSILON_above]. reflexivity.
Qed.

Lemma bracket_passes (u v w : float) :
  finite u -> finite v -> finite w -> between (F2Q u) (F2Q v) (F2Q w) ->
  (w <? c_fmin u v)%float || (c_fmax u v <? w)%float = false.
Proof.
  intros Fu Fv Fw B. apply orb_false_iff. unfold between in B.
  destruct (fmin_fmax_cases u v Fu Fv) as [(H & -> & ->)|(H & -> & ->)];
    split; apply not_true_iff_false; rewrite ltb_Q by assumption; lra.
Qed.

(** One turn of the ray cast on whole coordinates up to 2^25: the point
    is off the edge, the edge is not horizontal, its ordinates bracket the
    point, the ray meets the line of the edge at the abscissa [X], of
    magnitude at most 2^26 before [v1.x] is added and at least 1/2 away
    from the point.  The turn goes on, and counts the edge exactly when
    [X] is to the right. *)
Lemma body_whole (P : @Polygon binary64) (p : Point) (i : nat)
    (x1 y1 x2 y2 px py : Z) :
  let v1 := vertex P i in
  let v2 := vertex P ((i + 1) mod size P) in
  is_int (x v1) x1 -> is_int (y v1) y1 -> is_int (x v2) x2 -> is_int (y v2) y2 ->
  is_int (x p) px -> is_int (y p) py ->
  (Z.abs x1 <= 2 ^ 25)%Z -> (Z.abs y1 <= 2 ^ 25)%Z ->
  (Z.abs x2 <= 2 ^ 25)%Z -> (Z.abs y2 <= 2 ^ 25)%Z ->
  (Z.abs px <= 2 ^ 25)%Z -> (Z.abs py <= 2 ^ 25)%Z ->
  ((y2 - y1) * px + (x1 - x2) * py + (x2 * y1 - x1 * y2) <> 0)%Z ->
  y1 <> y2 ->
  between (inject_Z y1) (inject_Z y2) (inject_Z py) ->
  let T := inject_Z ((py - y1) * (x2 - x1)) / inject_Z (y2 - y1) in
  Qabs T <= inject_Z (2 ^ 26) ->
  (1 # 2 <= T + inject_Z x1 - inject_Z px ->
     C.polygonContains_body P p i = C.Continue true)
  /\ (T + inject_Z x1 - inject_Z px <= - (1 # 2) ->
     C.polygonContains_body P p i = C.Continue false).
Proof.
  intros v1 v2 Ix1 Iy1 Ix2 Iy2 Ipx Ipy Hx1 Hy1 Hx2 Hy2 Hpx Hpy Off NH B T BT.
  unfold C.polygonContains_body. fold v1 v2.
  assert (S : C.segmentContains {| p1 := v1; p2 := v2 |} p = false).
  { unfold C.segmentContains, C.lineContains. cbn [p1 p2 dadd dmul dzero binary64].
    pose proof (residual_whole v1 v2 p _ _ _ _ _ _ Ix1 Iy1 Ix2 Iy2 Ipx Ipy
                  Hx1 Hy1 Hx2 Hy2 Hpx Hpy) as Ires. cbv zeta in Ires.
    pose proof (is_int_near_zero _ _ Ires) as L.
    destruct (@C.areEqual binary64 _ 0%float); [|reflexivity].
    exfalso. apply Off. now apply L. }
  rewrite S.
  assert (E : @C.areEqual binary64 (y v1) (y v2) = false).
  { apply not_true_iff_false. rewrite (areEqual_whole _ _ _ _ Iy1 Iy2) by abs_lia. exact NH. }
  rewrite E.
  assert (R : (y p <? c_fmin (y v1) (y v2))%float || (c_fmax (y v1) (y v2) <? y p)%float = false).
  { apply bracket_passes; try apply Iy1; try apply Iy2; try apply Ipy.
    apply (between_ext _ _ _ _ _ _ (Qeq_sym _ _ (proj2 Iy1)) (Qeq_sym _ _ (proj2 Iy2))
             (Qeq_sym _ _ (proj2 Ipy)) B). }
  cbn [dltb fmin fmax binary64]. rewrite R. cbv zeta.
  cbn [dadd dsub dmul ddiv binary64].
  (* the abscissa *)
  assert (In1 : is_int (y p - y v1)%float (py - y1)) by (apply int_sub; try assumption; abs_lia).
  assert (In2 : is_int (x v2 - x v1)%float (x2 - x1)) by (apply int_sub; try assumption; abs_lia).
  assert (Bn1 : (Z.abs (py - y1) <= 2 ^ 26)%Z) by abs_lia.
  assert (Bn2 : (Z.abs (x2 - x1) <= 2 ^ 26)%Z) by abs_lia.
  pose proof (Zabs_mul_le _ _ _ _ Bn1 Bn2) as Bn. change (2 ^ 26 * 2 ^ 26)%Z with (2 ^ 52)%Z in Bn.
  assert (In : is_int ((y p - y v1) * (x v2 - x v1))%float ((py - y1) * (x2 - x1)))
    by (apply int_mul; try assumption; abs_lia).
  assert (Id : is_int (y v2 - y v1)%float (y2 - y1)) by (apply int_sub; try assumption; abs_lia).
  destruct (int_div_rounds _ _ _ _ In Id ltac:(abs_lia) ltac:(abs_lia)) as [Fq Eq]. fold T in Eq.
  set (q := ((y p - y v1) * (x v2 - x v1) / (y v2 - y v1))%float) in *.
  assert (Aq : approx q T (u52 * inject_Z (2 ^ 26) + eta) (inject_Z (2 ^ 26))).
  { repeat split; [exact Fq | | exact BT]. assert (0 <= u52) by discriminate. nra. }
  pose proof (approx_int _ _ _ Ix1 Hx1) as Ax1.
  pose proof (approx_int _ _ _ Ipx Hpx) as Apx.
  pose proof (approx_add _ _ _ _ _ _ _ _ Aq Ax1 ltac:(vm_compute; discriminate)) as AX.
  pose proof (approx_sub _ _ _ _ _ _ _ _ AX Apx ltac:(vm_compute; discriminate)) as AD.
  set (xI := (q + x v1)%float) in *.
  destruct AX as (FX & DX & _). destruct AD as (FD & DD & _).
  assert (DX' : Qabs (F2Q xI - (T + inject_Z x1)) <= 1 # 1024).
  { eapply Qle_trans; [exact DX|]. vm_compute. discriminate. }
  assert (DD' : Qabs (F2Q (xI - x p)%float - (T + inject_Z x1 - inject_Z px)) <= 1 # 1024).
  { eapply Qle_trans; [exact DD|]. vm_compute. discriminate. }
  clear DX DD. apply Qabs_Qle_condition in DX', DD'.
  pose proof EPSILON_small as Es.
  destruct Ipx as [Fpx Epx].
  split; intros H.
  - assert (A : @C.areEqual binary64 xI (x p) = false).
    { apply not_true_iff_false. rewrite areEqual_iff by exact FD. intros A.
      apply Qabs_Qlt_condition in A. lra. }
    rewrite A. f_equal. apply ltb_Q; try assumption. rewrite Epx. lra.
  - assert (A : @C.areEqual binary64 xI (x p) = false).
    { apply not_true_iff_false. rewrite areEqual_iff by exact FD. intros A.
      apply Qabs_Qlt_condition in A. lra. }
    rewrite A. f_equal. apply not_true_iff_false. rewrite ltb_Q by assumption.
    rewrite Epx. lra.
Qed.

End WholeRayCast.

Section Diamond.
Local Open Scope Q_scope.

Lemma SF2Q_opp (u : spec_float) : SF2Q (SFopp u) == - SF2Q u.
Proof.
  destruct u as [s|s| |s m e]; cbn [SFopp SF2Q]; try reflexivity.
  destruct s; unfold sgn; cbn [negb]; ring.
Qed.

Lemma int_opp (u : float) (n : Z) : is_int u n -> is_int (- u)%float (- n).
Proof.
  intros [F E]. unfold is_int, finite, F2Q in *. rewrite opp_spec. split.
  - now destruct (Prim2SF u).
  - now rewrite SF2Q_opp, E, inject_Z_opp.
Qed.

Lemma int_zero : is_int 0%float 0.
Proof. split; reflexivity. Qed.

(** The diamond with vertices (0,r), (r,0), (0,-r), (-r,0). *)
Definition diamond (r : float) : @Polygon binary64 :=
  polygon_of [(0, r); (r, 0); (0, - r); (- r, 0)]%float.

Lemma quotient_cancel (n m : Z) : m <> 0%Z -> inject_Z (n * m) / inject_Z m == inject_Z n.
Proof.
  intros H. rewrite inject_Z_mult. apply Qdiv_mult_l.
  change 0 with (inject_Z 0). rewrite inject_Z_injective. exact H.
Qed.

Lemma quotient_zero (m : Z) : inject_Z 0 / inject_Z m == 0.
Proof. unfold Qdiv. change (inject_Z 0) with 0. ring. Qed.

Lemma Qabs_whole_le (n : Z) : (Z.abs n <= 2 ^ 25)%Z -> Qabs (inject_Z n) <= inject_Z (2 ^ 26).
Proof. intros H. apply inject_Z_abs_le. abs_lia. Qed.

Lemma half_le_whole (n : Z) : (1 <= n)%Z -> 1 # 2 <= inject_Z n.
Proof.
  intros H. apply Qle_trans with (inject_Z 1); [discriminate|]. now rewrite <- Zle_Qle.
Qed.

Ltac diamond_edge r :=
  change (size (diamond r)) with 4%nat;
  change ((0 + 1) mod 4)%nat with 1%nat;
  change ((1 + 1) mod 4)%nat with 2%nat;
  change ((2 + 1) mod 4)%nat with 3%nat;
  change ((3 + 1) mod 4)%nat with 0%nat;
  change (vertex (diamond r) 0) with (point 0 r);
  change (vertex (diamond r) 1) with (point r 0);
  change (vertex (diamond r) 2) with (point 0 (- r));
  change (vertex (diamond r) 3) with (point (- r) 0);
  cbn [point x y].

Lemma C_diamond_centre_outside (r : float) (n : Z) :
  is_int r n -> (1 <= n <= 2 ^ 25)%Z ->
  C.polygonContains (diamond r) (point 0 0) = false.
Proof.
  intros Ir Hn.
  pose proof (int_opp r n Ir) as Io. pose proof int_zero as Iz.
  assert (B0 : C.polygonContains_body (diamond r) (point 0 0) 0 = C.Continue true).
  { refine (proj1 (body_whole (diamond r) (point 0 0) 0 0 n n 0 0 0 _ _ _ _ _ _ _ _ _ _ _ _ _ _ _ _) _);
      diamond_edge r; try assumption; try abs_lia.
    - unfold between. right. rewrite <- !Zle_Qle. abs_lia.
    - replace ((0 - n) * (n - 0))%Z with (n * (0 - n))%Z by ring.
      rewrite quotient_cancel by abs_lia. now apply Qabs_whole_le; abs_lia.
    - replace ((0 - n) * (n - 0))%Z with (n * (0 - n))%Z by ring.
      rewrite quotient_cancel by abs_lia. change (inject_Z 0) with 0.
      pose proof (half_le_whole n ltac:(abs_lia)). lra. }
  assert (B1 : C.polygonContains_body (diamond r) (point 0 0) 1 = C.Continue true).
  { refine (proj1 (body_whole (diamond r) (point 0 0) 1 n 0 0 (- n) 0 0 _ _ _ _ _ _ _ _ _ _ _ _ _ _ _ _) _);
      diamond_edge r; try assumption; try abs_lia.
    - unfold between. right. rewrite <- !Zle_Qle. abs_lia.
    - replace ((0 - 0) * (0 - n))%Z with 0%Z by ring. rewrite quotient_zero. discriminate.
    - replace ((0 - 0) * (0 - n))%Z with 0%Z by ring. rewrite quotient_zero.
      change (inject_Z 0) with 0. pose proof (half_le_whole n ltac:(abs_lia)). lra. }
  assert (B2 : C.polygonContains_body (diamond r) (point 0 0) 2 = C.Continue false).
  { refine (proj2 (body_whole (diamond r) (point 0 0) 2 0 (- n) (- n) 0 0 0 _ _ _ _ _ _ _ _ _ _ _ _ _ _ _ _) _);
      diamond_edge r; try assumption; try abs_lia.
    - unfold between. left. rewrite <- !Zle_Qle. abs_lia.
    - replace ((0 - - n) * (- n - 0))%Z with (- n * (0 - - n))%Z by ring.
      rewrite quotient_cancel by abs_lia. now apply Qabs_whole_le; abs_lia.
    - replace ((0 - - n) * (- n - 0))%Z with (- n * (0 - - n))%Z by ring.
      rewrite quotient_cancel by abs_lia. rewrite inject_Z_opp. change (inject_Z 0) with 0.
      pose proof (half_le_whole n ltac:(abs_lia)). lra. }
  assert (B3 : C.polygonContains_body (diamond r) (point 0 0) 3 = C.Continue false).
  { refine (proj2 (body_whole (diamond r) (point 0 0) 3 (- n) 0 0 n 0 0 _ _ _ _ _ _ _ _ _ _ _ _ _ _ _ _) _);
      diamond_edge r; try assumption; try abs_lia.
    - unfold between. left. rewrite <- !Zle_Qle. abs_lia.
    - replace ((0 - 0) * (0 - - n))%Z with 0%Z by ring. rewrite quotient_zero. discriminate.
    - replace ((0 - 0) * (0 - - n))%Z with 0%Z by ring. rewrite quotient_zero.
      rewrite inject_Z_opp. change (inject_Z 0) with 0.
      pose proof (half_le_whole n ltac:(abs_lia)). lra. }
  unfold C.polygonContains. change (size (diamond r)) with 4%nat.
  cbn [seq C.polygonContains_loop]. now rewrite B0, B1, B2, B3.
Qed.

(** X12.  The ray cast counts a vertex that lies on the ray once for each of
    its two edges.  So the centre of a diamond, whose ray to the right leaves
    through the vertex (r,0), is counted twice and reported outside,
    although it is strictly inside.  On doubles, both programs, for every
    whole number r from 1 to 2^25. *)
Theorem diamond_centre_outside (r : float) (n : Z) :
  is_int r n -> (1 <= n <= 2 ^ 25)%Z ->
  C.polygonContains (diamond r) (point 0 0) = false
  /\ Cpp.Polygon_contains (diamond r) (point 0 0) = false.
Proof.
  intros Ir Hn. pose proof (C_diamond_centre_outside r n Ir Hn) as E.
  split; [exact E | now rewrite <- polygonContains_eq].
Qed.

End Diamond.

Lemma diamond_centre_outside_witness :
  C.polygonContains (diamond 2) (point 0 0) = false
  /\ Cpp.Polygon_contains (diamond 2) (point 0 0) = false.
Proof.
  apply (diamond_centre_outside 2 2).
  - split; [reflexivity | vm_compute; reflexivity].
  - lia.
Defined.

(** ** Further properties on binary64: the direction of a segment *)

Section Negated.

(** Opposite values, but for the sign of a zero. *)
Definition nrel (s t : spec_float) : Prop :=
  t = SFopp s \/ (sf_zero s = true /\ sf_zero t = true).

Lemma oprel_nrel (s t : spec_float) : oprel s t -> nrel s t.
Proof. intros [H|[-> ->]]; [now left | now right]. Qed.

Ltac nrel_cases :=
  simpl; try (left; reflexivity); try (right; split; reflexivity).

Lemma SFmul_opp_l (u v : spec_float) : SF64mul (SFopp u) v = SFopp (SF64mul u v).
Proof.
  destruct u as [[]|[]| |su mu eu], v as [[]|[]| |sv mv ev]; try reflexivity;
    try (destruct sv; reflexivity); try (destruct su; reflexivity).
  change (SFopp (S754_finite su mu eu)) with (S754_finite (negb su) mu eu).
  unfold SF64mul, SFmul.
  rewrite <- binary_round_aux_opp. f_equal. now destruct su, sv.
Qed.

Lemma SFmul_nrel_l (u u' v : spec_float) :
  nrel u u' -> nrel (SF64mul u v) (SF64mul u' v).
Proof.
  intros [->|[Z Z']]; [left; apply SFmul_opp_l|].
  destruct u as [su| | |]; try discriminate. destruct u' as [su'| | |]; try discriminate.
  destruct v as [[]|[]| |[] mv ev], su, su'; nrel_cases.
Qed.

Lemma cond_Zopp_negb (s : bool) (m : Z) : cond_Zopp (negb s) m = (- cond_Zopp s m)%Z.
Proof. destruct s; cbn [negb cond_Zopp]; lia. Qed.

Lemma SFadd_opp_opp (u v : spec_float) :
  nrel (SF64add u v) (SF64add (SFopp u) (SFopp v)).
Proof.
  destruct u as [[]|[]| |su mu eu], v as [[]|[]| |sv mv ev]; nrel_cases.
  unfold SF64add, SFadd, SFopp. rewrite !cond_Zopp_negb.
  set (X := cond_Zopp su (Zpos (fst (shl_align mu eu (Z.min eu ev))))).
  set (Y := cond_Zopp sv (Zpos (fst (shl_align mv ev (Z.min eu ev))))).
  destruct (Z.eq_dec (X + Y) 0) as [E|E].
  - right. replace (- X + - Y)%Z with 0%Z by lia. rewrite E. split; reflexivity.
  - left. replace (- X + - Y)%Z with (- (X + Y))%Z by lia.
    now apply binary_normalize_opp.
Qed.

Lemma SFadd_nrel (u u' v v' : spec_float) :
  nrel u u' -> nrel v v' -> nrel (SF64add u v) (SF64add u' v').
Proof.
  intros [->|[Zu Zu']] [->|[Zv Zv']].
  - apply SFadd_opp_opp.
  - destruct v as [sv| | |]; try discriminate. destruct v' as [sv'| | |]; try discriminate.
    destruct u as [[]|[]| |[] mu eu], sv, sv'; nrel_cases.
  - destruct u as [su| | |]; try discriminate. destruct u' as [su'| | |]; try discriminate.
    destruct v as [[]|[]| |[] mv ev], su, su'; nrel_cases.
  - destruct u as [su| | |]; try discriminate. destruct u' as [su'| | |]; try discriminate.
    destruct v as [sv| | |]; try discriminate. destruct v' as [sv'| | |]; try discriminate.
    destruct su, su', sv, sv'; nrel_cases.
Qed.

Lemma SFabs_nrel (u u' : spec_float) : nrel u u' -> SFabs u = SFabs u'.
Proof.
  intros [->|[Zu Zu']]; [now destruct u|].
  destruct u; try discriminate. destruct u'; try discriminate. reflexivity.
Qed.

End Negated.

Section Direction.
Local Open Scope float_scope.

Definition fneg (u v : float) : Prop := nrel (Prim2SF u) (Prim2SF v).

Lemma sub_fneg (u v : float) : fneg (u - v) (v - u).
Proof. unfold fneg. rewrite !sub_spec. apply oprel_nrel, SFsub_swap. Qed.

Lemma mul_fneg_l (u u' v : float) : fneg u u' -> fneg (u * v) (u' * v).
Proof. unfold fneg. rewrite !mul_spec. apply SFmul_nrel_l. Qed.

Lemma add_fneg (u u' v v' : float) : fneg u u' -> fneg v v' -> fneg (u + v) (u' + v').
Proof. unfold fneg. rewrite !add_spec. apply SFadd_nrel. Qed.

Lemma abs_fneg (u u' : float) : fneg u u' -> abs u = abs u'.
Proof. intros H. apply Prim2SF_inj. rewrite !abs_spec. now apply SFabs_nrel. Qed.

Lemma lineContains_reverse (q r p : @Point binary64) :
  C.lineContains (C.createLine q r) p = C.lineContains (C.createLine r q) p.
Proof.
  unfold C.lineContains, C.createLine, C.areEqual.
  cbn [a b c dadd dsub dmul dltb fabs dzero binary64].
  rewrite !sub_zero_r. f_equal. apply abs_fneg.
  apply add_fneg; [apply add_fneg|]; try apply mul_fneg_l; apply sub_fneg.
Qed.

Lemma c_fmin_comm (u v : float) :
  is_nan u = false -> is_nan v = false -> feq (c_fmin u v) (c_fmin v u).
Proof.
  intros Hu Hv. unfold c_fmin. rewrite Hu, Hv.
  rewrite !ltb_spec. unfold SFltb, feq.
  rewrite (SFcompare_antisym (Prim2SF u) (Prim2SF v)).
  destruct (SFcompare (Prim2SF u) (Prim2SF v)) as [[]|] eqn:E; simpl.
  - rewrite (SFcompare_antisym (Prim2SF u) (Prim2SF v)), E. reflexivity.
  - now apply feq_refl.
  - now apply feq_refl.
  - apply SFcompare_None in E. rewrite <- !is_nan_spec, Hu, Hv in E. discriminate.
Qed.

Lemma c_fmax_comm (u v : float) :
  is_nan u = false -> is_nan v = false -> feq (c_fmax u v) (c_fmax v u).
Proof.
  intros Hu Hv. unfold c_fmax. rewrite Hu, Hv.
  rewrite !ltb_spec. unfold SFltb, feq.
  rewrite (SFcompare_antisym (Prim2SF u) (Prim2SF v)).
  destruct (SFcompare (Prim2SF u) (Prim2SF v)) as [[]|] eqn:E; simpl.
  - exact E.
  - now apply feq_refl.
  - now apply feq_refl.
  - apply SFcompare_None in E. rewrite <- !is_nan_spec, Hu, Hv in E. discriminate.
Qed.

Lemma segmentContains_reverse (q r p : @Point binary64) :
  C.segmentContains (mkSegment q r) p = C.segmentContains (mkSegment r q) p.
Proof.
  unfold C.segmentContains. cbn [p1 p2].
  rewrite <- (lineContains_reverse q r p).
  destruct (C.lineContains (C.createLine q r) p) eqn:E; [|reflexivity].
  apply lineContains_nonan in E as ((Hx1 & Hy1) & (Hx2 & Hy2) & _).
  cbn [negb dleb fmin fmax binary64].
  rewrite (feq_leb_l _ _ _ (c_fmin_comm _ _ Hx1 Hx2)).
  rewrite (feq_leb_l _ _ _ (c_fmin_comm _ _ Hy1 Hy2)).
  rewrite (feq_leb_r _ _ _ (c_fmax_comm _ _ Hx1 Hx2)).
  rewrite (feq_leb_r _ _ _ (c_fmax_comm _ _ Hy1 Hy2)).
  reflexivity.
Qed.

(** X13.  The direction of a segment plays no part in the containment
    tests: with the two ends of a segment exchanged, [lineContains] on its
    line, [segmentContains] and [areCollinear] answer the same, for every
    double.  Both programs. *)
Theorem segment_direction_irrelevant (q r p : @Point binary64) (seg : @LineSegment binary64) :
  (C.lineContains (C.createLine q r) p = C.lineContains (C.createLine r q) p
   /\ C.segmentContains (mkSegment q r) p = C.segmentContains (mkSegment r q) p
   /\ C.areCollinear (mkSegment q r) seg = C.areCollinear (mkSegment r q) seg)
  /\ (Cpp.Line_contains (Cpp.Line_new q r) p = Cpp.Line_contains (Cpp.Line_new r q) p
   /\ Cpp.LineSegment_contains (mkSegment q r) p = Cpp.LineSegment_contains (mkSegment r q) p
   /\ Cpp.areCollinear (mkSegment q r) seg = Cpp.areCollinear (mkSegment r q) seg).
Proof.
  assert (H : C.areCollinear (mkSegment q r) seg = C.areCollinear (mkSegment r q) seg).
  { unfold C.areCollinear. cbn [p1 p2]. now rewrite !(lineContains_reverse q r). }
  split; (split; [|split]).
  - apply lineContains_reverse.
  - apply segmentContains_reverse.
  - exact H.
  - apply lineContains_reverse.
  - rewrite <- !segmentContains_eq. apply segmentContains_reverse.
  - exact H.
Qed.

End Direction.
